(** * A shallow embedding of the nukilabs/hashmap package

    The development follows the three source files of the repository:

    - [internal/rapidhash/rapidhash.go]: the 64-bit mixing hash;
    - [internal/stringhasher/stringhasher.go]: the 24-bit code mask;
    - the package file of [hashmap]: the open-addressed table.

    Go's fixed-width integers are integers of [Z] with the wrap-around of
    every operation written out; a run-time panic is the [None] of the
    option monad. *)

From Stdlib Require Import ZArith Lia.
From Stdlib Require Import Strings.Byte.
From stdpp Require Import base option list strings.

Local Open Scope Z_scope.

(** ** Machine integers *)

(** [uint32(x)] and [uint64(x)]: truncation to the low bits. *)
Definition wrap_uint32 (x : Z) : Z := x mod 2 ^ 32.
Definition wrap_uint64 (x : Z) : Z := x mod 2 ^ 64.

(** Arithmetic on [int] (64 bits, two's complement). *)
Definition wrap_int (x : Z) : Z := (x + 2 ^ 63) mod 2 ^ 64 - 2 ^ 63.

(** ** Byte slices *)

(** [uint64(b)] of a byte. *)
Definition byte_to_Z (b : byte) : Z := Z.of_N (Byte.to_N b).

(** [s[lo:hi]]: panics unless [0 <= lo <= hi <= len(s)]. *)
Definition slice (s : list byte) (lo hi : Z) : option (list byte) :=
  if (0 <=? lo) && (lo <=? hi) && (hi <=? Z.of_nat (length s))
  then Some (take (Z.to_nat (hi - lo)) (drop (Z.to_nat lo) s))
  else None.

(** [s[lo:]] *)
Definition slice_from (s : list byte) (lo : Z) : option (list byte) :=
  slice s lo (Z.of_nat (length s)).

(** [s[i]] *)
Definition byte_at (s : list byte) (i : Z) : option Z :=
  if i <? 0 then None else byte_to_Z <$> s !! Z.to_nat i.

(** The little-endian value of the first [n] bytes of [b]:
    [b[0] | b[1]<<8 | ...]. *)
Fixpoint le_word (n : nat) (b : list byte) : Z :=
  match n, b with
  | S n, x :: b => Z.lor (byte_to_Z x) (Z.shiftl (le_word n b) 8)
  | _, _ => 0
  end.

(** [binary.LittleEndian.Uint32] and [Uint64]: the bounds check on the
    last byte read, then the little-endian word. *)
Definition Uint32 (b : list byte) : option Z :=
  if Z.of_nat (length b) <? 4 then None else Some (le_word 4 b).
Definition Uint64 (b : list byte) : option Z :=
  if Z.of_nat (length b) <? 8 then None else Some (le_word 8 b).

(** [x << n] on [uint64]. *)
Definition shl64 (x n : Z) : Z := wrap_uint64 (Z.shiftl x n).

(** ** rapidhash *)

Module rapidhash.

Definition SEED : Z := 0xbdd89aa982704029.

Definition secret (i : Z) : Z :=
  match i with
  | 0 => 0x2d358dccaa6c78a5
  | 1 => 0x8bb84b93962eacc9
  | _ => 0x4b33a62ed433d4a3
  end.

(** [bits.Mul64]: the high and the low half of the 128-bit product. *)
Definition Mul64 (x y : Z) : Z * Z := ((x * y) / 2 ^ 64, (x * y) mod 2 ^ 64).

Definition Mul128 (a b : Z) : Z * Z :=
  let '(hi, lo) := Mul64 a b in
  (lo, hi).

Definition Mix (a b : Z) : Z :=
  let '(lo, hi) := Mul128 a b in
  Z.lxor lo hi.

(** The six words of the 48 bytes at [p], mixed into the three seeds:
    the body of the block loop. *)
Definition block_body (p : list byte) (seed see1 see2 : Z) : option (Z * Z * Z) :=
  w0 ← slice p 0 8 ≫= Uint64;
  w1 ← slice p 8 16 ≫= Uint64;
  let seed := Mix (Z.lxor w0 (secret 0)) (Z.lxor w1 seed) in
  w2 ← slice p 16 24 ≫= Uint64;
  w3 ← slice p 24 32 ≫= Uint64;
  let see1 := Mix (Z.lxor w2 (secret 1)) (Z.lxor w3 see1) in
  w4 ← slice p 32 40 ≫= Uint64;
  w5 ← slice p 40 48 ≫= Uint64;
  let see2 := Mix (Z.lxor w4 (secret 2)) (Z.lxor w5 see2) in
  Some (seed, see1, see2).

(** [for i >= 48 { ... i -= 48 }]; every iteration lowers [i] by 48, so
    [fuel] above [i / 48] is never used up. *)
Fixpoint block_loop (fuel : nat) (data : list byte) (length : Z)
    (seed see1 see2 i : Z) : option (Z * Z * Z * Z) :=
  if i >=? 48 then
    match fuel with
    | O => None
    | S fuel =>
      p ← slice_from data (wrap_uint64 (length - i));
      '(seed, see1, see2) ← block_body p seed see1 see2;
      block_loop fuel data length seed see1 see2 (wrap_uint64 (i - 48))
    end
  else Some (seed, see1, see2, i).

(** The first part of the branch [length > 16]: the guarded block loop.
    It returns the seed and what is left of [i]. *)
Definition blocks (data : list byte) (length seed : Z) : option (Z * Z) :=
  let i := length in
  if i >? 48 then
    let see1 := seed in
    let see2 := seed in
    '(seed, see1, see2, i) ←
      block_loop (List.length data) data length seed see1 see2 i;
    Some (Z.lxor seed (Z.lxor see1 see2), i)
  else Some (seed, i).

(** The second part: the passes over the tail. *)
Definition tail (data : list byte) (length seed i : Z) : option Z :=
  if i >? 16 then
    p ← slice_from data (wrap_uint64 (length - i));
    w0 ← slice p 0 8 ≫= Uint64;
    w1 ← slice p 8 16 ≫= Uint64;
    let seed :=
      Mix (Z.lxor w0 (secret 2)) (Z.lxor (Z.lxor w1 seed) (secret 1)) in
    if i >? 32 then
      w2 ← slice p 16 24 ≫= Uint64;
      w3 ← slice p 24 32 ≫= Uint64;
      Some (Mix (Z.lxor w2 (secret 2)) (Z.lxor w3 seed))
    else Some seed
  else Some seed.

(** The last lines of [Hash], after [a], [b] and [seed] are known. *)
Definition finish (a b seed length : Z) : Z :=
  let a := Z.lxor a (secret 1) in
  let b := Z.lxor b seed in
  let '(lo, hi) := Mul128 a b in
  Mix (Z.lxor (Z.lxor lo (secret 0)) length) (Z.lxor hi (secret 1)).

Definition Hash (data : list byte) (seed : Z) : option Z :=
  let length := wrap_uint64 (Z.of_nat (List.length data)) in
  let seed :=
    Z.lxor seed (Z.lxor (Mix (Z.lxor seed (secret 0)) (secret 1)) length) in
  '(a, b, seed) ←
    (if length <=? 16 then
       if length >=? 4 then
         x0 ← slice data 0 4 ≫= Uint32;
         x1 ← slice_from data (wrap_uint64 (length - 4)) ≫= Uint32;
         let a := Z.lor (shl64 x0 32) x1 in
         let delta := Z.shiftr (Z.land length 24) (Z.shiftr length 3) in
         y0 ← slice data delta (wrap_uint64 (delta + 4)) ≫= Uint32;
         y1 ← slice data (wrap_uint64 (wrap_uint64 (length - 4) - delta))
                (wrap_uint64 (length - delta)) ≫= Uint32;
         Some (a, Z.lor (shl64 y0 32) y1, seed)
       else if length >? 0 then
         let k := length in
         d0 ← byte_at data 0;
         d1 ← byte_at data (Z.shiftr k 1);
         d2 ← byte_at data (wrap_uint64 (k - 1));
         Some (Z.lor (Z.lor (shl64 d0 56) (shl64 d1 32)) d2, 0, seed)
       else Some (0, 0, seed)
     else
       '(seed, i) ← blocks data length seed;
       seed ← tail data length seed i;
       a ← slice data (wrap_uint64 (length - 16)) (wrap_uint64 (length - 8))
             ≫= Uint64;
       b ← slice_from data (wrap_uint64 (length - 8)) ≫= Uint64;
       Some (a, b, seed));
  Some (finish a b seed length).

End rapidhash.

(** ** stringhasher *)

Module stringhasher.

Definition FlagCount : Z := 8.

(** [MaskTop8Bits(result uint64) uint32] *)
Definition MaskTop8Bits (result : Z) : Z :=
  let result := Z.land result (Z.shiftl 1 (32 - FlagCount) - 1) in
  let result :=
    if result =? 0 then Z.shiftr 0x80000000 FlagCount else result in
  wrap_uint32 result.

Definition ComputeHashAndMaskTop8Bits (data : list byte) (seed : Z) : option Z :=
  MaskTop8Bits <$> rapidhash.Hash data seed.

End stringhasher.

(** ** The table *)

(** Keys are values of a [comparable] type.  [key_eq a b] is [a == b]:
    it is [None] when the comparison panics, as it does for two interface
    values of one dynamic type that is not comparable, and it need not hold
    of a value and itself, as for the NaN of a floating-point type.  The
    method [hash] inspects the dynamic type of the key; [as_string] is that
    type switch, [Some s] for a key of type [string]. *)
Class GoKey (K : Type) := {
  key_eq : K → K → option bool;
  as_string : K → option string;
}.

(** The key types on which [==] never panics: the types that have no
    interface type in them, floating-point types with their NaN
    included. *)
Class TotalKey (K : Type) `{!GoKey K} : Prop :=
  key_eq_total : ∀ a b : K, is_Some (key_eq a b).

(** The key types on which [==] never panics and holds of a value and
    itself only: integers, strings, booleans, pointers, and the structs
    and arrays of these. *)
Class StrictKey (K : Type) `{!GoKey K} := {
  key_eq_dec :: EqDecision K;
  key_eq_decide : ∀ a b : K, key_eq a b = Some (bool_decide (a = b));
}.

#[export] Instance strict_total (K : Type) `{StrictKey K} : TotalKey K.
Proof. intros a b. rewrite key_eq_decide. eauto. Qed.

#[export] Instance string_GoKey : GoKey string :=
  {| key_eq := λ a b, Some (bool_decide (a = b)); as_string := Some |}.
#[export] Instance int_GoKey : GoKey Z :=
  {| key_eq := λ a b, Some (bool_decide (a = b)); as_string := λ _, None |}.

#[export] Instance string_StrictKey : StrictKey string :=
  {| key_eq_decide := λ a b : string, eq_refl |}.
#[export] Instance int_StrictKey : StrictKey Z :=
  {| key_eq_decide := λ a b : Z, eq_refl |}.

(** The zero value of a type, what [var zero V] declares. *)
Class GoZero (V : Type) := zero : V.
#[export] Instance int_GoZero : GoZero Z := 0.
#[export] Instance string_GoZero : GoZero string := EmptyString.

Definition initialCapacity : Z := 8.
Definition maximumLoad : Z := 2.

Record Pair (K V : Type) := mkPair { Key : K; Value : V }.
Arguments mkPair {K V} _ _.
Arguments Key {K V} _.
Arguments Value {K V} _.

Record HashMap (K V : Type) := mkHashMap {
  table : list (option (Pair K V));
  size : Z;
  capacity : Z;
}.
Arguments mkHashMap {K V} _ _ _.
Arguments table {K V} _.
Arguments size {K V} _.
Arguments capacity {K V} _.

(** [make([]*Pair[K, V], n)]: [n] nil slots; a negative length panics. *)
Definition make {K V} (n : Z) : option (list (option (Pair K V))) :=
  if n <? 0 then None else Some (replicate (Z.to_nat n) None).

(** [s[idx]]: an index out of range panics. *)
Definition slot {K V} (h : HashMap K V) (idx : Z) : option (option (Pair K V)) :=
  if idx <? 0 then None else table h !! Z.to_nat idx.

(** [s[idx] = x], once the index has been checked. *)
Definition store {K V} (h : HashMap K V) (idx : Z) (x : option (Pair K V)) :=
  <[Z.to_nat idx := x]> (table h).

Section Table.

(** [traits.CaseFoldingHash] is imported from a package whose source is
    not part of the development; it is a parameter, a function from
    strings to [uint32]. *)
Context (CaseFoldingHash : string → Z).
Context {K V : Type} `{!GoKey K} `{!GoZero V}.

Definition New : HashMap K V :=
  {| table := replicate (Z.to_nat initialCapacity) None;
     size := 0;
     capacity := initialCapacity |}.

Definition hash (key : K) : Z :=
  match as_string key with
  | Some k => CaseFoldingHash k
  | None => 0
  end.

Definition index (h : HashMap K V) (hash : Z) : Z :=
  Z.land hash (wrap_uint32 (wrap_int (capacity h - 1))).

(** The loop of [find]; [idx] and [count] are its two variables.  Every
    iteration that does not return increments [count], and the loop is
    left when [count] reaches the capacity: [fuel] only makes the
    recursion structural. *)
Fixpoint find_loop (h : HashMap K V) (key : K) (fuel : nat) (idx count : Z)
  : option (Z * bool) :=
  match fuel with
  | O => None
  | S fuel =>
    p ← slot h idx;
    match p with
    | None => Some (idx, false)
    | Some p =>
      equal ← key_eq (Key p) key;
      if equal : bool then Some (idx, true)
      else
        let count := wrap_int (count + 1) in
        if count >=? capacity h then Some (idx, false)
        else
          find_loop h key fuel
            (Z.land (wrap_int (idx + count)) (wrap_int (capacity h - 1)))
            count
    end
  end.

Definition find (h : HashMap K V) (key : K) : option (Z * bool) :=
  find_loop h key (Z.to_nat (Z.max 1 (capacity h))) (index h (hash key)) 0.

(** One iteration of the loop of [rehash] over the old slots; [acc] is
    the table so far, or the panic of an earlier iteration. *)
Definition reinsert (set : HashMap K V → K → V → option (HashMap K V))
    (acc : option (HashMap K V)) (p : option (Pair K V))
  : option (HashMap K V) :=
  h ← acc;
  match p with
  | None => Some h
  | Some p => set h (Key p) (Value p)
  end.

(** [rehash], with the method it calls back as a parameter. *)
Definition rehash_with (set : HashMap K V → K → V → option (HashMap K V))
    (h : HashMap K V) : option (HashMap K V) :=
  let old := table h in
  let capacity := wrap_int (capacity h * 2) in
  slots ← make capacity;
  foldl (reinsert set)
        (Some {| table := slots; size := 0; capacity := capacity |})
        old.

(** The body of [Set] after the load check: update the value in place,
    or put a new pair in the slot that [find] returned. *)
Definition assign (h : HashMap K V) (key : K) (value : V)
  : option (HashMap K V) :=
  '(idx, found) ← find h key;
  if found : bool then
    p ← slot h idx ≫= id;
    Some {| table := store h idx (Some {| Key := Key p; Value := value |});
            size := size h;
            capacity := capacity h |}
  else
    _ ← slot h idx;
    Some {| table := store h idx (Some {| Key := key; Value := value |});
            size := wrap_int (size h + 1);
            capacity := capacity h |}.

(** [Set] and [rehash] call each other; [fuel] bounds the depth of the
    calls, and [None] is also what is left when it runs out. *)
Fixpoint Set_ (fuel : nat) (h : HashMap K V) (key : K) (value : V)
  : option (HashMap K V) :=
  match fuel with
  | O => None
  | S fuel =>
    h ← (if wrap_int ((size h + 1) * maximumLoad) >=? capacity h
         then rehash_with (Set_ fuel) h
         else Some h);
    assign h key value
  end.

Definition rehash (fuel : nat) (h : HashMap K V) : option (HashMap K V) :=
  rehash_with (Set_ fuel) h.

Definition Get (h : HashMap K V) (key : K) : option (V * bool) :=
  '(idx, found) ← find h key;
  if negb found then Some (zero, false)
  else
    p ← slot h idx ≫= id;
    Some (Value p, true).

Definition Contains (h : HashMap K V) (key : K) : option bool :=
  '(_, found) ← find h key;
  Some found.

Definition Delete (h : HashMap K V) (key : K) : option (HashMap K V * bool) :=
  '(idx, found) ← find h key;
  if negb found then Some (h, false)
  else
    _ ← slot h idx;
    Some ({| table := store h idx None;
             size := wrap_int (size h - 1);
             capacity := capacity h |}, true).

Definition Clear (h : HashMap K V) : HashMap K V :=
  {| table := replicate (Z.to_nat initialCapacity) None;
     capacity := initialCapacity;
     size := 0 |}.

Definition Size (h : HashMap K V) : Z := size h.
Definition Capacity (h : HashMap K V) : Z := capacity h.

(** [Iter]: the consumer's loop body is [yield], a transformer of the
    consumer's state that says whether to go on. *)
Fixpoint Iter_loop {St : Type} (slots : list (option (Pair K V)))
    (yield : K → V → St → St * bool) (s : St) : St :=
  match slots with
  | [] => s
  | None :: slots => Iter_loop slots yield s
  | Some p :: slots =>
    let '(s, continue) := yield (Key p) (Value p) s in
    if continue : bool then Iter_loop slots yield s else s
  end.

Definition Iter {St : Type} (h : HashMap K V) (yield : K → V → St → St * bool)
    (s : St) : St :=
  Iter_loop (table h) yield s.

(** A full iteration: the consumer records every pair and never stops. *)
Definition collect (k : K) (v : V) (acc : list (K * V)) : list (K * V) * bool :=
  (acc ++ [(k, v)], true).

Definition Iter_all (h : HashMap K V) : list (K * V) := Iter h collect [].

End Table.

(** ** The probe sequence, the representation invariant, reachable tables *)

(** The offset of the [n]-th probe from the initial index, as the loop of
    [find] accumulates it: [1 + 2 + ... + n]. *)
Definition triangular (cap init n : Z) : Z :=
  Z.land (init + n * (n + 1) / 2) (cap - 1).

(** The [i]-th probe in the words of the specification:
    [(initial_index + i) & (capacity - 1)]. *)
Definition linear (cap init i : Z) : Z :=
  Z.land (init + i) (cap - 1).

(** The number of slots that hold a pair. *)
Fixpoint occupied {K V} (slots : list (option (Pair K V))) : nat :=
  match slots with
  | [] => O
  | None :: slots => occupied slots
  | Some _ :: slots => S (occupied slots)
  end.

(** The pairs in slot order. *)
Definition pairs {K V} (slots : list (option (Pair K V))) : list (K * V) :=
  omap (fmap (λ p, (Key p, Value p))) slots.

(** A consumer run over a list of pairs, until it declines to go on. *)
Fixpoint consume {K V St : Type} (yield : K → V → St → St * bool)
    (l : list (K * V)) (s : St) : St :=
  match l with
  | [] => s
  | (k, v) :: l =>
    let '(s, continue) := yield k v s in
    if continue : bool then consume yield l s else s
  end.

Section Properties.

Context (CaseFoldingHash : string → Z).
Context {K V : Type} `{!GoKey K} `{!GoZero V}.

(** The hash tells some two keys of the type apart: it is not one
    constant for the whole key type. *)
Definition hash_distinguishes : Prop :=
  ∃ k1 k2 : K, hash CaseFoldingHash k1 ≠ hash CaseFoldingHash k2.

(** Slot [idx] holds a pair whose key is not [key]: the comparison
    [Key == key] returns [false]. *)
Definition other_key (h : HashMap K V) (key : K) (idx : Z) : Prop :=
  ∃ p, slot h idx = Some (Some p) ∧ key_eq (Key p) key = Some false.

(** What a search along [probe] reports for [key]: the [n]-th probe is
    the first that is empty or holds [key], or it is the last of
    [capacity] probes, none of them empty or holding [key]. *)
Definition search_result (probe : Z → Z) (h : HashMap K V) (key : K)
    (r : Z * bool) : Prop :=
  ∃ n, 0 ≤ n < capacity h ∧ r.1 = probe n ∧
       (∀ j, 0 ≤ j < n → other_key h key (probe j)) ∧
       match slot h (probe n) with
       | Some None => r.2 = false
       | Some (Some p) =>
         match key_eq (Key p) key with
         | Some true => r.2 = true
         | Some false => r.2 = false ∧ n = capacity h - 1
         | None => False
         end
       | None => False
       end.

(** The comparisons of a search for [key] do not panic, whatever slot
    they reach. *)
Definition comparable_with (h : HashMap K V) (key : K) : Prop :=
  ∀ idx p, slot h idx = Some (Some p) → is_Some (key_eq (Key p) key).

(** [find] follows the probe sequence [probe cap init], started at
    [init = hash & (cap - 1)]. *)
Definition probe_sequence (probe : Z → Z → Z → Z) (h : HashMap K V) (key : K)
  : Prop :=
  let init := Z.land (hash CaseFoldingHash key) (capacity h - 1) in
  index h (hash CaseFoldingHash key) = init ∧
  ∃ r, find CaseFoldingHash h key = Some r ∧
       search_result (probe (capacity h) init) h key r.

(** The shape of a table, whatever its load: the capacity is a power of
    two and the length of the bucket array. *)
Definition Shape (h : HashMap K V) : Prop :=
  ∃ k, 0 ≤ k ≤ 62 ∧ capacity h = 2 ^ k ∧
       Z.of_nat (length (table h)) = capacity h.

(** The representation invariant: the capacity is [2 ^ k] with
    [3 <= k], it is the length of the bucket array, [size] counts the
    occupied slots, and less than half of the slots are occupied. *)
Definition Inv (h : HashMap K V) : Prop :=
  ∃ k, 3 ≤ k ≤ 62 ∧ capacity h = 2 ^ k ∧
       Z.of_nat (length (table h)) = capacity h ∧
       size h = Z.of_nat (occupied (table h)) ∧
       size h * 2 < capacity h.

(** Every stored key is where [find] locates it. *)
Definition findable (h : HashMap K V) : Prop :=
  ∀ idx p, slot h idx = Some (Some p) →
           find CaseFoldingHash h (Key p) = Some (idx, true).

(** Some slot holds [key] with [value]. *)
Definition stored (h : HashMap K V) (key : K) (value : V) : Prop :=
  ∃ idx, slot h idx = Some (Some {| Key := key; Value := value |}).

(** The tables that calls of the public methods produce from [New()].
    [Get], [Contains], [Size], [Capacity] and [Iter] leave the table as
    it is. *)
Inductive reachable : HashMap K V → Prop :=
| reachable_New : reachable New
| reachable_Set h fuel key value h' :
    reachable h → Set_ CaseFoldingHash fuel h key value = Some h' →
    reachable h'
| reachable_Delete h key h' found :
    reachable h → Delete CaseFoldingHash h key = Some (h', found) →
    reachable h'
| reachable_Clear h :
    reachable h → reachable (Clear h).

(** The tables produced without [Delete]. *)
Inductive insert_only : HashMap K V → Prop :=
| insert_only_New : insert_only New
| insert_only_Set h key value h' :
    insert_only h → Set_ CaseFoldingHash 2 h key value = Some h' →
    insert_only h'
| insert_only_Clear h :
    insert_only h → insert_only (Clear h).

End Properties.

(** ** The long branch of [Hash] as a function of the blocks *)

Module rapidhash_spec.

Import rapidhash.

(** The 8-byte little-endian word at offset [off]. *)
Definition word (data : list byte) (off : nat) : Z :=
  le_word 8 (drop off data).

(** One 48-byte block mixed into the three rolling seeds. *)
Definition mix_block (s : Z * Z * Z) (blk : list byte) : Z * Z * Z :=
  let '(seed, see1, see2) := s in
  (Mix (Z.lxor (word blk 0) (secret 0)) (Z.lxor (word blk 8) seed),
   Mix (Z.lxor (word blk 16) (secret 1)) (Z.lxor (word blk 24) see1),
   Mix (Z.lxor (word blk 32) (secret 2)) (Z.lxor (word blk 40) see2)).

(** The first [n] blocks of [data], from the front. *)
Fixpoint mix_blocks (n : nat) (data : list byte) (s : Z * Z * Z) : Z * Z * Z :=
  match n with
  | O => s
  | S n => mix_blocks n (drop 48 data) (mix_block s (take 48 data))
  end.

(** The passes over a tail of [r] bytes. *)
Definition mix_tail (rest : list byte) (seed : Z) : Z :=
  let r := Z.of_nat (length rest) in
  if r >? 16 then
    let s := Mix (Z.lxor (word rest 0) (secret 2))
                 (Z.lxor (Z.lxor (word rest 8) seed) (secret 1)) in
    if r >? 32 then Mix (Z.lxor (word rest 16) (secret 2)) (Z.lxor (word rest 24) s)
    else s
  else seed.

(** The hash of a long input that runs [count length] block passes. *)
Definition Hash_long (count : Z → Z) (data : list byte) (seed : Z) : Z :=
  let length := Z.of_nat (length data) in
  let seed :=
    Z.lxor seed (Z.lxor (Mix (Z.lxor seed (secret 0)) (secret 1)) length) in
  let n := Z.to_nat (count length) in
  let '(s, s1, s2) := mix_blocks n data (seed, seed, seed) in
  let seed := Z.lxor s (Z.lxor s1 s2) in
  let seed := mix_tail (drop (48 * n) data) seed in
  finish (word data (List.length data - 16)) (word data (List.length data - 8))
         seed length.

(** Block passes "while at least 48 bytes remain". *)
Definition count_claimed (length : Z) : Z := length / 48.

(** Block passes as [Hash] runs them: none unless [length > 48]. *)
Definition count_guarded (length : Z) : Z :=
  if length >? 48 then length / 48 else 0.

End rapidhash_spec.

(** ** Tables with keys of type [int] *)

Module Examples.

(** A table with [int] keys never calls the string hash. *)
Definition no_strings : string → Z := λ _, 0.

Definition entry (k v : Z) : option (Pair Z Z) := Some {| Key := k; Value := v |}.

(** After [Set(1, 10)]. *)
Definition table_1 : HashMap Z Z :=
  {| table := [entry 1 10; None; None; None; None; None; None; None];
     size := 1;
     capacity := 8 |}.

(** After [Set(1, 10)], [Set(2, 20)]. *)
Definition table_12 : HashMap Z Z :=
  {| table := [entry 1 10; entry 2 20; None; None; None; None; None; None];
     size := 2;
     capacity := 8 |}.

(** After [Set(1, 10)], [Set(2, 20)], [Delete(1)]. *)
Definition table_2 : HashMap Z Z :=
  {| table := [None; entry 2 20; None; None; None; None; None; None];
     size := 1;
     capacity := 8 |}.

(** After [Set(1, 10)], [Set(2, 20)], [Set(3, 30)]. *)
Definition table_123 : HashMap Z Z :=
  {| table := [entry 1 10; entry 2 20; None; entry 3 30; None; None; None; None];
     size := 3;
     capacity := 8 |}.

(** After [Set(1, 10)], [Set(2, 20)], [Set(3, 30)], [Set(4, 40)]: the
    fourth call has rehashed to 16 slots. *)
Definition table_1234 : HashMap Z Z :=
  {| table := [entry 1 10; entry 2 20; None; entry 3 30; None; None;
               entry 4 40; None; None; None; None; None; None; None; None; None];
     size := 4;
     capacity := 16 |}.

(** After [Set(1, 10)], [Set(2, 20)], [Delete(1)], [Set(2, 21)]. *)
Definition table_22 : HashMap Z Z :=
  {| table := [entry 2 21; entry 2 20; None; None; None; None; None; None];
     size := 2;
     capacity := 8 |}.


(** A bucket array without an empty slot.  No sequence of calls produces
    it; a search for a key that is not in it runs out of probes. *)
Definition table_full : HashMap Z Z :=
  {| table := [entry 1 10; entry 2 20; entry 5 50; entry 3 30;
               entry 8 80; entry 7 70; entry 4 40; entry 6 60];
     size := 8;
     capacity := 8 |}.

(** The values of a [float64] key type as far as [==] tells them apart:
    the NaN, which is equal to nothing, itself included, and the
    numbers. *)
Inductive float_key : Type := NaN | Num (x : Z).

#[export] Instance float_GoKey : GoKey float_key :=
  {| key_eq := λ a b,
       match a, b with
       | Num x, Num y => Some (bool_decide (x = y))
       | _, _ => Some false
       end;
     as_string := λ _, None |}.

#[export] Instance float_TotalKey : TotalKey float_key.
Proof. intros [|x] [|y]; cbn; eauto. Qed.

(** After [Set(NaN, 1)] on a table with [float64] keys. *)
Definition table_nan : HashMap float_key Z :=
  {| table := [Some {| Key := NaN; Value := 1 |};
               None; None; None; None; None; None; None];
     size := 1;
     capacity := 8 |}.

(** After [Set(NaN, 1)], [Set(NaN, 2)]: the second call does not find the
    key of the first. *)
Definition table_nan_nan : HashMap float_key Z :=
  {| table := [Some {| Key := NaN; Value := 1 |};
               Some {| Key := NaN; Value := 2 |};
               None; None; None; None; None; None];
     size := 2;
     capacity := 8 |}.

(** Keys of the interface type [any] that hold an [int] or a slice
    [[]int]: values of different dynamic types are different, and the
    comparison of two slices panics. *)
Inductive any_key : Type := Int (x : Z) | Slice (l : list Z).

#[export] Instance any_GoKey : GoKey any_key :=
  {| key_eq := λ a b,
       match a, b with
       | Int x, Int y => Some (bool_decide (x = y))
       | Slice _, Slice _ => None
       | _, _ => Some false
       end;
     as_string := λ _, None |}.

End Examples.

(** * Theorems *)

(** ** Machine integers *)

Lemma wrap_int_small x : - 2 ^ 63 ≤ x < 2 ^ 63 → wrap_int x = x.
Proof.
  intros Hx. unfold wrap_int.
  rewrite Z.mod_small; lia.
Qed.

Lemma wrap_uint32_small x : 0 ≤ x < 2 ^ 32 → wrap_uint32 x = x.
Proof. intros Hx. unfold wrap_uint32. now rewrite Z.mod_small. Qed.

Lemma wrap_uint64_small x : 0 ≤ x < 2 ^ 64 → wrap_uint64 x = x.
Proof. intros Hx. unfold wrap_uint64. now rewrite Z.mod_small. Qed.

Lemma land_mask x k : 0 ≤ k → Z.land x (2 ^ k - 1) = x mod 2 ^ k.
Proof.
  intros Hk. rewrite <- Z.land_ones by done.
  now rewrite Z.ones_equiv, <- Z.sub_1_r.
Qed.

Lemma pow2_bounds k : 3 ≤ k ≤ 62 → 8 ≤ 2 ^ k ≤ 2 ^ 62.
Proof.
  intros Hk. split.
  - change 8 with (2 ^ 3). apply Z.pow_le_mono_r; lia.
  - apply Z.pow_le_mono_r; lia.
Qed.

(** ** The code mask *)

Section MaskTop8Bits.

Import stringhasher.

Lemma MaskTop8Bits_unfold h :
  MaskTop8Bits h =
  if Z.land h (2 ^ 24 - 1) =? 0 then 2 ^ 23 else Z.land h (2 ^ 24 - 1).
Proof.
  unfold MaskTop8Bits, FlagCount.
  change (Z.shiftl 1 (32 - 8) - 1) with (2 ^ 24 - 1).
  change (Z.shiftr 0x80000000 8) with (2 ^ 23).
  assert (0 ≤ Z.land h (2 ^ 24 - 1) < 2 ^ 24) as Hr.
  { rewrite (land_mask h 24) by lia. apply Z.mod_pos_bound. lia. }
  destruct (Z.land h (2 ^ 24 - 1) =? 0); apply wrap_uint32_small; lia.
Qed.

(** C5: on every 64-bit input the mask is [h & (2^24 - 1)], or [2^23]
    when that is zero; the result is never zero and fits in 24 bits. *)
Theorem MaskTop8Bits_spec (h : Z) :
  0 ≤ h < 2 ^ 64 →
  MaskTop8Bits h =
    (if Z.land h (2 ^ 24 - 1) =? 0 then 2 ^ 23 else Z.land h (2 ^ 24 - 1)) ∧
  MaskTop8Bits h ≠ 0 ∧
  0 ≤ MaskTop8Bits h < 2 ^ 24 ∧
  wrap_uint32 (MaskTop8Bits h) = MaskTop8Bits h.
Proof.
  intros _. rewrite MaskTop8Bits_unfold.
  assert (0 ≤ Z.land h (2 ^ 24 - 1) < 2 ^ 24) as Hr.
  { rewrite (land_mask h 24) by lia. apply Z.mod_pos_bound. lia. }
  destruct (Z.eqb_spec (Z.land h (2 ^ 24 - 1)) 0) as [Hz|Hz].
  - repeat split; try lia; apply wrap_uint32_small; lia.
  - repeat split; try lia; apply wrap_uint32_small; lia.
Qed.

Lemma MaskTop8Bits_spec_witness :
  MaskTop8Bits 0 = 2 ^ 23 ∧ MaskTop8Bits (2 ^ 24) ≠ 0 ∧
  MaskTop8Bits 0xabcdef123456 = 0x123456.
Proof.
  split; [|split].
  - apply (MaskTop8Bits_spec 0). lia.
  - apply (MaskTop8Bits_spec (2 ^ 24)). lia.
  - apply (MaskTop8Bits_spec 0xabcdef123456). lia.
Defined.

End MaskTop8Bits.

(** ** The probe sequence of [find] *)

Section Find.

Context (CaseFoldingHash : string → Z).
Context {K V : Type} `{!GoKey K} `{!GoZero V}.
Implicit Types (h : HashMap K V) (key : K).

Lemma Inv_Shape h : Inv h → Shape h.
Proof.
  intros (k & Hk & Hcap & Hlen & _). exists k. split; [lia|done].
Qed.

Lemma Shape_bounds h :
  Shape h →
  1 ≤ capacity h ≤ 2 ^ 62 ∧ Z.of_nat (length (table h)) = capacity h.
Proof.
  intros (k & Hk & Hcap & Hlen). split; [|done]. rewrite Hcap. split.
  - pose proof (Z.pow_pos_nonneg 2 k). lia.
  - apply Z.pow_le_mono_r; lia.
Qed.

Lemma Inv_bounds h :
  Inv h →
  8 ≤ capacity h ≤ 2 ^ 62 ∧ Z.of_nat (length (table h)) = capacity h ∧
  0 ≤ size h ∧ size h * 2 < capacity h.
Proof.
  intros (k & Hk & Hcap & Hlen & Hsize & Hload).
  rewrite Hcap. pose proof (pow2_bounds k Hk). lia.
Qed.

(** *** Masks and indices, for every capacity that is a power of two *)

Lemma Shape_mask h x :
  Shape h →
  Z.land x (capacity h - 1) = x mod capacity h ∧
  0 ≤ Z.land x (capacity h - 1) < capacity h.
Proof.
  intros HS. pose proof (Shape_bounds h HS) as (Hc & _).
  destruct HS as (k & Hk & Hcap & _).
  assert (Z.land x (capacity h - 1) = x mod capacity h) as ->.
  { rewrite Hcap. apply land_mask. lia. }
  split; [done|]. apply Z.mod_pos_bound. lia.
Qed.

(** The mask [uint32(capacity - 1)] of [index]. *)
Lemma Shape_index_mask h :
  Shape h →
  ∃ k, 0 ≤ k ≤ 62 ∧ capacity h = 2 ^ k ∧
       wrap_uint32 (wrap_int (capacity h - 1)) = 2 ^ Z.min k 32 - 1.
Proof.
  intros HS. pose proof (Shape_bounds h HS) as (Hc & _).
  destruct HS as (k & Hk & Hcap & _). exists k. split; [done|]. split; [done|].
  rewrite wrap_int_small by lia. rewrite Hcap in *.
  destruct (Z.le_gt_cases k 32) as [Hle|Hgt].
  - rewrite Z.min_l by done.
    assert (2 ^ k ≤ 2 ^ 32) by (apply Z.pow_le_mono_r; lia).
    apply wrap_uint32_small. lia.
  - rewrite Z.min_r by lia. unfold wrap_uint32.
    replace (2 ^ k - 1) with (2 ^ 32 - 1 + (2 ^ (k - 32) - 1) * 2 ^ 32).
    + rewrite Z.mod_add by lia. apply Z.mod_small. lia.
    + replace k with (k - 32 + 32) at 2 by lia.
      rewrite Z.pow_add_r by lia. lia.
Qed.

Lemma Shape_index_range h x : Shape h → 0 ≤ index h x < capacity h.
Proof.
  intros HS. destruct (Shape_index_mask h HS) as (k & Hk & Hcap & Hm).
  unfold index. rewrite Hm, Hcap, land_mask by lia.
  pose proof (Z.mod_pos_bound x (2 ^ Z.min k 32) ltac:(lia)).
  assert (2 ^ Z.min k 32 ≤ 2 ^ k) by (apply Z.pow_le_mono_r; lia). lia.
Qed.

Lemma Shape_index h x :
  Shape h → 0 ≤ x < 2 ^ 32 → index h x = Z.land x (capacity h - 1).
Proof.
  intros HS Hx. destruct (Shape_index_mask h HS) as (k & Hk & Hcap & Hm).
  unfold index. rewrite Hm, Hcap, !land_mask by lia.
  destruct (Z.le_gt_cases k 32) as [Hle|Hgt].
  - now rewrite Z.min_l.
  - rewrite Z.min_r by lia.
    assert (2 ^ 32 < 2 ^ k) by (apply Z.pow_lt_mono_r; lia).
    rewrite !Z.mod_small; lia.
Qed.

Lemma Shape_slot h idx :
  Shape h → 0 ≤ idx < capacity h → is_Some (slot h idx).
Proof.
  intros HS Hidx. pose proof (Shape_bounds h HS) as (_ & Hlen).
  unfold slot. destruct (Z.ltb_spec idx 0); [lia|].
  apply lookup_lt_is_Some. lia.
Qed.

Lemma mask_mod h x :
  Inv h → Z.land x (capacity h - 1) = x mod capacity h.
Proof. intros HI. by apply Shape_mask, Inv_Shape. Qed.

Lemma mask_range h x :
  Inv h → 0 ≤ Z.land x (capacity h - 1) < capacity h.
Proof. intros HI. by apply Shape_mask, Inv_Shape. Qed.

Lemma index_range h x : Inv h → 0 ≤ index h x < capacity h.
Proof. intros HI. by apply Shape_index_range, Inv_Shape. Qed.

Lemma index_mask h x :
  Inv h → 0 ≤ x < 2 ^ 32 → index h x = Z.land x (capacity h - 1).
Proof. intros HI. by apply Shape_index, Inv_Shape. Qed.

Lemma slot_in_range h idx :
  Inv h → 0 ≤ idx < capacity h → is_Some (slot h idx).
Proof. intros HI. by apply Shape_slot, Inv_Shape. Qed.

Lemma slot_Some_range h idx o :
  Inv h → slot h idx = Some o → 0 ≤ idx < capacity h.
Proof.
  intros HI. pose proof (Inv_bounds h HI) as (_ & Hlen & _).
  unfold slot. destruct (Z.ltb_spec idx 0); [done|].
  intros Hl%lookup_lt_Some. lia.
Qed.

(** *** The triangular sequence *)

(** Twice the [n]-th triangular number. *)
Lemma triangular_double n : 2 * (n * (n + 1) / 2) = n * (n + 1).
Proof.
  symmetry. apply Z.div_exact; [lia|].
  destruct (Z.Even_or_Odd n) as [[m ->]|[m ->]].
  - replace (2 * m * (2 * m + 1)) with (m * (2 * m + 1) * 2) by lia.
    apply Z.mod_mul. lia.
  - replace ((2 * m + 1) * (2 * m + 1 + 1)) with ((2 * m + 1) * (m + 1) * 2) by lia.
    apply Z.mod_mul. lia.
Qed.

Lemma triangular_succ n :
  (n + 1) * (n + 1 + 1) / 2 = n * (n + 1) / 2 + (n + 1).
Proof.
  pose proof (triangular_double n). pose proof (triangular_double (n + 1)). lia.
Qed.

Lemma Shape_triangular_0 h init :
  Shape h → 0 ≤ init < capacity h → triangular (capacity h) init 0 = init.
Proof.
  intros HS Hi. unfold triangular. rewrite (proj1 (Shape_mask h _ HS)).
  change (0 * (0 + 1) / 2) with 0. rewrite Z.add_0_r.
  apply Z.mod_small. lia.
Qed.

(** The update [idx = (idx + count) & (capacity - 1)] of the loop takes
    the [n]-th probe to the next. *)
Lemma Shape_triangular_step h init n :
  Shape h →
  Z.land (triangular (capacity h) init n + (n + 1)) (capacity h - 1) =
  triangular (capacity h) init (n + 1).
Proof.
  intros HS. unfold triangular. rewrite !(proj1 (Shape_mask h _ HS)).
  rewrite triangular_succ. rewrite Zplus_mod_idemp_l.
  f_equal. lia.
Qed.

Lemma Shape_triangular_range h init n :
  Shape h → 0 ≤ triangular (capacity h) init n < capacity h.
Proof. intros HS. by apply Shape_mask. Qed.

Lemma triangular_0 h init :
  Inv h → 0 ≤ init < capacity h → triangular (capacity h) init 0 = init.
Proof. intros HI. by apply Shape_triangular_0, Inv_Shape. Qed.

Lemma triangular_step h init n :
  Inv h →
  Z.land (triangular (capacity h) init n + (n + 1)) (capacity h - 1) =
  triangular (capacity h) init (n + 1).
Proof. intros HI. by apply Shape_triangular_step, Inv_Shape. Qed.

Lemma triangular_range h init n :
  Inv h → 0 ≤ triangular (capacity h) init n < capacity h.
Proof. intros HI. by apply Shape_triangular_range, Inv_Shape. Qed.

(** *** The loop of [find] *)

(** What the loop returns, entered for the [n]-th probe after [n] slots
    with other keys, is a result of the search. *)
Lemma find_loop_sound h key init fuel :
  Shape h →
  ∀ n r, 0 ≤ n < capacity h →
    (∀ j, 0 ≤ j < n → other_key h key (triangular (capacity h) init j)) →
    find_loop h key fuel (triangular (capacity h) init n) n = Some r →
    search_result (triangular (capacity h) init) h key r.
Proof.
  intros HS. pose proof (Shape_bounds h HS) as (Hc & Hlen).
  induction fuel as [|fuel IH]; intros n r Hn Hchain Hf; [done|].
  pose proof (Shape_triangular_range h init n HS) as Hr.
  cbn [find_loop] in Hf.
  destruct (slot h (triangular (capacity h) init n)) as [[p|]|] eqn:Ho;
    cbn in Hf; [| |done].
  - destruct (key_eq (Key p) key) as [[|]|] eqn:Hk; cbn in Hf; [| |done].
    + injection Hf as <-. exists n. cbn. rewrite Ho, Hk. done.
    + rewrite (wrap_int_small (n + 1)) in Hf by lia.
      destruct (Z.geb_spec (n + 1) (capacity h)) as [Hge|Hlt].
      * injection Hf as <-. exists n. cbn. rewrite Ho, Hk.
        split_and!; try done; lia.
      * rewrite (wrap_int_small (capacity h - 1)) in Hf by lia.
        rewrite wrap_int_small in Hf by lia.
        rewrite Shape_triangular_step in Hf by done.
        apply (IH (n + 1) r); [lia| |done].
        intros j Hj. destruct (decide (j = n)) as [->|Hjn].
        -- exists p. done.
        -- apply Hchain. lia.
  - injection Hf as <-. exists n. cbn. rewrite Ho. done.
Qed.

(** The loop returns every result of the search: it reaches the [m]-th
    probe through the slots with other keys. *)
Lemma find_loop_complete h key init fuel :
  Shape h →
  ∀ n m r, 0 ≤ n ≤ m → m < capacity h → capacity h - n ≤ Z.of_nat fuel →
    r.1 = triangular (capacity h) init m →
    (∀ j, n ≤ j < m → other_key h key (triangular (capacity h) init j)) →
    match slot h (triangular (capacity h) init m) with
    | Some None => r.2 = false
    | Some (Some p) =>
      match key_eq (Key p) key with
      | Some true => r.2 = true
      | Some false => r.2 = false ∧ m = capacity h - 1
      | None => False
      end
    | None => False
    end →
    find_loop h key fuel (triangular (capacity h) init n) n = Some r.
Proof.
  intros HS. pose proof (Shape_bounds h HS) as (Hc & Hlen).
  induction fuel as [|fuel IH]; intros n m [i b] Hn Hm Hfuel Hi Hchain Hlast;
    [lia|].
  pose proof (Shape_triangular_range h init n HS) as Hr.
  cbn in Hi. subst i. cbn [find_loop snd] in *.
  destruct (decide (n = m)) as [->|Hne].
  - destruct (slot h (triangular (capacity h) init m)) as [[p|]|];
      cbn; [| |done].
    + destruct (key_eq (Key p) key) as [[|]|]; cbn; [| |done].
      * by subst b.
      * destruct Hlast as [-> ->].
        rewrite (wrap_int_small (capacity h - 1 + 1)) by lia.
        destruct (Z.geb_spec (capacity h - 1 + 1) (capacity h)); [done|lia].
    + by subst b.
  - destruct (Hchain n) as (p & Hp & Hk); [lia|]. rewrite Hp. cbn.
    rewrite Hk. cbn.
    rewrite (wrap_int_small (n + 1)) by lia.
    destruct (Z.geb_spec (n + 1) (capacity h)); [lia|].
    rewrite (wrap_int_small (capacity h - 1)) by lia.
    rewrite wrap_int_small by lia.
    rewrite Shape_triangular_step by done.
    apply (IH (n + 1) m (triangular (capacity h) init m, b));
      [lia|lia|lia|done| |done].
    intros j Hj. apply Hchain. lia.
Qed.

(** The loop returns when no comparison panics. *)
Lemma find_loop_total h key init fuel :
  Shape h → comparable_with h key →
  ∀ n, 0 ≤ n < capacity h → capacity h - n ≤ Z.of_nat fuel →
       is_Some (find_loop h key fuel (triangular (capacity h) init n) n).
Proof.
  intros HS Hcmp. pose proof (Shape_bounds h HS) as (Hc & Hlen).
  induction fuel as [|fuel IH]; intros n Hn Hfuel; [lia|].
  pose proof (Shape_triangular_range h init n HS) as Hr.
  destruct (Shape_slot h _ HS Hr) as [o Ho].
  cbn [find_loop]. rewrite Ho. cbn.
  destruct o as [p|]; [|eauto].
  destruct (Hcmp _ _ Ho) as [equal Heq]. rewrite Heq. cbn.
  destruct equal; [eauto|].
  rewrite (wrap_int_small (n + 1)) by lia.
  destruct (Z.geb_spec (n + 1) (capacity h)); [eauto|].
  rewrite (wrap_int_small (capacity h - 1)) by lia.
  rewrite wrap_int_small by lia.
  rewrite Shape_triangular_step by done.
  apply IH; lia.
Qed.

(** [find] returns exactly the results of the search along the
    triangular sequence from [index(hash(key))]. *)
Lemma Shape_find_iff h key r :
  Shape h →
  find CaseFoldingHash h key = Some r ↔
  search_result
    (triangular (capacity h) (index h (hash CaseFoldingHash key))) h key r.
Proof.
  intros HS. pose proof (Shape_bounds h HS) as (Hc & _).
  pose proof (Shape_index_range h (hash CaseFoldingHash key) HS) as Hi.
  unfold find.
  rewrite <- (Shape_triangular_0 h (index h (hash CaseFoldingHash key)) HS Hi)
    at 1.
  split.
  - intros Hf. eapply find_loop_sound; [done| | |exact Hf]; [lia|].
    intros j Hj. lia.
  - intros (m & Hm & Hr & Hchain & Hlast).
    apply (find_loop_complete h key _ _ HS 0 m r); try done; try lia.
Qed.

Lemma Shape_find_total h key :
  Shape h → comparable_with h key → is_Some (find CaseFoldingHash h key).
Proof.
  intros HS Hcmp. pose proof (Shape_bounds h HS) as (Hc & _).
  pose proof (Shape_index_range h (hash CaseFoldingHash key) HS) as Hi.
  unfold find.
  rewrite <- (Shape_triangular_0 h (index h (hash CaseFoldingHash key)) HS Hi)
    at 1.
  apply find_loop_total; [done|done|lia|lia].
Qed.

(** A search has one result. *)
Lemma search_result_unique probe h key r1 r2 :
  search_result probe h key r1 → search_result probe h key r2 → r1 = r2.
Proof.
  intros (n1 & Hn1 & Hi1 & Hc1 & Hs1) (n2 & Hn2 & Hi2 & Hc2 & Hs2).
  assert (n1 = n2) as ->.
  { destruct (Z.lt_trichotomy n1 n2) as [Hlt|[->|Hlt]]; [|done|].
    - destruct (Hc2 n1) as (p & Hp & Hne); [lia|].
      rewrite Hp, Hne in Hs1. lia.
    - destruct (Hc1 n2) as (p & Hp & Hne); [lia|].
      rewrite Hp, Hne in Hs2. lia. }
  destruct r1 as [i1 b1], r2 as [i2 b2]. cbn in *. subst.
  f_equal. destruct (slot h (probe n2)) as [[p|]|]; [|congruence|done].
  destruct (key_eq (Key p) key) as [[|]|]; [congruence| |done].
  destruct Hs1, Hs2. congruence.
Qed.

Lemma find_iff h key r :
  Inv h →
  find CaseFoldingHash h key = Some r ↔
  search_result
    (triangular (capacity h) (index h (hash CaseFoldingHash key))) h key r.
Proof. intros HI. by apply Shape_find_iff, Inv_Shape. Qed.

(** On a key type whose [==] never panics the search has a result. *)
Lemma find_search `{!TotalKey K} h key :
  Inv h →
  ∃ r, find CaseFoldingHash h key = Some r ∧
       search_result
         (triangular (capacity h) (index h (hash CaseFoldingHash key))) h key r.
Proof.
  intros HI.
  destruct (Shape_find_total h key (Inv_Shape h HI)) as [r Hr].
  { intros idx p _. apply key_eq_total. }
  exists r. split; [done|]. by apply find_iff.
Qed.

End Find.

(** ** Triangular probing visits every slot *)

Section Coverage.

Lemma pow2_divide_odd m x y :
  0 ≤ m → Z.Odd x → (2 ^ m | x * y) → (2 ^ m | y).
Proof.
  intros Hm Hx. revert y. pattern m. apply natlike_ind; [| |done].
  - intros y _. rewrite Z.pow_0_r. apply Z.divide_1_l.
  - clear m Hm. intros m Hm IH y Hd. rewrite Z.pow_succ_r in * by done.
    destruct (Z.Even_or_Odd y) as [[y' ->]|Hy].
    + apply Z.mul_divide_mono_l. apply IH.
      destruct Hd as [q Hq]. exists q. lia.
    + exfalso. destruct Hx as [x' ->], Hy as [y' ->], Hd as [q Hq]. lia.
Qed.

Lemma triangular_inj k init a b :
  0 ≤ k → 0 ≤ a < b → b < 2 ^ k →
  (init + a * (a + 1) / 2) mod 2 ^ k ≠ (init + b * (b + 1) / 2) mod 2 ^ k.
Proof.
  intros Hk Ha Hb Heq.
  assert (0 < 2 ^ k) as Hpos by (apply Z.pow_pos_nonneg; lia).
  assert ((2 ^ k | b * (b + 1) / 2 - a * (a + 1) / 2)) as [q Hq].
  { apply Z.mod_divide; [lia|].
    replace (b * (b + 1) / 2 - a * (a + 1) / 2)
      with ((init + b * (b + 1) / 2) - (init + a * (a + 1) / 2)) by lia.
    rewrite Zminus_mod, Heq, Z.sub_diag. apply Z.mod_0_l. lia. }
  pose proof (triangular_double a) as Hda.
  pose proof (triangular_double b) as Hdb.
  assert ((2 ^ (k + 1) | (b - a) * (a + b + 1))) as Hd.
  { exists q. rewrite Z.pow_add_r, Z.pow_1_r by lia. lia. }
  assert (2 ^ (k + 1) = 2 * 2 ^ k) as Hp
    by (rewrite Z.pow_add_r, Z.pow_1_r by lia; lia).
  destruct (Z.Even_or_Odd (b - a)) as [[c Hc]|Hodd].
  - assert (Z.Odd (a + b + 1)) as Hodd by (exists (a + c); lia).
    rewrite Z.mul_comm in Hd.
    apply pow2_divide_odd in Hd; [|lia|done].
    apply Z.divide_pos_le in Hd; lia.
  - apply pow2_divide_odd in Hd; [|lia|done].
    apply Z.divide_pos_le in Hd; lia.
Qed.

Context {K V : Type}.
Implicit Types (h : HashMap K V).

Lemma triangular_surj h init e :
  Inv h → 0 ≤ e < capacity h →
  ∃ n, 0 ≤ n < capacity h ∧ triangular (capacity h) init n = e.
Proof.
  intros HI He.
  set (visited := triangular (capacity h) init <$> seqZ 0 (capacity h)).
  assert (NoDup visited) as Hnd.
  { apply NoDup_fmap_2_strong; [|apply NoDup_seqZ].
    intros a b Ha%elem_of_seqZ Hb%elem_of_seqZ Heq.
    unfold triangular in Heq. rewrite !mask_mod in Heq by done.
    destruct HI as (k & Hk & Hcap & _). rewrite Hcap in *.
    destruct (Z.lt_trichotomy a b) as [Hlt|[->|Hlt]]; [|done|].
    - exfalso. apply (triangular_inj k init a b); [lia..|done].
    - exfalso. apply (triangular_inj k init b a); [lia..|done]. }
  assert (visited ≡ₚ seqZ 0 (capacity h)) as Hperm.
  { apply submseteq_length_Permutation.
    - apply NoDup_submseteq; [done|].
      intros x (n & -> & Hn)%list_elem_of_fmap.
      apply elem_of_seqZ. pose proof (triangular_range h init n HI). lia.
    - unfold visited. now rewrite length_fmap. }
  assert (e ∈ visited) as (n & -> & Hn%elem_of_seqZ)%list_elem_of_fmap.
  { rewrite Hperm. apply elem_of_seqZ. lia. }
  exists n. split; [lia|done].
Qed.

Lemma occupied_le_length (l : list (option (Pair K V))) :
  (occupied l ≤ length l)%nat.
Proof. induction l as [|[p|] l IH]; cbn; lia. Qed.

Lemma occupied_lt_empty (l : list (option (Pair K V))) :
  (occupied l < length l)%nat → ∃ i, l !! i = Some None.
Proof.
  induction l as [|[p|] l IH]; cbn; intros Hlt.
  - lia.
  - destruct IH as [i Hi]; [lia|]. exists (S i). done.
  - exists O. done.
Qed.

Lemma occupied_replicate n :
  occupied (replicate n (@None (Pair K V))) = O.
Proof. induction n as [|n IH]; cbn; done. Qed.

(** Writing a slot changes the count by what the slot gains or loses. *)
Lemma occupied_insert (l : list (option (Pair K V))) (i : nat)
    (o o' : option (Pair K V)) :
  l !! i = Some o →
  (occupied (<[i:=o']> l) + match o with Some _ => 1 | None => 0 end =
   occupied l + match o' with Some _ => 1 | None => 0 end)%nat.
Proof.
  revert i. induction l as [|x l IH]; intros [|i] Hl; try done.
  - injection Hl as ->. destruct o, o'; simpl; lia.
  - specialize (IH i Hl). destruct x, o, o'; simpl in *; lia.
Qed.

Lemma pairs_length (l : list (option (Pair K V))) :
  length (pairs l) = occupied l.
Proof. induction l as [|[p|] l IH]; cbn; [done|by f_equal|done]. Qed.

End Coverage.

(** ** The representation invariant is preserved *)

Section Invariant.

Context (CaseFoldingHash : string → Z).
Context {K V : Type} `{!GoKey K} `{!GoZero V}.
Implicit Types (h : HashMap K V) (key : K) (value : V).

(** A search that reports found ends on a slot whose key compares equal
    to the key. *)
Lemma find_true_slot h key idx :
  Inv h → find CaseFoldingHash h key = Some (idx, true) →
  ∃ p, slot h idx = Some (Some p) ∧ key_eq (Key p) key = Some true.
Proof.
  intros HI (n & Hn & Hi & Hc & Hs)%find_iff; [|done]. cbn in *. subst idx.
  destruct (slot h _) as [[p|]|]; [|done..].
  destruct (key_eq (Key p) key) as [[|]|] eqn:Hk; [eauto| |done].
  destruct Hs. done.
Qed.

(** Less than half of the slots are occupied and the probes reach all of
    them, so an unsuccessful search ends on an empty slot. *)
Lemma find_false_empty h key idx :
  Inv h → find CaseFoldingHash h key = Some (idx, false) →
  slot h idx = Some None.
Proof.
  intros HI (n & Hn & Hi & Hc & Hs)%find_iff; [|done]. cbn in *. subst idx.
  destruct (slot h (triangular _ _ n)) as [[p|]|] eqn:Hp; [|done..].
  exfalso. destruct (key_eq (Key p) key) as [[|]|]; [done| |done].
  destruct Hs as [_ Hlast]. subst n.
  pose proof (Inv_bounds h HI) as (Hcap & Hlen & Hsz & Hload).
  destruct (occupied_lt_empty (table h)) as [i Hi].
  { destruct HI as (k & _ & _ & _ & Hocc & _). lia. }
  pose proof (lookup_lt_Some _ _ _ Hi) as Hlt.
  destruct (triangular_surj h (index h (hash CaseFoldingHash key)) (Z.of_nat i) HI)
    as (m & Hm & Htri); [lia|].
  assert (slot h (Z.of_nat i) = Some None) as Hempty.
  { unfold slot. destruct (Z.ltb_spec (Z.of_nat i) 0); [lia|].
    now rewrite Nat2Z.id. }
  rewrite <- Htri in Hempty.
  destruct (decide (m = capacity h - 1)) as [->|Hmn].
  - congruence.
  - destruct (Hc m) as (q & Hq & _); [lia|]. congruence.
Qed.

Lemma Inv_New : Inv (@New K V).
Proof. exists 3. cbn. repeat split; lia. Qed.

Lemma Inv_Clear h : Inv (Clear h).
Proof. apply Inv_New. Qed.

(** A write to a slot in range, with the size adjusted to the change of
    the slot, keeps the invariant as long as the load stays below half. *)
Lemma Inv_store h idx o o' sz :
  Inv h → slot h idx = Some o →
  sz = size h + (match o' with Some _ => 1 | None => 0 end)
              - (match o with Some _ => 1 | None => 0 end) →
  sz * 2 < capacity h →
  Inv {| table := store h idx o'; size := sz; capacity := capacity h |}.
Proof.
  intros (k & Hk & Hcap & Hlen & Hsize & Hload) Hs -> Hsz.
  exists k. cbn. unfold store. rewrite length_insert.
  repeat split; try done; try lia.
  unfold slot in Hs. destruct (Z.ltb_spec idx 0); [done|].
  pose proof (occupied_insert _ _ _ o' Hs). destruct o, o'; lia.
Qed.

(** The body of [Set] after the load check keeps the invariant. *)
Lemma assign_Inv h key value h' :
  Inv h → (size h + 1) * 2 < capacity h →
  assign CaseFoldingHash h key value = Some h' →
  Inv h' ∧ capacity h' = capacity h ∧ size h ≤ size h' ≤ size h + 1.
Proof.
  intros HI Hload Ha. pose proof (Inv_bounds h HI) as (Hcap & Hlen & Hsz & _).
  unfold assign in Ha.
  destruct (find CaseFoldingHash h key) as [[idx [|]]|] eqn:Hf; cbn in Ha;
    [| |done].
  - destruct (find_true_slot h key idx HI Hf) as (p & Hp & Hk).
    rewrite Hp in Ha. cbn in Ha. injection Ha as <-. cbn. split; [|lia].
    eapply Inv_store; [done|done|cbn; lia|cbn; lia].
  - pose proof (find_false_empty h key idx HI Hf) as Hp.
    rewrite Hp in Ha. cbn in Ha. rewrite wrap_int_small in Ha by lia.
    injection Ha as <-. cbn. split; [|lia].
    eapply Inv_store; [done|done|cbn; lia|cbn; lia].
Qed.

(** It returns when the search does. *)
Lemma assign_Some h key value :
  Inv h → is_Some (find CaseFoldingHash h key) →
  is_Some (assign CaseFoldingHash h key value).
Proof.
  intros HI [[idx found] Hf]. unfold assign. rewrite Hf. cbn.
  destruct found.
  - destruct (find_true_slot h key idx HI Hf) as (p & -> & _). cbn. eauto.
  - rewrite (find_false_empty h key idx HI Hf). cbn. eauto.
Qed.

Lemma Inv_assign `{!TotalKey K} h key value :
  Inv h → (size h + 1) * 2 < capacity h →
  ∃ h', assign CaseFoldingHash h key value = Some h' ∧ Inv h' ∧
        capacity h' = capacity h ∧ size h ≤ size h' ≤ size h + 1.
Proof.
  intros HI Hload.
  destruct (find_search CaseFoldingHash h key HI) as (r & Hf & _).
  destruct (assign_Some h key value HI) as [h' Ha]; [eauto|].
  exists h'. split; [done|]. by apply (assign_Inv h key value).
Qed.

Lemma foldl_reinsert_None set (l : list (option (Pair K V))) :
  foldl (reinsert set) None l = None.
Proof. induction l as [|p l IH]; [done|]. cbn. apply IH. Qed.

(** The loop of [rehash], for a [set] that keeps the invariant. *)
Lemma Inv_rehash_loop set (l : list (option (Pair K V))) :
  (∀ h key value h', Inv h → set h key value = Some h' →
     Inv h' ∧ size h' ≤ size h + 1 ∧ capacity h ≤ capacity h') →
  ∀ h0 h1, Inv h0 → foldl (reinsert set) (Some h0) l = Some h1 →
           Inv h1 ∧ size h1 ≤ size h0 + Z.of_nat (occupied l) ∧
           capacity h0 ≤ capacity h1.
Proof.
  intros Hset. induction l as [|[p|] l IH]; intros h0 h1 HI Hfold; cbn in *.
  - injection Hfold as <-. split; [done|lia].
  - destruct (set h0 (Key p) (Value p)) as [h'|] eqn:Hs.
    + destruct (Hset _ _ _ _ HI Hs) as (HI' & Hsz & Hcap).
      destruct (IH _ _ HI' Hfold) as (HI1 & Hsz1 & Hcap1).
      split; [done|lia].
    + now rewrite foldl_reinsert_None in Hfold.
  - apply IH; done.
Qed.

Lemma Inv_make h :
  Inv h → capacity h < 2 ^ 62 →
  Inv {| table := replicate (Z.to_nat (capacity h * 2)) (@None (Pair K V));
         size := 0; capacity := capacity h * 2 |}.
Proof.
  intros HI Hlt. pose proof (Inv_bounds h HI) as (Hcap & _).
  destruct HI as (k & Hk & Hc & _).
  exists (k + 1). cbn. rewrite length_replicate, occupied_replicate.
  assert (k ≠ 62) by (intros ->; lia).
  rewrite Z.pow_add_r, Z.pow_1_r by lia. repeat split; lia.
Qed.

(** [Set] keeps the invariant, whatever the fuel, whenever it returns. *)
Lemma Inv_Set fuel :
  ∀ h key value h',
    Inv h → Set_ CaseFoldingHash fuel h key value = Some h' →
    Inv h' ∧ size h' ≤ size h + 1 ∧ capacity h ≤ capacity h'.
Proof.
  induction fuel as [|fuel IH]; intros h key value h' HI HS; [done|].
  pose proof (Inv_bounds h HI) as (Hcap & Hlen & Hsz & Hload).
  cbn [Set_] in HS. unfold maximumLoad in HS.
  rewrite wrap_int_small in HS by lia.
  destruct (Z.geb_spec ((size h + 1) * 2) (capacity h)) as [Hge|Hlt].
  - destruct (rehash_with _ h) as [h1|] eqn:Hr; [|done]. cbn in HS.
    unfold rehash_with in Hr.
    destruct (decide (capacity h = 2 ^ 62)) as [Heq|Hne].
    { rewrite Heq in Hr. done. }
    rewrite wrap_int_small in Hr by lia.
    unfold make in Hr. destruct (Z.ltb_spec (capacity h * 2) 0); [lia|].
    cbn in Hr.
    destruct (Inv_rehash_loop _ _ IH _ _ (Inv_make h HI ltac:(lia)) Hr)
      as (HI1 & Hsz1 & Hcap1). cbn in Hsz1, Hcap1.
    destruct (assign_Inv h1 key value h' HI1) as (HI2 & Hc2 & Hs2); [|done|].
    { destruct HI as (k & _ & _ & _ & Hocc & _). lia. }
    split; [done|]. destruct HI as (k & _ & _ & _ & Hocc & _). lia.
  - cbn in HS.
    destruct (assign_Inv h key value h' HI) as (HI2 & Hc2 & Hs2); [lia|done|].
    split; [done|lia].
Qed.

Lemma Inv_Delete h key h' found :
  Inv h → Delete CaseFoldingHash h key = Some (h', found) → Inv h'.
Proof.
  intros HI HD. pose proof (Inv_bounds h HI) as (Hcap & Hlen & Hsz & Hload).
  unfold Delete in HD.
  destruct (find CaseFoldingHash h key) as [[idx [|]]|] eqn:Hf; cbn in HD;
    [|congruence|done].
  destruct (find_true_slot h key idx HI Hf) as (p & Hp & Hk).
  rewrite Hp in HD. cbn in HD. injection HD as <- <-.
  assert (1 ≤ size h).
  { destruct HI as (k & _ & _ & _ & Hocc & _).
    unfold slot in Hp. destruct (Z.ltb_spec idx 0); [done|].
    pose proof (occupied_insert _ _ _ None Hp) as Hins. simpl in Hins. lia. }
  rewrite wrap_int_small by lia.
  eapply Inv_store; [done|done|cbn; lia|cbn; lia].
Qed.

Lemma Inv_reachable h : reachable CaseFoldingHash h → Inv h.
Proof.
  induction 1 as [|h fuel key value h' _ IH HS|h key h' found _ IH HD|h _ IH].
  - apply Inv_New.
  - eapply Inv_Set; done.
  - eapply Inv_Delete; done.
  - apply Inv_Clear.
Qed.

End Invariant.

(** ** The public methods *)

Section Methods.

Context (CaseFoldingHash : string → Z).
Context {K V : Type} `{!GoKey K} `{!GoZero V}.
Implicit Types (h : HashMap K V) (key : K) (value : V).

Lemma slot_store h idx x sz j :
  Inv h → 0 ≤ idx < capacity h →
  slot {| table := store h idx x; size := sz; capacity := capacity h |} j =
  if decide (j = idx) then Some x else slot h j.
Proof.
  intros HI Hidx. pose proof (Inv_bounds h HI) as (_ & Hlen & _).
  unfold slot, store. cbn.
  destruct (Z.ltb_spec j 0) as [Hj|Hj].
  - rewrite decide_False by lia. done.
  - rewrite list_lookup_insert.
    destruct (decide (j = idx)) as [->|Hne].
    + rewrite decide_True by lia. done.
    + rewrite decide_False by lia. done.
Qed.

Lemma Iter_loop_collect (l : list (option (Pair K V))) acc :
  Iter_loop l collect acc = acc ++ pairs l.
Proof.
  revert acc. induction l as [|[p|] l IH]; intros acc; cbn.
  - now rewrite app_nil_r.
  - rewrite IH. now rewrite <- app_assoc.
  - apply IH.
Qed.

Lemma Iter_all_pairs h : Iter_all h = pairs (table h).
Proof. unfold Iter_all, Iter. now rewrite Iter_loop_collect. Qed.

Lemma find_New key :
  ∃ idx, find CaseFoldingHash (@New K V) key = Some (idx, false).
Proof.
  pose proof (@Inv_New K V) as HI.
  pose proof (index_range New (hash CaseFoldingHash key) HI) as Hr.
  exists (index (@New K V) (hash CaseFoldingHash key)).
  apply find_iff; [done|]. exists 0. cbn [fst snd].
  rewrite triangular_0 by done.
  split; [change (capacity (@New K V)) with 8; lia|]. split; [done|].
  split; [intros j Hj; lia|].
  destruct (slot_in_range New _ HI Hr) as [[p|] Ho]; rewrite Ho; [|done].
  unfold slot in Ho. destruct (_ <? 0); [done|].
  apply lookup_replicate in Ho as [? _]. done.
Qed.

(** C3: in every table reachable from [New()], after every operation,
    the capacity is a power of two that is at least 8, and twice the
    size is below the capacity. *)
Theorem reachable_capacity_load h :
  reachable CaseFoldingHash h →
  (∃ k, 3 ≤ k ∧ Capacity h = 2 ^ k) ∧ 8 ≤ Capacity h ∧
  Size h * 2 < Capacity h.
Proof.
  intros HI%Inv_reachable. pose proof (Inv_bounds h HI) as (Hcap & _ & _ & Hload).
  destruct HI as (k & Hk & Hc & _). unfold Capacity, Size.
  split; [|lia]. exists k. split; [lia|done].
Qed.

(** C10: in every reachable table [size] is the number of occupied
    slots, and a full iteration yields one pair per occupied slot, in
    slot order: [Size()] pairs. *)
Theorem reachable_size_occupied h :
  reachable CaseFoldingHash h →
  Size h = Z.of_nat (occupied (table h)) ∧
  Iter_all h = pairs (table h) ∧
  Z.of_nat (length (Iter_all h)) = Size h.
Proof.
  intros (k & _ & _ & _ & Hocc & _)%Inv_reachable. unfold Size.
  rewrite Iter_all_pairs, pairs_length. done.
Qed.

(** C9: [Clear] leaves the state of [New()] whatever the table was:
    size 0, capacity 8, no key found; clearing twice is clearing once. *)
Theorem Clear_spec h :
  Clear h = New ∧
  Size (Clear h) = 0 ∧ Capacity (Clear h) = 8 ∧
  Clear (Clear h) = Clear h ∧
  (∀ h', Clear h' = Clear h) ∧
  Iter_all (Clear h) = [] ∧
  ∀ key, Get CaseFoldingHash (Clear h) key = Some (zero, false) ∧
         Contains CaseFoldingHash (Clear h) key = Some false.
Proof.
  split_and!; try done.
  intros key. change (Clear h) with (@New K V).
  destruct (find_New key) as [idx Hf].
  unfold Get, Contains. rewrite Hf. done.
Qed.

(** C8, as the code has it: [hash] selects by the dynamic type of the
    key.  A string key gets the case-folding hash of the string; a key
    that is not a string gets the hash 0, and its search starts at slot 0
    in every table. *)
Theorem hash_default key :
  (∀ s, as_string key = Some s →
        hash CaseFoldingHash key = CaseFoldingHash s) ∧
  (as_string key = None →
   hash CaseFoldingHash key = 0 ∧ ∀ h, index h (hash CaseFoldingHash key) = 0).
Proof.
  unfold hash. split.
  - intros s ->. done.
  - intros ->. split; [done|]. intros h. unfold index. apply Z.land_0_l.
Qed.

(** C2, as the code has it, on every bucket array whose length is the
    capacity, a power of two, whatever its load: the search starts at
    [hash & (capacity - 1)] and its [n]-th probe is at the [n]-th
    triangular number from there; what [find] returns is the result of
    the search, which stops at the first probe that is empty or holds the
    key; it returns when no comparison panics; and after [capacity]
    probes that all hold other keys it reports the last of them, not
    found. *)
Theorem find_probe_sequence h key :
  (∀ s, 0 ≤ CaseFoldingHash s < 2 ^ 32) →
  Shape h →
  let init := Z.land (hash CaseFoldingHash key) (capacity h - 1) in
  let probe := triangular (capacity h) init in
  index h (hash CaseFoldingHash key) = init ∧
  (∀ r, find CaseFoldingHash h key = Some r ↔ search_result probe h key r) ∧
  (comparable_with h key → probe_sequence CaseFoldingHash triangular h key) ∧
  ((∀ j, 0 ≤ j < capacity h → other_key h key (probe j)) →
   find CaseFoldingHash h key = Some (probe (capacity h - 1), false)).
Proof.
  intros Hrange HS init probe.
  pose proof (Shape_bounds h HS) as (Hc & _).
  assert (0 ≤ hash CaseFoldingHash key < 2 ^ 32) as Hh.
  { unfold hash. destruct (as_string key); [apply Hrange|lia]. }
  assert (index h (hash CaseFoldingHash key) = init) as Hinit
    by (by apply Shape_index).
  assert (∀ r, find CaseFoldingHash h key = Some r ↔ search_result probe h key r)
    as Hiff.
  { intros r. unfold probe. rewrite <- Hinit. by apply Shape_find_iff. }
  split_and!; [done|done| |].
  - intros Hcmp. split; [done|].
    destruct (Shape_find_total CaseFoldingHash h key HS Hcmp) as [r Hr].
    exists r. split; [done|]. by apply Hiff.
  - intros Hall. apply Hiff. exists (capacity h - 1). cbn [fst snd].
    split; [lia|]. split; [done|]. split; [intros j Hj; apply Hall; lia|].
    destruct (Hall (capacity h - 1)) as (p & -> & ->); [lia|]. done.
Qed.

End Methods.

(** ** Tables with [int] keys: every key hashes to 0 *)

Section IntKeys.

Import Examples.

Lemma Set_1 : Set_ no_strings 2 New 1 10 = Some table_1.
Proof. reflexivity. Qed.

Lemma Set_2 : Set_ no_strings 2 table_1 2 20 = Some table_12.
Proof. reflexivity. Qed.

Lemma Set_3 : Set_ no_strings 2 table_12 3 30 = Some table_123.
Proof. reflexivity. Qed.

Lemma Delete_1 : Delete no_strings table_12 1 = Some (table_2, true).
Proof. reflexivity. Qed.

(** [New(); Set(1, 10); Set(2, 20); Set(3, 30)] *)
Ltac reach_123 :=
  apply (reachable_Set _ table_12 2 3 30); [|reflexivity];
  apply (reachable_Set _ table_1 2 2 20); [|reflexivity];
  apply (reachable_Set _ New 2 1 10); [|reflexivity];
  apply reachable_New.

Lemma reachable_capacity_load_witness :
  reachable no_strings table_123 ∧
  (∃ k, 3 ≤ k ∧ Capacity table_123 = 2 ^ k) ∧ 8 ≤ Capacity table_123 ∧
  Size table_123 * 2 < Capacity table_123.
Proof.
  split; [reach_123|].
  apply (reachable_capacity_load no_strings table_123). reach_123.
Defined.

Lemma reachable_size_occupied_witness :
  reachable no_strings table_123 ∧
  Size table_123 = Z.of_nat (occupied (table table_123)) ∧
  Iter_all table_123 = pairs (table table_123) ∧
  Z.of_nat (length (Iter_all table_123)) = Size table_123.
Proof.
  split; [reach_123|].
  apply (reachable_size_occupied no_strings table_123). reach_123.
Defined.

Lemma hash_default_witness :
  as_string (5 : Z) = None ∧
  (hash no_strings (5 : Z) = 0 ∧
   ∀ h : HashMap Z Z, index h (hash no_strings (5 : Z)) = 0) ∧
  as_string "Key" = Some "Key" ∧
  hash (λ s, Z.of_nat (String.length s)) "Key" = 3.
Proof.
  split; [reflexivity|]. split.
  - apply (hash_default no_strings (5 : Z)). reflexivity.
  - split; [reflexivity|].
    apply (proj1 (hash_default (λ s, Z.of_nat (String.length s)) "Key" (V := Z))
             "Key").
    reflexivity.
Defined.

(** C8, as the claim states it, fails for the key type [int]: no two
    keys get different hashes. *)
Lemma hash_int_constant : ¬ hash_distinguishes no_strings (K := Z).
Proof. intros (k1 & k2 & Hne). apply Hne. reflexivity. Qed.

(** The shape of a concrete table with 8 slots. *)
Ltac shape_8 := exists 3; cbn; repeat split; lia.

(** In the full table the eight probes for the key 9, at the slots 0, 1,
    3, 6, 2, 7, 5 and 4, all hold other keys: the search ends on the
    last of them.  In the table with the keys 1, 2 and 3 the third probe
    finds the key 3. *)
Lemma find_probe_sequence_witness :
  (∀ s, 0 ≤ no_strings s < 2 ^ 32) ∧ Shape table_full ∧ Shape table_123 ∧
  (∀ j, 0 ≤ j < 8 → other_key table_full 9 (triangular 8 0 j)) ∧
  find no_strings table_full 9 = Some (4, false) ∧
  search_result (triangular 8 0) table_full 9 (4, false) ∧
  comparable_with table_123 3 ∧
  probe_sequence no_strings triangular table_123 3.
Proof.
  assert (∀ s, 0 ≤ no_strings s < 2 ^ 32) as Hrange
    by (intros s; unfold no_strings; lia).
  assert (Shape table_full) as HS by shape_8.
  assert (Shape table_123) as HS' by shape_8.
  assert (∀ j, 0 ≤ j < 8 → other_key table_full 9 (triangular 8 0 j)) as Hall.
  { intros j Hj.
    assert (j = 0 ∨ j = 1 ∨ j = 2 ∨ j = 3 ∨ j = 4 ∨ j = 5 ∨ j = 6 ∨ j = 7)
      as Hcases by lia.
    destruct Hcases as [->|[->|[->|[->|[->|[->|[->| ->]]]]]]];
      eexists; split; reflexivity. }
  assert (comparable_with table_123 3) as Hcmp.
  { intros idx p _. apply key_eq_total. }
  destruct (find_probe_sequence no_strings table_full 9 Hrange HS)
    as (_ & Hiff & _ & Hlast).
  destruct (find_probe_sequence no_strings table_123 3 Hrange HS')
    as (_ & _ & Hseq & _).
  split_and!; [done|done|done|done| | |done|].
  - exact (Hlast Hall).
  - apply Hiff. exact (Hlast Hall).
  - exact (Hseq Hcmp).
Defined.

(** C2, as the claim states it, fails on the table with the keys 1, 2
    and 3: [find] locates 3 in slot 3, the third slot of the triangular
    sequence 0, 1, 3, while slot 2 on the way of the sequence 0, 1, 2, 3
    is empty. *)
Lemma find_not_linear : ¬ probe_sequence no_strings linear table_123 3.
Proof.
  intros (_ & r & Hf & n & Hn & Hi & Hc & _).
  vm_compute in Hf. injection Hf as <-.
  change (capacity table_123) with 8 in *.
  change (Z.land (hash no_strings 3) (8 - 1)) with 0 in *.
  cbn [fst] in Hi.
  assert (n = 3) as ->.
  { assert (n = 0 ∨ n = 1 ∨ n = 2 ∨ n = 3 ∨ n = 4 ∨ n = 5 ∨ n = 6 ∨ n = 7)
      as Hcases by lia.
    destruct Hcases as [->|[->|[->|[->|[->|[->|[->| ->]]]]]]];
      vm_compute in Hi; congruence. }
  destruct (Hc 2) as (p & Hp & _); [lia|].
  vm_compute in Hp. congruence.
Qed.

(** C1, where the code breaks it: after [Set(1, 10)] and [Set(2, 20)]
    the key 2 is found; [Delete(1)] empties slot 0, on which the search
    for 2 now stops, although the pair of 2 is still in its slot and is
    still counted and iterated. *)
Theorem Get_after_Delete_of_other_key :
  Set_ no_strings 2 New 1 10 = Some table_1 ∧
  Set_ no_strings 2 table_1 2 20 = Some table_12 ∧
  Get no_strings table_12 2 = Some (20, true) ∧
  Delete no_strings table_12 1 = Some (table_2, true) ∧
  Get no_strings table_2 2 = Some (0, false) ∧
  Contains no_strings table_2 2 = Some false ∧
  stored table_2 2 20 ∧
  Size table_2 = 1 ∧
  Iter_all table_2 = [(2, 20)].
Proof.
  split_and!; try reflexivity.
  exists 1. reflexivity.
Qed.

(** C6, where the code breaks it.  [Delete(1)] on the table with the keys
    1 and 2 finds the key, empties its slot and takes one off the size.
    In the table that this leaves, the key 2 is present: its pair is in
    slot 1, it is counted by [Size] and yielded by [Iter]; but the search
    for 2 stops on the emptied slot 0, so that [Delete(2)] returns
    [false] and leaves the pair where it is. *)
Theorem Delete_of_stored_key :
  reachable no_strings table_2 ∧
  Delete no_strings table_12 1 = Some (table_2, true) ∧
  slot table_12 0 = Some (entry 1 10) ∧ slot table_2 0 = Some None ∧
  Size table_2 = Size table_12 - 1 ∧
  stored table_2 2 20 ∧
  Size table_2 = 1 ∧
  Iter_all table_2 = [(2, 20)] ∧
  Delete no_strings table_2 2 = Some (table_2, false).
Proof.
  split_and!; try reflexivity.
  - apply (reachable_Delete _ table_12 1 table_2 true); [|reflexivity].
    apply (reachable_Set _ table_1 2 2 20); [|reflexivity].
    apply (reachable_Set _ New 2 1 10); [|reflexivity].
    apply reachable_New.
  - exists 1. reflexivity.
Qed.

End IntKeys.

(** ** Writes to a slot, and the load check of [Set] *)

Section Slots.

Context (CaseFoldingHash : string → Z).
Context {K V : Type} `{!GoKey K} `{!GoZero V}.
Implicit Types (h : HashMap K V) (key : K) (value : V).

(** What [assign] writes: [p'] over an empty slot, or over a pair with the
    key of [p']. *)
Lemma other_key_store h e o p' sz x j :
  Inv h → slot h e = Some o →
  (∀ p, o = Some p → Key p = Key p') →
  other_key h x j →
  other_key {| table := store h e (Some p'); size := sz; capacity := capacity h |}
            x j.
Proof.
  intros HI He Ho (q & Hq & Hne).
  pose proof (slot_Some_range h e _ HI He) as Hr.
  unfold other_key. rewrite slot_store by done.
  destruct (decide (j = e)) as [->|Hje].
  - exists p'. split; [done|].
    rewrite He in Hq. injection Hq as ->. by rewrite <- (Ho q).
  - exists q. done.
Qed.

Lemma search_found_store probe h e o p' sz x j :
  Inv h → slot h e = Some o →
  (∀ p, o = Some p → Key p = Key p') →
  search_result probe h x (j, true) →
  search_result probe
    {| table := store h e (Some p'); size := sz; capacity := capacity h |}
    x (j, true).
Proof.
  intros HI He Ho (n & Hn & Hi & Hc & Hlast).
  pose proof (slot_Some_range h e _ HI He) as Hr.
  exists n. split; [done|]. split; [done|]. split.
  - intros i Hin. eapply other_key_store; eauto.
  - rewrite slot_store by done. cbn in *.
    destruct (slot h (probe n)) as [[q|]|] eqn:Hq; [|done..].
    destruct (key_eq (Key q) x) as [[|]|] eqn:Hk; [|by destruct Hlast|done].
    destruct (decide (probe n = e)) as [Heq|Hneq].
    + rewrite Heq, He in Hq. injection Hq as ->.
      rewrite <- (Ho q) by done. by rewrite Hk.
    + by rewrite Hk.
Qed.

Lemma search_new_store probe h e p' sz :
  Inv h → slot h e = Some None →
  key_eq (Key p') (Key p') = Some true →
  search_result probe h (Key p') (e, false) →
  search_result probe
    {| table := store h e (Some p'); size := sz; capacity := capacity h |}
    (Key p') (e, true).
Proof.
  intros HI He Hrefl (n & Hn & Hi & Hc & Hlast).
  pose proof (slot_Some_range h e _ HI He) as Hr.
  exists n. split; [done|]. split; [done|]. split.
  - intros i Hin. eapply other_key_store; eauto. intros p Hp. done.
  - rewrite slot_store by done. cbn in *. rewrite <- Hi.
    rewrite decide_True by done. by rewrite Hrefl.
Qed.

Lemma occupied_app (l1 l2 : list (option (Pair K V))) :
  occupied (l1 ++ l2) = (occupied l1 + occupied l2)%nat.
Proof. induction l1 as [|[p|] l1 IH]; simpl; lia. Qed.

Lemma occupied_take_le (l : list (option (Pair K V))) i :
  (occupied (take i l) ≤ occupied l)%nat.
Proof.
  rewrite <- (take_drop i l) at 2. rewrite occupied_app. lia.
Qed.

Lemma slot_of_nat h (i : nat) : slot h (Z.of_nat i) = table h !! i.
Proof.
  unfold slot. destruct (Z.ltb_spec (Z.of_nat i) 0); [lia|].
  now rewrite Nat2Z.id.
Qed.

Lemma slot_to_nat h idx o :
  slot h idx = Some o → table h !! Z.to_nat idx = Some o ∧ 0 ≤ idx.
Proof. unfold slot. destruct (Z.ltb_spec idx 0); [done|]. done. Qed.

Lemma slot_fresh n sz c idx (p : Pair K V) :
  slot {| table := replicate n None; size := sz; capacity := c |} idx
  ≠ Some (Some p).
Proof.
  unfold slot. cbn. destruct (idx <? 0); [done|].
  intros Hl. apply lookup_replicate in Hl as [? _]. done.
Qed.

(** [Set] on a table that needs no rehash is [assign]. *)
Lemma Set_no_rehash fuel h key value :
  Inv h → (size h + 1) * 2 < capacity h →
  Set_ CaseFoldingHash (S fuel) h key value =
  assign CaseFoldingHash h key value.
Proof.
  intros HI Hload. pose proof (Inv_bounds h HI) as (Hc & _ & Hsz & _).
  cbn [Set_]. unfold maximumLoad. rewrite wrap_int_small by lia.
  destruct (Z.geb_spec ((size h + 1) * 2) (capacity h)); [lia|]. done.
Qed.

(** [Set] on a table that needs one is [rehash], then [assign]. *)
Lemma Set_rehash fuel h key value :
  Inv h → capacity h ≤ (size h + 1) * 2 →
  Set_ CaseFoldingHash (S fuel) h key value =
  rehash CaseFoldingHash fuel h ≫= λ h, assign CaseFoldingHash h key value.
Proof.
  intros HI Hload. pose proof (Inv_bounds h HI) as (Hc & _ & Hsz & Hhalf).
  cbn [Set_]. unfold maximumLoad. rewrite wrap_int_small by lia.
  destruct (Z.geb_spec ((size h + 1) * 2) (capacity h)); [|lia]. done.
Qed.

End Slots.

(** ** What a call of [Set] and of [Delete] does to the table *)

Section Steps.

Context (CaseFoldingHash : string → Z).
Context {K V : Type} `{!GoKey K} `{!GoZero V}.
Implicit Types (h : HashMap K V) (key : K) (value : V).

(** The loop of [rehash] into a table with room for the old pairs: no
    call of [Set] rehashes again, whatever fuel it is given. *)
Lemma rehash_loop_assign fuel (l : list (option (Pair K V))) :
  ∀ h0, Inv h0 → (size h0 + Z.of_nat (occupied l)) * 2 < capacity h0 →
        foldl (reinsert (Set_ CaseFoldingHash (S fuel))) (Some h0) l =
        foldl (reinsert (assign CaseFoldingHash)) (Some h0) l.
Proof.
  induction l as [|[p|] l IH]; intros h0 HI Hload; simpl in Hload; [done| |].
  - cbn [foldl reinsert mbind option_bind].
    rewrite Set_no_rehash by (done || lia).
    destruct (assign CaseFoldingHash h0 (Key p) (Value p)) as [h'|] eqn:Ha.
    + destruct (assign_Inv CaseFoldingHash h0 (Key p) (Value p) h' HI) as (HI' & Hcap & Hsz);
        [lia|done|].
      apply IH; [done|lia].
    + by rewrite !foldl_reinsert_None.
  - cbn [foldl reinsert mbind option_bind]. apply IH; done.
Qed.

Lemma rehash_loop_Inv (l : list (option (Pair K V))) :
  ∀ h0 h1, Inv h0 → (size h0 + Z.of_nat (occupied l)) * 2 < capacity h0 →
           foldl (reinsert (assign CaseFoldingHash)) (Some h0) l = Some h1 →
           Inv h1 ∧ capacity h1 = capacity h0 ∧
           size h1 ≤ size h0 + Z.of_nat (occupied l).
Proof.
  induction l as [|[p|] l IH]; intros h0 h1 HI Hload Hfold; simpl in Hload.
  - cbn in Hfold. injection Hfold as <-. split_and!; try done. simpl. lia.
  - cbn [foldl reinsert mbind option_bind] in Hfold.
    destruct (assign CaseFoldingHash h0 (Key p) (Value p)) as [h'|] eqn:Ha;
      [|by rewrite foldl_reinsert_None in Hfold].
    destruct (assign_Inv CaseFoldingHash h0 (Key p) (Value p) h' HI) as (HI' & Hcap & Hsz);
      [lia|done|].
    destruct (IH h' h1 HI') as (HI1 & Hc1 & Hs1); [lia|done|].
    split_and!; try done; try congruence. simpl. lia.
  - cbn [foldl reinsert mbind option_bind] in Hfold.
    destruct (IH h0 h1 HI Hload Hfold) as (HI1 & Hc1 & Hs1). done.
Qed.

Lemma foldl_reinsert_fail set (l : list (option (Pair K V))) acc :
  (∀ h key value, set h key value = None) → (0 < occupied l)%nat →
  foldl (reinsert set) acc l = None.
Proof.
  intros Hset. revert acc. induction l as [|[p|] l IH]; intros acc Hocc.
  - simpl in Hocc. lia.
  - cbn [foldl]. replace (reinsert set acc (Some p)) with (@None (HashMap K V)).
    + apply foldl_reinsert_None.
    + unfold reinsert. destruct acc; cbn; [by rewrite Hset|done].
  - cbn [foldl]. apply IH. simpl in Hocc. done.
Qed.

(** Fuel beyond the one [rehash] changes nothing: what [Set] returns with
    any fuel it returns with fuel 2. *)
Lemma Set_fuel_2 fuel h key value h' :
  Inv h → Set_ CaseFoldingHash fuel h key value = Some h' →
  Set_ CaseFoldingHash 2 h key value = Some h'.
Proof.
  intros HI HS. pose proof (Inv_bounds h HI) as (Hc & Hlen & Hsz & Hload).
  destruct fuel as [|fuel]; [done|].
  destruct (Z.lt_ge_cases ((size h + 1) * 2) (capacity h)) as [Hno|Hre].
  - rewrite Set_no_rehash in HS |- * by done. done.
  - rewrite Set_rehash in HS |- * by done.
    unfold rehash, rehash_with in HS |- *.
    destruct (decide (capacity h = 2 ^ 62)) as [Heq|Hne].
    { rewrite Heq in HS. done. }
    rewrite wrap_int_small in HS |- * by lia.
    unfold make in HS |- *. destruct (Z.ltb_spec (capacity h * 2) 0); [lia|].
    cbn [mbind option_bind] in HS |- *.
    assert (0 < occupied (table h))%nat as Hocc.
    { destruct HI as (k & _ & _ & _ & Ho & _). lia. }
    destruct fuel as [|fuel].
    { rewrite foldl_reinsert_fail in HS by done. done. }
    assert (Inv {| table := replicate (Z.to_nat (capacity h * 2))
                              (@None (Pair K V));
                   size := 0; capacity := capacity h * 2 |}) as HI0
      by (apply Inv_make; [done|lia]).
    rewrite (rehash_loop_assign fuel) in HS;
      [|done|destruct HI as (k & _ & _ & _ & Ho & _); cbn; lia].
    rewrite (rehash_loop_assign 0);
      [done|done|destruct HI as (k & _ & _ & _ & Ho & _); cbn; lia].
Qed.

(** A call of [Set] that returns is [assign] on a table with room: the
    table itself, or the table that [rehash] made of it. *)
Lemma Set_cases fuel h key value h' :
  Inv h → Set_ CaseFoldingHash fuel h key value = Some h' →
  ∃ h1, Inv h1 ∧ (size h1 + 1) * 2 < capacity h1 ∧
        assign CaseFoldingHash h1 key value = Some h' ∧
        size h1 ≤ size h ∧
        ((size h + 1) * 2 < capacity h ∧ h1 = h ∨
         capacity h ≤ (size h + 1) * 2 ∧
         rehash CaseFoldingHash 1 h = Some h1 ∧
         capacity h1 = capacity h * 2).
Proof.
  intros HI HS%Set_fuel_2; [|done].
  pose proof (Inv_bounds h HI) as (Hc & Hlen & Hsz & Hload).
  destruct (Z.lt_ge_cases ((size h + 1) * 2) (capacity h)) as [Hno|Hre].
  - rewrite Set_no_rehash in HS by done.
    exists h. split_and!; try done; try lia. by left.
  - rewrite Set_rehash in HS by done.
    destruct (rehash CaseFoldingHash 1 h) as [h1|] eqn:Hr; [|done].
    cbn [mbind option_bind] in HS.
    unfold rehash, rehash_with in Hr.
    destruct (decide (capacity h = 2 ^ 62)) as [Heq|Hne].
    { rewrite Heq in Hr. done. }
    rewrite wrap_int_small in Hr by lia.
    unfold make in Hr. destruct (Z.ltb_spec (capacity h * 2) 0); [lia|].
    cbn [mbind option_bind] in Hr.
    assert (Inv {| table := replicate (Z.to_nat (capacity h * 2))
                              (@None (Pair K V));
                   size := 0; capacity := capacity h * 2 |}) as HI0
      by (apply Inv_make; [done|lia]).
    rewrite (rehash_loop_assign 0) in Hr;
      [|done|destruct HI as (k & _ & _ & _ & Ho & _); cbn; lia].
    destruct (rehash_loop_Inv (table h) _ h1 HI0)
      as (HI1 & Hc1 & Hs1); [|done|].
    { destruct HI as (k & _ & _ & _ & Ho & _). cbn. lia. }
    cbn in Hc1, Hs1.
    assert (size h1 ≤ size h).
    { destruct HI as (k & _ & _ & _ & Ho & _). lia. }
    exists h1. split_and!; try done; try lia. right.
    split_and!; try done.
Qed.

(** What [assign] does on a table with room: it finds the slot [e] of a
    key that compares equal and puts the value there, or it finds the
    empty slot [e] that ends the search and puts the pair there. *)
Lemma assign_step h key value h' :
  Inv h → (size h + 1) * 2 < capacity h →
  assign CaseFoldingHash h key value = Some h' →
  ∃ e found,
    find CaseFoldingHash h key = Some (e, found) ∧
    0 ≤ e < capacity h ∧ Inv h' ∧
    if found : bool
    then ∃ p, slot h e = Some (Some p) ∧ key_eq (Key p) key = Some true ∧
              h' = {| table := store h e (Some {| Key := Key p; Value := value |});
                      size := size h;
                      capacity := capacity h |}
    else slot h e = Some None ∧
         h' = {| table := store h e (Some {| Key := key; Value := value |});
                 size := size h + 1;
                 capacity := capacity h |}.
Proof.
  intros HI Hload Ha. pose proof (Inv_bounds h HI) as (Hc & Hlen & Hsz & _).
  destruct (assign_Inv CaseFoldingHash h key value h' HI Hload Ha) as (HI' & _).
  unfold assign in Ha.
  destruct (find CaseFoldingHash h key) as [[e found]|] eqn:Hf; [|done].
  cbn in Ha. exists e, found. split; [done|]. destruct found.
  - destruct (find_true_slot CaseFoldingHash h key e HI Hf) as (p & Hp & Hk).
    rewrite Hp in Ha. cbn in Ha. injection Ha as <-.
    split; [by eapply slot_Some_range|]. split; [done|]. eauto.
  - pose proof (find_false_empty CaseFoldingHash h key e HI Hf) as Hp.
    rewrite Hp in Ha. cbn in Ha. rewrite wrap_int_small in Ha by lia.
    injection Ha as <-.
    split; [by eapply slot_Some_range|]. done.
Qed.

(** After [assign] of a key that is equal to itself the key is found in
    the slot that was written, with the value. *)
Lemma find_assign h key value h' :
  Inv h → (size h + 1) * 2 < capacity h →
  key_eq key key = Some true →
  assign CaseFoldingHash h key value = Some h' →
  ∃ e p, find CaseFoldingHash h' key = Some (e, true) ∧
         slot h' e = Some (Some p) ∧ Value p = value.
Proof.
  intros HI Hload Hrefl Ha.
  destruct (assign_step h key value h' HI Hload Ha)
    as (e & found & Hf & Hr & HI' & Hcase).
  apply find_iff in Hf; [|done].
  destruct found.
  - destruct Hcase as (p & Hp & Hk & ->).
    exists e, {| Key := Key p; Value := value |}. split_and!; [| |done].
    + apply find_iff; [done|]. cbn.
      change (index _ (hash CaseFoldingHash key))
        with (index h (hash CaseFoldingHash key)).
      eapply (search_found_store _ h e (Some p) {| Key := Key p; Value := value |});
        [done|done| |done].
      intros q [= <-]. done.
    + rewrite slot_store by done. by rewrite decide_True.
  - destruct Hcase as (Hp & ->).
    exists e, {| Key := key; Value := value |}. split_and!; [| |done].
    + apply find_iff; [done|]. cbn.
      change (index _ (hash CaseFoldingHash key))
        with (index h (hash CaseFoldingHash key)).
      apply (search_new_store _ h e {| Key := key; Value := value |}); done.
    + rewrite slot_store by done. by rewrite decide_True.
Qed.

(** What [Delete] does: nothing when the key is not found, else it
    empties the slot [e] where a key that compares equal is found, and
    the search for the key then ends there. *)
Lemma Delete_step h key h' found :
  Inv h → Delete CaseFoldingHash h key = Some (h', found) →
  ∃ e, find CaseFoldingHash h key = Some (e, found) ∧
       if found
       then ∃ p, slot h e = Some (Some p) ∧ key_eq (Key p) key = Some true ∧
                 1 ≤ size h ∧
                 h' = {| table := store h e None; size := size h - 1;
                         capacity := capacity h |} ∧
                 Inv h' ∧ find CaseFoldingHash h' key = Some (e, false)
       else h' = h.
Proof.
  intros HI HD. pose proof (Inv_bounds h HI) as (Hc & Hlen & Hsz & Hload).
  unfold Delete in HD.
  destruct (find CaseFoldingHash h key) as [[e b]|] eqn:Hf; [|done].
  cbn in HD. destruct b; cbn in HD.
  - destruct (find_true_slot CaseFoldingHash h key e HI Hf) as (p & Hp & Hk).
    rewrite Hp in HD. cbn in HD.
    pose proof (slot_Some_range h e _ HI Hp) as Hr.
    assert (1 ≤ size h) as Hone.
    { destruct HI as (k & _ & _ & _ & Ho & _).
      apply slot_to_nat in Hp as [Hp _].
      pose proof (occupied_insert _ _ _ None Hp) as Hins. simpl in Hins. lia. }
    rewrite wrap_int_small in HD by lia. injection HD as <- <-.
    exists e. split; [done|]. exists p.
    set (h' := {| table := store h e None; size := size h - 1;
                  capacity := capacity h |}).
    assert (Inv h') as HI'.
    { apply (Inv_store h e (Some p) None); [done|done|cbn; lia|cbn; lia]. }
    split_and!; try done.
    apply find_iff; [done|]. apply find_iff in Hf; [|done].
    change (capacity h') with (capacity h).
    change (index h' (hash CaseFoldingHash key))
      with (index h (hash CaseFoldingHash key)).
    destruct Hf as (n & Hn & Hi & Hch & Hlast). cbn in Hi. subst e.
    exists n. split; [done|]. split; [done|]. split.
    + intros j Hj. destruct (Hch j Hj) as (q & Hq & Hne).
      exists q. split; [|done]. unfold h'. rewrite slot_store by done.
      rewrite decide_False; [done|]. intros Heq. rewrite Heq in Hq. congruence.
    + unfold h' at 1. rewrite slot_store by done. now rewrite decide_True.
  - injection HD as <- <-. exists e. done.
Qed.

End Steps.

(** ** Two keys with one initial index, and [Delete] of the first *)

Section Collision.

Context (CaseFoldingHash : string → Z).
Context {K V : Type} `{!GoKey K} `{!GoZero V}.
Implicit Types (h : HashMap K V) (key : K) (value : V).

(** [assign] of a key that [find] does not find. *)
Lemma assign_absent h key value e :
  Inv h → find CaseFoldingHash h key = Some (e, false) →
  assign CaseFoldingHash h key value =
  Some {| table := store h e (Some {| Key := key; Value := value |});
          size := size h + 1; capacity := capacity h |}.
Proof.
  intros HI Hf. pose proof (Inv_bounds h HI) as (Hc & _ & Hsz & Hload).
  unfold assign. rewrite Hf. cbn.
  rewrite (find_false_empty CaseFoldingHash h key e HI Hf). cbn.
  now rewrite wrap_int_small by lia.
Qed.

(** The first probe decides when its slot is empty or holds the key. *)
Lemma find_first h key :
  Inv h →
  match slot h (index h (hash CaseFoldingHash key)) with
  | Some None =>
    find CaseFoldingHash h key = Some (index h (hash CaseFoldingHash key), false)
  | Some (Some p) =>
    key_eq (Key p) key = Some true →
    find CaseFoldingHash h key = Some (index h (hash CaseFoldingHash key), true)
  | None => False
  end.
Proof.
  intros HI. pose proof (Inv_bounds h HI) as (Hc & _).
  pose proof (index_range h (hash CaseFoldingHash key) HI) as Hr.
  pose proof (triangular_0 h _ HI Hr) as H0.
  destruct (slot_in_range h _ HI Hr) as [o Ho]. rewrite Ho.
  destruct o as [p|].
  - intros Hk. apply find_iff; [done|]. exists 0. cbn. rewrite H0, Ho, Hk.
    split_and!; try done; try lia; intros j Hj; lia.
  - apply find_iff; [done|]. exists 0. cbn. rewrite H0, Ho.
    split_and!; try done; try lia; intros j Hj; lia.
Qed.

(** The second probe decides when the first slot holds another key. *)
Lemma find_second h key p :
  Inv h →
  slot h (index h (hash CaseFoldingHash key)) = Some (Some p) →
  key_eq (Key p) key = Some false →
  let e := triangular (capacity h) (index h (hash CaseFoldingHash key)) 1 in
  match slot h e with
  | Some None => find CaseFoldingHash h key = Some (e, false)
  | Some (Some q) =>
    key_eq (Key q) key = Some true → find CaseFoldingHash h key = Some (e, true)
  | None => False
  end.
Proof.
  intros HI Hp Hne e. pose proof (Inv_bounds h HI) as (Hc & _).
  pose proof (index_range h (hash CaseFoldingHash key) HI) as Hr.
  pose proof (triangular_0 h _ HI Hr) as H0.
  pose proof (triangular_range h (index h (hash CaseFoldingHash key)) 1 HI) as Hre.
  destruct (slot_in_range h _ HI Hre) as [o Ho]. fold e in Ho. rewrite Ho.
  assert (∀ j, 0 ≤ j < 1 →
               other_key h key
                 (triangular (capacity h) (index h (hash CaseFoldingHash key)) j))
    as Hchain.
  { intros j Hj. replace j with 0 by lia. rewrite H0. exists p. done. }
  destruct o as [q|].
  - intros Hk. apply find_iff; [done|]. exists 1. cbn. fold e. rewrite Ho, Hk.
    split_and!; try done; lia.
  - apply find_iff; [done|]. exists 1. cbn. fold e. rewrite Ho.
    split_and!; try done; lia.
Qed.

Ltac arith := cbn; unfold initialCapacity; lia.

(** X23: scenario C of the specification, for every two keys that are
    equal to themselves and not to each other and whose searches start at
    the same slot of a fresh table: the second key is stored one probe
    further; after [Delete] of the first key its search stops on the
    emptied slot, and [Get] no longer finds it although it is still
    stored. *)
Lemma collision_through_deletion (k1 k2 : K) (v1 v2 : V) :
  key_eq k1 k1 = Some true → key_eq k2 k2 = Some true →
  key_eq k1 k2 = Some false →
  index (@New K V) (hash CaseFoldingHash k1) =
  index (@New K V) (hash CaseFoldingHash k2) →
  ∃ h1 h2 h3,
    Set_ CaseFoldingHash 2 New k1 v1 = Some h1 ∧
    Set_ CaseFoldingHash 2 h1 k2 v2 = Some h2 ∧
    Get CaseFoldingHash h2 k2 = Some (v2, true) ∧
    Delete CaseFoldingHash h2 k1 = Some (h3, true) ∧
    Get CaseFoldingHash h3 k2 = Some (zero, false) ∧
    stored h3 k2 v2 ∧ Size h3 = 1.
Proof.
  intros H11 H22 Hne Hidx.
  pose proof (@Inv_New K V) as HI0.
  set (i := index (@New K V) (hash CaseFoldingHash k1)) in *.
  pose proof (index_range New (hash CaseFoldingHash k1) HI0) as Hi.
  fold i in Hi. change (capacity New) with 8 in Hi.
  (* Set(k1, v1) *)
  pose proof (find_first New k1 HI0) as Hf1. fold i in Hf1.
  destruct (slot New i) as [[p|]|] eqn:Hs0; [by apply slot_fresh in Hs0| |done].
  set (h1 := {| table := store New i (Some {| Key := k1; Value := v1 |});
                size := 0 + 1; capacity := 8 |} : HashMap K V).
  assert (Set_ CaseFoldingHash 2 New k1 v1 = Some h1) as HS1.
  { rewrite Set_no_rehash by (done || arith).
    now rewrite (assign_absent New k1 v1 i HI0 Hf1). }
  assert (Inv h1) as HI1.
  { apply (Inv_store New i None (Some _)); [done|done|arith|arith]. }
  assert (∀ j, slot h1 j = if decide (j = i) then Some (Some {| Key := k1; Value := v1 |})
                           else slot New j) as Hs1.
  { intros j. unfold h1. rewrite (slot_store New) by (done || arith). done. }
  (* Set(k2, v2) *)
  set (e := triangular 8 i 1).
  assert (0 ≤ e < 8 ∧ e ≠ i) as [He Hei].
  { unfold e, triangular. change (1 * (1 + 1) / 2) with 1.
    rewrite (land_mask _ 3) by lia. change (2 ^ 3) with 8.
    pose proof (Z.mod_pos_bound (i + 1) 8 ltac:(lia)).
    split; [done|]. intros Heq.
    destruct (decide (i = 7)) as [->|]; [done|].
    rewrite Z.mod_small in Heq by lia. lia. }
  assert (find CaseFoldingHash h1 k2 = Some (e, false)) as Hf2.
  { pose proof (find_second h1 k2 {| Key := k1; Value := v1 |} HI1) as Hsec.
    change (index h1 (hash CaseFoldingHash k2))
      with (index (@New K V) (hash CaseFoldingHash k2)) in Hsec.
    rewrite <- Hidx in Hsec. change (capacity h1) with 8 in Hsec.
    rewrite Hs1, decide_True in Hsec by done.
    specialize (Hsec eq_refl Hne). cbn zeta in Hsec. fold e in Hsec.
    rewrite Hs1, decide_False in Hsec by done.
    destruct (slot New e) as [[p|]|] eqn:Hse;
      [by apply slot_fresh in Hse|done|done]. }
  set (h2 := {| table := store h1 e (Some {| Key := k2; Value := v2 |});
                size := 0 + 1 + 1; capacity := 8 |} : HashMap K V).
  assert (Set_ CaseFoldingHash 2 h1 k2 v2 = Some h2) as HS2.
  { rewrite Set_no_rehash by (done || arith).
    now rewrite (assign_absent h1 k2 v2 e HI1 Hf2). }
  assert (slot h1 e = Some None) as Hs1e
    by (apply (find_false_empty CaseFoldingHash h1 k2 e HI1 Hf2)).
  assert (Inv h2) as HI2.
  { apply (Inv_store h1 e None (Some _)); [done|done|arith|arith]. }
  assert (∀ j, slot h2 j =
               if decide (j = e) then Some (Some {| Key := k2; Value := v2 |})
               else slot h1 j) as Hs2.
  { intros j. unfold h2. rewrite (slot_store h1) by (done || arith). done. }
  assert (find CaseFoldingHash h2 k2 = Some (e, true)) as Hf22.
  { pose proof (find_second h2 k2 {| Key := k1; Value := v1 |} HI2) as Hsec.
    change (index h2 (hash CaseFoldingHash k2))
      with (index (@New K V) (hash CaseFoldingHash k2)) in Hsec.
    rewrite <- Hidx in Hsec. change (capacity h2) with 8 in Hsec.
    rewrite Hs2, decide_False, Hs1, decide_True in Hsec by done.
    specialize (Hsec eq_refl Hne). cbn zeta in Hsec. fold e in Hsec.
    rewrite Hs2, decide_True in Hsec by done.
    apply Hsec. done. }
  (* Delete(k1) *)
  assert (find CaseFoldingHash h2 k1 = Some (i, true)) as Hf21.
  { pose proof (find_first h2 k1 HI2) as Hfst.
    change (index h2 (hash CaseFoldingHash k1)) with i in Hfst.
    rewrite Hs2, decide_False, Hs1, decide_True in Hfst by done.
    apply Hfst. done. }
  set (h3 := {| table := store h2 i None; size := 0 + 1 + 1 - 1; capacity := 8 |}
             : HashMap K V).
  assert (slot h2 i = Some (Some {| Key := k1; Value := v1 |})) as Hs2i.
  { rewrite Hs2, decide_False, Hs1, decide_True by done. done. }
  assert (Inv h3) as HI3.
  { apply (Inv_store h2 i (Some {| Key := k1; Value := v1 |}) None);
      [done|done|arith|arith]. }
  assert (∀ j, slot h3 j = if decide (j = i) then Some None else slot h2 j) as Hs3.
  { intros j. unfold h3. rewrite (slot_store h2) by (done || arith). done. }
  exists h1, h2, h3. split_and!; try done.
  - unfold Get. rewrite Hf22. cbn. rewrite Hs2, decide_True by done. done.
  - unfold Delete. rewrite Hf21. cbn. rewrite Hs2i. cbn. done.
  - unfold Get. pose proof (find_first h3 k2 HI3) as Hfst.
    change (index h3 (hash CaseFoldingHash k2))
      with (index (@New K V) (hash CaseFoldingHash k2)) in Hfst.
    rewrite <- Hidx in Hfst.
    rewrite Hs3, decide_True in Hfst by done. rewrite Hfst. done.
  - exists e. rewrite Hs3, decide_False, Hs2, decide_True by done. done.
Qed.

(** A search whose first probe compares the key with a key that it
    cannot be compared with panics. *)
Lemma find_panic h key p :
  Inv h →
  slot h (index h (hash CaseFoldingHash key)) = Some (Some p) →
  key_eq (Key p) key = None →
  find CaseFoldingHash h key = None.
Proof.
  intros HI Hp Hk.
  destruct (find CaseFoldingHash h key) as [r|] eqn:Hf; [|done]. exfalso.
  apply find_iff in Hf as (n & Hn & _ & Hc & Hlast); [|done].
  pose proof (index_range h (hash CaseFoldingHash key) HI) as Hr.
  pose proof (triangular_0 h _ HI Hr) as H0.
  destruct (decide (n = 0)) as [->|Hne].
  - rewrite H0, Hp, Hk in Hlast. done.
  - destruct (Hc 0) as (q & Hq & Hne'); [lia|].
    rewrite H0, Hp in Hq. injection Hq as <-. congruence.
Qed.

(** X25: a key whose comparison with itself panics, as an interface
    value that holds a slice does, can be stored once: [Set] on a fresh
    table compares nothing and returns; from then on [Get], [Contains],
    [Delete] and [Set] of that key panic at the comparison
    [Key == key] of [find]. *)
Theorem uncomparable_key_panics key value :
  key_eq key key = None →
  ∃ h1,
    Set_ CaseFoldingHash 2 New key value = Some h1 ∧
    Size h1 = 1 ∧ stored h1 key value ∧
    Get CaseFoldingHash h1 key = None ∧
    Contains CaseFoldingHash h1 key = None ∧
    Delete CaseFoldingHash h1 key = None ∧
    ∀ fuel value', Set_ CaseFoldingHash fuel h1 key value' = None.
Proof.
  intros Hk.
  pose proof (@Inv_New K V) as HI0.
  set (i := index (@New K V) (hash CaseFoldingHash key)).
  pose proof (index_range New (hash CaseFoldingHash key) HI0) as Hi.
  fold i in Hi. change (capacity New) with 8 in Hi.
  pose proof (find_first New key HI0) as Hf1. fold i in Hf1.
  destruct (slot New i) as [[p|]|] eqn:Hs0; [by apply slot_fresh in Hs0| |done].
  set (h1 := {| table := store New i (Some {| Key := key; Value := value |});
                size := 0 + 1; capacity := 8 |} : HashMap K V).
  assert (Set_ CaseFoldingHash 2 New key value = Some h1) as HS1.
  { rewrite Set_no_rehash by (done || arith).
    now rewrite (assign_absent New key value i HI0 Hf1). }
  assert (Inv h1) as HI1.
  { apply (Inv_store New i None (Some _)); [done|done|arith|arith]. }
  assert (slot h1 i = Some (Some {| Key := key; Value := value |})) as Hs1.
  { unfold h1. rewrite (slot_store New) by (done || arith).
    by rewrite decide_True. }
  assert (find CaseFoldingHash h1 key = None) as Hf.
  { by apply (find_panic h1 key {| Key := key; Value := value |} HI1). }
  exists h1. split_and!; try done.
  - exists i. done.
  - unfold Get. by rewrite Hf.
  - unfold Contains. by rewrite Hf.
  - unfold Delete. by rewrite Hf.
  - intros [|fuel] value'; [done|].
    rewrite Set_no_rehash by (done || arith). unfold assign. by rewrite Hf.
Qed.

End Collision.

(** ** [Set], [Get], [Delete] and [Iter] on reachable tables *)

Section Reachable.

Context (CaseFoldingHash : string → Z).
Context {K V : Type} `{!GoKey K} `{!GoZero V}.
Implicit Types (h : HashMap K V) (key : K) (value : V).

Lemma pairs_app (l1 l2 : list (option (Pair K V))) :
  pairs (l1 ++ l2) = pairs l1 ++ pairs l2.
Proof. apply omap_app. Qed.

(** The pairs of a bucket array, split at slot [i], before and after a
    write to that slot. *)
Lemma pairs_insert (l : list (option (Pair K V))) (i : nat) o o' :
  l !! i = Some o →
  pairs l = pairs (take i l) ++ pairs [o] ++ pairs (drop (S i) l) ∧
  pairs (<[i:=o']> l) = pairs (take i l) ++ pairs [o'] ++ pairs (drop (S i) l).
Proof.
  intros Hl. pose proof (lookup_lt_Some _ _ _ Hl) as Hlt. split.
  - rewrite <- (take_drop_middle l i o Hl) at 1.
    rewrite pairs_app. f_equal. apply (pairs_app [o]).
  - rewrite insert_take_drop by done.
    rewrite pairs_app. f_equal. apply (pairs_app [o']).
Qed.

Lemma elem_of_pairs (l : list (option (Pair K V))) k v :
  (k, v) ∈ pairs l ↔ ∃ i : nat, l !! i = Some (Some {| Key := k; Value := v |}).
Proof.
  unfold pairs. rewrite list_elem_of_omap. split.
  - intros ([p|] & Hin & Heq); [|done]. cbn in Heq. injection Heq as <- <-.
    apply list_elem_of_lookup in Hin as [i Hi]. exists i. destruct p. done.
  - intros (i & Hi). exists (Some {| Key := k; Value := v |}). split; [|done].
    apply list_elem_of_lookup. eauto.
Qed.

(** A pair is stored when a full iteration yields it. *)
Lemma stored_Iter h k v : stored h k v ↔ (k, v) ∈ Iter_all h.
Proof.
  rewrite Iter_all_pairs, elem_of_pairs. unfold stored. split.
  - intros (idx & [Hidx _]%slot_to_nat). eauto.
  - intros (i & Hi). exists (Z.of_nat i). now rewrite slot_of_nat.
Qed.

(** X1: on every reachable table and for every key that is equal to
    itself, right after [Set(key, value)] returns, [Get(key)] returns the
    value and [Contains(key)] is true, whether the call rehashed or not
    and whatever was deleted before. *)
Theorem Set_then_Get fuel h key value h' :
  reachable CaseFoldingHash h →
  key_eq key key = Some true →
  Set_ CaseFoldingHash fuel h key value = Some h' →
  Get CaseFoldingHash h' key = Some (value, true) ∧
  Contains CaseFoldingHash h' key = Some true.
Proof.
  intros HI%Inv_reachable Hrefl HS.
  destruct (Set_cases CaseFoldingHash fuel h key value h' HI HS)
    as (h1 & HI1 & Hload1 & Ha & _).
  destruct (find_assign CaseFoldingHash h1 key value h' HI1 Hload1 Hrefl Ha)
    as (e & p & Hf & He & Hv).
  unfold Get, Contains. rewrite Hf. cbn. rewrite He. cbn. by rewrite Hv.
Qed.

(** A key that compares unequal to every key is never found. *)
Lemma never_found h key :
  Inv h → (∀ k, key_eq k key = Some false) →
  ∃ e, find CaseFoldingHash h key = Some (e, false).
Proof.
  intros HI Hnever.
  destruct (Shape_find_total CaseFoldingHash h key (Inv_Shape h HI))
    as [[e found] Hf].
  { intros idx p _. rewrite Hnever. eauto. }
  exists e. destruct found; [|done].
  destruct (find_true_slot CaseFoldingHash h key e HI Hf) as (p & _ & Hk).
  rewrite Hnever in Hk. done.
Qed.

(** X24: a key that compares unequal to every key, itself included, as
    the NaN of a floating-point key type does, is never found: on every
    reachable table [Get] and [Contains] do not find it and [Delete]
    returns [false] and changes nothing; every [Set] of it stores one more
    pair, which the iteration yields and [Get] does not find. *)
Theorem never_equal_key h key :
  reachable CaseFoldingHash h →
  (∀ k, key_eq k key = Some false) →
  Get CaseFoldingHash h key = Some (zero, false) ∧
  Contains CaseFoldingHash h key = Some false ∧
  Delete CaseFoldingHash h key = Some (h, false) ∧
  ∀ fuel value h',
    Set_ CaseFoldingHash fuel h key value = Some h' →
    (key, value) ∈ Iter_all h' ∧
    Get CaseFoldingHash h' key = Some (zero, false) ∧
    ((Size h + 1) * 2 < Capacity h → Size h' = Size h + 1).
Proof.
  intros HI%Inv_reachable Hnever.
  destruct (never_found h key HI Hnever) as [e Hf].
  split_and!.
  - unfold Get. rewrite Hf. done.
  - unfold Contains. rewrite Hf. done.
  - unfold Delete. rewrite Hf. done.
  - intros fuel value h' HS.
    destruct (Inv_Set CaseFoldingHash fuel h key value h' HI HS) as (HI' & _).
    destruct (never_found h' key HI' Hnever) as [e' Hf'].
    destruct (Set_cases CaseFoldingHash fuel h key value h' HI HS)
      as (h1 & HI1 & Hload1 & Ha & _ & Hcase).
    destruct (assign_step CaseFoldingHash h1 key value h' HI1 Hload1 Ha)
      as (e1 & found & Hf1 & Hr & _ & Hstep).
    destruct found.
    { destruct Hstep as (p & _ & Hk & _). rewrite Hnever in Hk. done. }
    destruct Hstep as (He1 & Hh').
    split_and!.
    + apply stored_Iter. exists e1. rewrite Hh'.
      rewrite slot_store by done. by rewrite decide_True.
    + unfold Get. rewrite Hf'. done.
    + unfold Size, Capacity. intros Hload.
      destruct Hcase as [[_ ->]|[? _]]; [|lia]. rewrite Hh'. done.
Qed.

(** X2: [Set] doubles the capacity exactly when [(size + 1) * 2 >=
    capacity] holds at the call, also when the key is already there, and
    keeps it otherwise; the size grows by at most one. *)
Theorem Set_capacity_rule fuel h key value h' :
  reachable CaseFoldingHash h →
  Set_ CaseFoldingHash fuel h key value = Some h' →
  Capacity h' = (if (Size h + 1) * maximumLoad >=? Capacity h
                 then Capacity h * 2 else Capacity h) ∧
  Size h' ≤ Size h + 1.
Proof.
  intros HI%Inv_reachable HS. unfold Capacity, Size, maximumLoad.
  destruct (Set_cases CaseFoldingHash fuel h key value h' HI HS)
    as (h1 & HI1 & Hload1 & Ha & Hsz & Hcase).
  destruct (assign_Inv CaseFoldingHash h1 key value h' HI1 Hload1 Ha)
    as (_ & Hc' & Hs').
  destruct (Z.geb_spec ((size h + 1) * 2) (capacity h));
    destruct Hcase as [[? ->]|(? & _ & ?)]; lia.
Qed.

(** X4: [Set] of a key that is not found, on a table that needs no
    rehash, adds one pair: the size grows by one, the capacity stays, and
    the iteration yields the pairs it yielded before, in the same order,
    with the new pair at the place of its slot. *)
Theorem Set_insert_new fuel h key value h' :
  reachable CaseFoldingHash h →
  Contains CaseFoldingHash h key = Some false →
  (Size h + 1) * 2 < Capacity h →
  Set_ CaseFoldingHash fuel h key value = Some h' →
  Size h' = Size h + 1 ∧ Capacity h' = Capacity h ∧
  ∃ l1 l2, Iter_all h = l1 ++ l2 ∧ Iter_all h' = l1 ++ (key, value) :: l2.
Proof.
  intros HI%Inv_reachable Hc Hload HS. unfold Capacity, Size in *.
  destruct (Set_cases CaseFoldingHash fuel h key value h' HI HS)
    as (h1 & HI1 & Hload1 & Ha & Hsz & [[_ ->]|[? _]]); [|lia].
  destruct (assign_step CaseFoldingHash h key value h' HI1 Hload1 Ha)
    as (e & found & Hf & _ & _ & Hcase).
  unfold Contains in Hc. rewrite Hf in Hc. cbn in Hc. injection Hc as ->.
  destruct Hcase as (He & Hh').
  rewrite (Iter_all_pairs h), (Iter_all_pairs h'). subst h'.
  cbn [size capacity table]. split; [done|]. split; [done|].
  apply slot_to_nat in He as [He _].
  destruct (pairs_insert _ _ _ (Some {| Key := key; Value := value |}) He)
    as [H1 H2].
  exists (pairs (take (Z.to_nat e) (table h))),
         (pairs (drop (S (Z.to_nat e)) (table h))).
  unfold store. rewrite H1 at 1. rewrite H2. done.
Qed.

(** X6: after any [Delete(key)], found or not, [Get(key)] finds nothing,
    and a second [Delete(key)] returns [false] and leaves the table as it
    is. *)
Theorem Delete_twice h key h' found :
  reachable CaseFoldingHash h →
  Delete CaseFoldingHash h key = Some (h', found) →
  Get CaseFoldingHash h' key = Some (zero, false) ∧
  Contains CaseFoldingHash h' key = Some false ∧
  Delete CaseFoldingHash h' key = Some (h', false).
Proof.
  intros HI%Inv_reachable HD.
  destruct (Delete_step CaseFoldingHash h key h' found HI HD) as (e & Hf & Hcase).
  assert (find CaseFoldingHash h' key = Some (e, false)) as Hf'.
  { destruct found.
    - destruct Hcase as (p & _ & _ & _ & _ & _ & Hf'). done.
    - subst h'. done. }
  unfold Get, Contains, Delete. rewrite Hf'. done.
Qed.

(** X14: keys are told apart by [==], not by their hash.  For two keys
    that are equal to themselves and not to each other: after
    [Set(k1, v1)] on a fresh table [k2] is not found, whatever its hash,
    and [Set(k2, v2)] stores a second pair; each key is then found with
    its own value. *)
Theorem distinct_keys_stored_apart (k1 k2 : K) (v1 v2 : V) :
  key_eq k1 k1 = Some true → key_eq k2 k2 = Some true →
  key_eq k1 k2 = Some false →
  ∃ h1 h2,
    Set_ CaseFoldingHash 2 New k1 v1 = Some h1 ∧
    Get CaseFoldingHash h1 k2 = Some (zero, false) ∧
    Set_ CaseFoldingHash 2 h1 k2 v2 = Some h2 ∧
    Size h2 = 2 ∧
    Get CaseFoldingHash h2 k1 = Some (v1, true) ∧
    Get CaseFoldingHash h2 k2 = Some (v2, true).
Proof.
  intros H11 H22 H12.
  pose proof (@Inv_New K V) as HI0.
  assert ((size (@New K V) + 1) * 2 < capacity (@New K V)) as Hload0
    by (cbn; unfold initialCapacity; lia).
  (* Set(k1, v1) *)
  destruct (find_New CaseFoldingHash (V := V) k1) as [i Hf0].
  destruct (assign_Some CaseFoldingHash New k1 v1 HI0) as [h1 Ha1]; [eauto|].
  destruct (assign_step CaseFoldingHash New k1 v1 h1 HI0 Hload0 Ha1)
    as (e1 & found1 & Hf1 & Hr1 & HI1 & Hstep1).
  assert (found1 = false) as -> by congruence.
  destruct Hstep1 as (He1 & Hh1).
  assert (size h1 = 1 ∧ capacity h1 = 8) as [Hz1 Hc1] by (by rewrite Hh1).
  assert (∀ j p, slot h1 j = Some (Some p) → Key p = k1) as Honly.
  { intros j p. rewrite Hh1, slot_store by done.
    destruct (decide (j = e1)) as [->|]; [by intros [= <-]|].
    intros Hp. by apply slot_fresh in Hp. }
  assert ((size h1 + 1) * 2 < capacity h1) as Hload1 by lia.
  (* Get(k2) *)
  destruct (Shape_find_total CaseFoldingHash h1 k2 (Inv_Shape h1 HI1))
    as [[e2 found2] Hf2].
  { intros j p ->%Honly. rewrite H12. eauto. }
  assert (found2 = false) as ->.
  { destruct found2; [|done].
    destruct (find_true_slot CaseFoldingHash h1 k2 e2 HI1 Hf2)
      as (p & ->%Honly & Hk).
    congruence. }
  (* Set(k2, v2) *)
  destruct (assign_Some CaseFoldingHash h1 k2 v2 HI1) as [h2 Ha2]; [eauto|].
  destruct (assign_step CaseFoldingHash h1 k2 v2 h2 HI1 Hload1 Ha2)
    as (e2' & found2' & Hf2' & Hr2 & HI2 & Hstep2).
  assert (e2' = e2 ∧ found2' = false) as [-> ->] by (split; congruence).
  destruct Hstep2 as (He2 & Hh2).
  destruct (find_assign CaseFoldingHash New k1 v1 h1 HI0 Hload0 H11 Ha1)
    as (e & p & Hfk1 & Hp & Hv).
  destruct (find_assign CaseFoldingHash h1 k2 v2 h2 HI1 Hload1 H22 Ha2)
    as (e' & p' & Hfk2 & Hp' & Hv').
  exists h1, h2. split_and!.
  - by rewrite Set_no_rehash.
  - unfold Get. by rewrite Hf2.
  - by rewrite Set_no_rehash.
  - unfold Size. rewrite Hh2. cbn. lia.
  - assert (find CaseFoldingHash h2 k1 = Some (e, true)) as Hf.
    { apply find_iff; [done|]. rewrite Hh2. cbn.
      change (index _ (hash CaseFoldingHash k1))
        with (index h1 (hash CaseFoldingHash k1)).
      eapply (search_found_store _ h1 e2 None {| Key := k2; Value := v2 |});
        [done|done|by intros q|].
      by apply find_iff. }
    assert (slot h2 e = slot h1 e) as Hsame.
    { rewrite Hh2, slot_store by done.
      rewrite decide_False; [done|]. intros ->. congruence. }
    unfold Get. rewrite Hf. cbn. rewrite Hsame, Hp. cbn. by rewrite Hv.
  - unfold Get. rewrite Hfk2. cbn. rewrite Hp'. cbn. by rewrite Hv'.
Qed.

(** X15: [Set] of a key that is stored but not found, which happens after
    [Delete] of a key earlier on its probe sequence, stores the key a
    second time: the size grows by one and the iteration yields the key
    twice. *)
Theorem Set_duplicates_lost_key fuel h key value h' :
  reachable CaseFoldingHash h →
  key ∈ (Iter_all h).*1 →
  Contains CaseFoldingHash h key = Some false →
  (Size h + 1) * 2 < Capacity h →
  Set_ CaseFoldingHash fuel h key value = Some h' →
  Size h' = Size h + 1 ∧
  (∃ l1 l2, Iter_all h = l1 ++ l2 ∧ Iter_all h' = l1 ++ (key, value) :: l2) ∧
  ¬ NoDup ((Iter_all h').*1).
Proof.
  intros HI%Inv_reachable Hin Hc Hload HS. unfold Capacity, Size in *.
  destruct (Set_cases CaseFoldingHash fuel h key value h' HI HS)
    as (h1 & HI1 & Hload1 & Ha & Hsz & [[_ ->]|[? _]]); [|lia].
  destruct (assign_step CaseFoldingHash h key value h' HI1 Hload1 Ha)
    as (e & found & Hf & _ & _ & Hcase).
  unfold Contains in Hc. rewrite Hf in Hc. cbn in Hc. injection Hc as ->.
  destruct Hcase as (He & Hh').
  assert (∃ l1 l2, Iter_all h = l1 ++ l2 ∧ Iter_all h' = l1 ++ (key, value) :: l2)
    as (l1 & l2 & H1 & H2).
  { rewrite (Iter_all_pairs h), (Iter_all_pairs h'). subst h'. cbn [table].
    apply slot_to_nat in He as [He _].
    destruct (pairs_insert _ _ _ (Some {| Key := key; Value := value |}) He)
      as [H1 H2].
    exists (pairs (take (Z.to_nat e) (table h))),
           (pairs (drop (S (Z.to_nat e)) (table h))).
    unfold store. rewrite H1 at 1. rewrite H2. done. }
  split_and!.
  - subst h'. done.
  - eauto.
  - rewrite H2. rewrite H1 in Hin. rewrite fmap_app in Hin |- *.
    rewrite fmap_cons. cbn. intros Hnd.
    apply NoDup_app in Hnd as (_ & Hdisj & Hnd2).
    apply NoDup_cons in Hnd2 as [Hnot _].
    apply elem_of_app in Hin as [Hin|Hin]; [|done].
    apply (Hdisj key Hin). by left.
Qed.

(** X16: an iteration hands the pairs of the occupied slots to the
    consumer in slot order, skips the empty slots, and ends as soon as
    the consumer declines to go on. *)
Theorem Iter_consume {St : Type} h (yield : K → V → St → St * bool) (s : St) :
  Iter h yield s = consume yield (Iter_all h) s.
Proof.
  rewrite Iter_all_pairs. unfold Iter. revert s.
  induction (table h) as [|[p|] l IH]; intros s; [done| |].
  - cbn. destruct (yield (Key p) (Value p) s) as [s' [|]]; [apply IH|done].
  - apply IH.
Qed.

End Reachable.

(** ** Key types whose [==] never panics: the methods return *)

Section Totality.

Context (CaseFoldingHash : string → Z).
Context {K V : Type} `{!GoKey K} `{!TotalKey K} `{!GoZero V}.
Implicit Types (h : HashMap K V) (key : K) (value : V).

(** On a key type whose [==] never panics the loop returns. *)
Lemma rehash_loop_total fuel (l : list (option (Pair K V))) :
  ∀ h0, Inv h0 → (size h0 + Z.of_nat (occupied l)) * 2 < capacity h0 →
        ∃ h1, foldl (reinsert (Set_ CaseFoldingHash (S fuel))) (Some h0) l
                = Some h1 ∧
              foldl (reinsert (assign CaseFoldingHash)) (Some h0) l = Some h1 ∧
              Inv h1 ∧ capacity h1 = capacity h0 ∧
              size h1 ≤ size h0 + Z.of_nat (occupied l).
Proof.
  intros h0 HI Hload.
  assert (∃ h1, foldl (reinsert (assign CaseFoldingHash)) (Some h0) l = Some h1)
    as [h1 H1].
  { revert h0 HI Hload.
    induction l as [|[p|] l IH]; intros h0 HI Hload; simpl in Hload.
    - eauto.
    - cbn [foldl reinsert mbind option_bind].
      destruct (Inv_assign CaseFoldingHash h0 (Key p) (Value p) HI)
        as (h' & Ha & HI' & Hcap & Hsz); [lia|].
      rewrite Ha. apply IH; [done|lia].
    - cbn [foldl reinsert mbind option_bind]. apply IH; done. }
  exists h1. rewrite rehash_loop_assign by done. split; [done|]. split; [done|].
  by apply (rehash_loop_Inv CaseFoldingHash l h0).
Qed.

(** [Set] returns, unless the capacity cannot be doubled, and fuel for
    one [rehash] is all it uses. *)
Lemma Set_total fuel h key value :
  Inv h → capacity h < 2 ^ 62 →
  ∃ h', Set_ CaseFoldingHash (S (S fuel)) h key value = Some h' ∧
        Set_ CaseFoldingHash 2 h key value = Some h'.
Proof.
  intros HI Hlt. pose proof (Inv_bounds h HI) as (Hc & Hlen & Hsz & Hload).
  destruct (Z.lt_ge_cases ((size h + 1) * 2) (capacity h)) as [Hno|Hge].
  - rewrite !Set_no_rehash by done.
    destruct (Inv_assign CaseFoldingHash h key value HI Hno) as (h' & Ha & _).
    exists h'. done.
  - rewrite !Set_rehash by done. unfold rehash, rehash_with.
    rewrite wrap_int_small by lia.
    unfold make. destruct (Z.ltb_spec (capacity h * 2) 0); [lia|].
    cbn [mbind option_bind].
    destruct (rehash_loop_total fuel (table h) _ (Inv_make h HI Hlt))
      as (h1 & H1 & H2 & HI1 & Hc1 & Hs1).
    { destruct HI as (k & _ & _ & _ & Hocc & _). cbn. lia. }
    destruct (rehash_loop_total 0 (table h) _ (Inv_make h HI Hlt))
      as (h1' & H1' & H2' & _).
    { destruct HI as (k & _ & _ & _ & Hocc & _). cbn. lia. }
    rewrite H1, H1'. assert (h1' = h1) as -> by congruence.
    cbn [mbind option_bind]. cbn in Hc1, Hs1.
    destruct (Inv_assign CaseFoldingHash h1 key value HI1) as (h' & Ha & _).
    { destruct HI as (k & _ & _ & _ & Hocc & _). lia. }
    exists h'. done.
Qed.

Lemma methods_total h key value :
  Inv h →
  is_Some (find CaseFoldingHash h key) ∧
  is_Some (Get CaseFoldingHash h key) ∧
  is_Some (Contains CaseFoldingHash h key) ∧
  is_Some (Delete CaseFoldingHash h key) ∧
  (capacity h < 2 ^ 62 → is_Some (Set_ CaseFoldingHash 2 h key value)).
Proof.
  intros HI.
  destruct (find_search CaseFoldingHash h key HI) as ([idx b] & Hf & _).
  assert (b = true → ∃ p, slot h idx = Some (Some p)) as Hb.
  { intros ->.
    destruct (find_true_slot CaseFoldingHash h key idx HI Hf) as (p & Hp & _).
    eauto. }
  unfold Get, Contains, Delete. rewrite Hf.
  split_and!; [done| | | |].
  - destruct b; cbn; [|done]. destruct Hb as [p ->]; [done|]. cbn. eauto.
  - cbn. eauto.
  - destruct b; cbn; [|eauto]. destruct Hb as [p ->]; [done|]. cbn. eauto.
  - intros Hlt. destruct (Set_total 0 h key value HI Hlt) as (h' & HS & _).
    rewrite HS. eauto.
Qed.

(** X9: on a key type whose [==] never panics no method panics on a
    reachable table: [Get], [Contains] and [Delete] return, and [Set]
    returns unless the capacity is already [2^62] and cannot be
    doubled. *)
Theorem reachable_no_panic h key value :
  reachable CaseFoldingHash h →
  is_Some (Get CaseFoldingHash h key) ∧
  is_Some (Contains CaseFoldingHash h key) ∧
  is_Some (Delete CaseFoldingHash h key) ∧
  (Capacity h < 2 ^ 62 →
   ∀ fuel, is_Some (Set_ CaseFoldingHash (S (S fuel)) h key value)).
Proof.
  intros HI%Inv_reachable.
  destruct (methods_total h key value HI) as (_ & HG & HC & HD & _).
  split_and!; try done.
  intros Hlt fuel.
  destruct (Set_total fuel h key value HI Hlt) as (h' & -> & _).
  eauto.
Qed.

End Totality.

(** ** Strict key types: tables in which every stored key is found

    The sections named for the strict key types are about the key types
    on which [==] is the identity of keys. *)

Section Findable.

Context (CaseFoldingHash : string → Z).
Context {K V : Type} `{!GoKey K} `{!StrictKey K} `{!GoZero V}.
Implicit Types (h : HashMap K V) (key : K) (value : V).

(** On a strict key type [==] is the identity of keys. *)
Lemma key_eq_true (a b : K) : key_eq a b = Some true ↔ a = b.
Proof.
  rewrite key_eq_decide. split.
  - intros [= Hb%bool_decide_eq_true]. done.
  - intros ->. by rewrite bool_decide_eq_true_2.
Qed.

Lemma key_eq_false (a b : K) : key_eq a b = Some false ↔ a ≠ b.
Proof.
  rewrite key_eq_decide. split.
  - intros [= Hb%bool_decide_eq_false]. done.
  - intros Hne. by rewrite bool_decide_eq_false_2.
Qed.

Lemma key_eq_refl (a : K) : key_eq a a = Some true.
Proof. by apply key_eq_true. Qed.

Lemma find_true_key h key idx :
  Inv h → find CaseFoldingHash h key = Some (idx, true) →
  ∃ p, slot h idx = Some (Some p) ∧ Key p = key.
Proof.
  intros HI Hf.
  destruct (find_true_slot CaseFoldingHash h key idx HI Hf) as (p & Hp & Hk).
  exists p. split; [done|]. by apply key_eq_true.
Qed.

(** In a table where every stored key is found, [Get] reads what is
    stored. *)
Lemma Get_stored h key value :
  Inv h → findable CaseFoldingHash h →
  Get CaseFoldingHash h key = Some (value, true) ↔ stored h key value.
Proof.
  intros HI HF. split.
  - unfold Get. destruct (find CaseFoldingHash h key) as [[idx [|]]|] eqn:Hf;
      cbn; [|done..].
    destruct (find_true_key h key idx HI Hf) as (p & Hp & Hk).
    rewrite Hp. cbn. intros [= <-]. exists idx. rewrite Hp.
    destruct p. cbn in *. now subst.
  - intros (idx & Hs). unfold Get.
    pose proof (HF idx _ Hs) as Hf. cbn in Hf.
    rewrite Hf. cbn. rewrite Hs. done.
Qed.

Lemma Get_not_stored h key :
  Inv h →
  (∀ value, ¬ stored h key value) →
  Get CaseFoldingHash h key = Some (zero, false).
Proof.
  intros HI Hno. unfold Get.
  destruct (find_search CaseFoldingHash h key HI) as ([idx b] & Hf & _).
  rewrite Hf. cbn. destruct b; [|done]. exfalso.
  destruct (find_true_key h key idx HI Hf) as (p & Hp & Hk).
  apply (Hno (Value p)). exists idx. rewrite Hp. destruct p. cbn in *. now subst.
Qed.

Lemma Get_cases h key :
  Inv h → findable CaseFoldingHash h →
  (∃ value, stored h key value ∧
            Get CaseFoldingHash h key = Some (value, true) ∧
            Contains CaseFoldingHash h key = Some true) ∨
  ((∀ value, ¬ stored h key value) ∧
   Get CaseFoldingHash h key = Some (zero, false) ∧
   Contains CaseFoldingHash h key = Some false).
Proof.
  intros HI HF.
  destruct (find_search CaseFoldingHash h key HI) as ([idx b] & Hf & _).
  destruct b.
  - left. destruct (find_true_key h key idx HI Hf) as (p & Hp & Hk).
    exists (Value p). unfold Get, Contains. rewrite Hf. cbn. rewrite Hp. cbn.
    split; [|done]. exists idx. rewrite Hp. destruct p. cbn in *. now subst.
  - right. unfold Get, Contains. rewrite Hf. cbn. split; [|done].
    intros value (j & Hj). pose proof (HF j _ Hj) as Hfj. cbn in Hfj.
    congruence.
Qed.

(** The body of [Set] after the load check, on a table where every
    stored key is found. *)
Lemma assign_spec h key value :
  Inv h → findable CaseFoldingHash h → (size h + 1) * 2 < capacity h →
  ∃ h', assign CaseFoldingHash h key value = Some h' ∧
        Inv h' ∧ findable CaseFoldingHash h' ∧
        capacity h' = capacity h ∧
        size h' = size h + (if Contains CaseFoldingHash h key is Some true
                            then 0 else 1) ∧
        ∀ k v, stored h' k v ↔
               (k = key ∧ v = value) ∨ (k ≠ key ∧ stored h k v).
Proof.
  intros HI HF Hload.
  destruct (Inv_assign CaseFoldingHash h key value HI Hload)
    as (h' & Ha & HI' & Hcap & _).
  exists h'. split; [done|]. split; [done|].
  pose proof (Inv_bounds h HI) as (Hc & Hlen & Hsz & _).
  destruct (find_search CaseFoldingHash h key HI) as ([e found] & Hf & _).
  assert (∃ o p',
            slot h e = Some o ∧ Key p' = key ∧ Value p' = value ∧
            (∀ p, o = Some p → Key p = Key p') ∧
            (o = None ↔ found = false) ∧
            h' = {| table := store h e (Some p');
                    size := size h + (if found then 0 else 1);
                    capacity := capacity h |})
    as (o & p' & He & Hk' & Hv' & Ho & Hof & ->).
  { unfold assign in Ha. rewrite Hf in Ha. cbn in Ha. destruct found.
    - destruct (find_true_key h key e HI Hf) as (p & Hp & Hk).
      rewrite Hp in Ha. cbn in Ha. injection Ha as <-.
      exists (Some p), {| Key := Key p; Value := value |}.
      rewrite Z.add_0_r. split_and!; try done.
      intros q [= ->]. done.
    - pose proof (find_false_empty CaseFoldingHash h key e HI Hf) as Hp.
      rewrite Hp in Ha. cbn in Ha. rewrite wrap_int_small in Ha by lia.
      injection Ha as <-.
      exists None, {| Key := key; Value := value |}. split_and!; done. }
  pose proof (slot_Some_range h e _ HI He) as Hr.
  assert (∀ j q, slot h j = Some (Some q) → Key q = key → j = e) as Hkey.
  { intros j q Hq Hk. pose proof (HF j q Hq) as Hfq. rewrite Hk, Hf in Hfq.
    congruence. }
  split_and!.
  - (* every stored key is found *)
    intros j q. rewrite slot_store by done.
    destruct (decide (j = e)) as [->|Hje].
    + intros [= <-]. apply find_iff; [done|]. cbn.
      change (index _ (hash CaseFoldingHash (Key p')))
        with (index h (hash CaseFoldingHash (Key p'))).
      apply find_iff in Hf; [|done]. rewrite <- Hk' in Hf.
      destruct found.
      * eapply search_found_store; eauto.
      * destruct Hof as [_ Hnone]. rewrite Hnone in He by done.
        apply search_new_store; [done|done|apply key_eq_refl|done].
    + intros Hq. apply find_iff; [done|]. cbn.
      change (index _ (hash CaseFoldingHash (Key q)))
        with (index h (hash CaseFoldingHash (Key q))).
      eapply search_found_store; eauto.
      apply find_iff; [done|]. apply HF. done.
  - done.
  - cbn. unfold Contains. rewrite Hf. cbn. destruct found; done.
  - intros k v. unfold stored. split.
    + intros (j & Hj). rewrite slot_store in Hj by done.
      destruct (decide (j = e)) as [->|Hje].
      * left. injection Hj as ->. cbn in *. done.
      * right. split; [|eauto]. intros ->. apply Hje. eapply Hkey; eauto.
    + intros [[-> ->]|[Hne (j & Hj)]].
      * exists e. rewrite slot_store by done. rewrite decide_True by done.
        destruct p'. cbn in *. now subst.
      * exists j. rewrite slot_store by done. rewrite decide_False; [done|].
        intros ->. rewrite He in Hj. injection Hj as ->.
        specialize (Ho _ eq_refl). cbn in Ho. congruence.
Qed.

End Findable.

(** ** Strict key types: [rehash] and [Set] keep every stored key found *)

Section Rehash.

Context (CaseFoldingHash : string → Z).
Context {K V : Type} `{!GoKey K} `{!StrictKey K} `{!GoZero V}.
Implicit Types (h : HashMap K V) (key : K) (value : V).

(** A table where every stored key is found stores no key twice. *)
Lemma findable_unique h (i j : nat) p q :
  findable CaseFoldingHash h →
  table h !! i = Some (Some p) → table h !! j = Some (Some q) →
  Key p = Key q → i = j.
Proof.
  intros HF Hi Hj Hk. rewrite <- slot_of_nat in Hi, Hj.
  pose proof (HF _ _ Hi) as Hfi. pose proof (HF _ _ Hj) as Hfj.
  rewrite Hk in Hfi. rewrite Hfi in Hfj. injection Hfj as Heq. lia.
Qed.

#[local] Arguments Set_ : simpl never.

(** The loop of [rehash] after [i] of the old slots [l]: the new table
    stores the pairs of these slots. *)
Lemma rehash_loop_spec fuel (l : list (option (Pair K V))) h0 :
  Inv h0 → findable CaseFoldingHash h0 → size h0 = 0 →
  (∀ k v, ¬ stored h0 k v) →
  Z.of_nat (occupied l) * 2 < capacity h0 →
  (∀ (i j : nat) p q, l !! i = Some (Some p) → l !! j = Some (Some q) →
                      Key p = Key q → i = j) →
  ∀ i : nat, (i ≤ length l)%nat →
    ∃ h1, foldl (reinsert (Set_ CaseFoldingHash (S fuel))) (Some h0) (take i l)
            = Some h1 ∧
          Inv h1 ∧ findable CaseFoldingHash h1 ∧
          capacity h1 = capacity h0 ∧
          size h1 = Z.of_nat (occupied (take i l)) ∧
          ∀ k v, stored h1 k v ↔
                 ∃ j : nat, (j < i)%nat ∧
                            l !! j = Some (Some {| Key := k; Value := v |}).
Proof.
  intros HI0 HF0 Hsz0 Hempty Hload Huniq.
  induction i as [|i IH]; intros Hi.
  - exists h0. rewrite take_0. cbn. split_and!; try done.
    intros k v. split; [intros Hs; by apply Hempty in Hs|].
    intros (j & Hj & _). lia.
  - destruct IH as (h1 & Hfold & HI1 & HF1 & Hcap1 & Hsz1 & Hst1); [lia|].
    destruct (lookup_lt_is_Some_2 l i) as [x Hx]; [lia|].
    rewrite (take_S_r _ _ _ Hx), foldl_app, Hfold. cbn.
    rewrite occupied_app.
    pose proof (occupied_take_le l (S i)) as Hle.
    rewrite (take_S_r _ _ _ Hx), occupied_app in Hle.
    destruct x as [p|]; simpl in Hle |- *.
    + assert ((size h1 + 1) * 2 < capacity h1) as Hload1 by lia.
      rewrite Set_no_rehash by done.
      destruct (assign_spec CaseFoldingHash h1 (Key p) (Value p) HI1 HF1 Hload1)
        as (h2 & Ha & HI2 & HF2 & Hcap2 & Hsz2 & Hst2).
      exists h2. split_and!; try done; try congruence.
      * rewrite Hsz2.
        destruct (Get_cases CaseFoldingHash h1 (Key p) HI1 HF1)
          as [(v0 & Hs0 & _)|(_ & _ & ->)]; [|lia].
        apply Hst1 in Hs0 as (j & Hj & Hlj).
        pose proof (Huniq _ _ _ _ Hlj Hx eq_refl). lia.
      * intros k v. rewrite Hst2, Hst1. split.
        -- intros [[-> ->]|[Hne (j & Hj & Hlj)]].
           ++ exists i. split; [lia|]. rewrite Hx. destruct p. done.
           ++ exists j. split; [lia|done].
        -- intros (j & Hj & Hlj). destruct (decide (j = i)) as [->|Hne].
           ++ left. rewrite Hx in Hlj. injection Hlj as ->. done.
           ++ right. split; [|exists j; split; [lia|done]].
              intros ->. apply Hne. eapply Huniq; eauto.
    + exists h1. split_and!; try done; try lia.
      intros k v. rewrite Hst1. split.
      * intros (j & Hj & Hlj). exists j. split; [lia|done].
      * intros (j & Hj & Hlj). exists j. split; [|done].
        destruct (decide (j = i)) as [->|Hne]; [congruence|lia].
Qed.

Lemma rehash_spec fuel h :
  Inv h → findable CaseFoldingHash h → capacity h < 2 ^ 62 →
  ∃ h1, rehash CaseFoldingHash (S fuel) h = Some h1 ∧
        Inv h1 ∧ findable CaseFoldingHash h1 ∧
        capacity h1 = capacity h * 2 ∧
        size h1 = size h ∧
        ∀ k v, stored h1 k v ↔ stored h k v.
Proof.
  intros HI HF Hlt. pose proof (Inv_bounds h HI) as (Hc & Hlen & Hsz & Hload).
  unfold rehash, rehash_with. rewrite wrap_int_small by lia.
  unfold make. destruct (Z.ltb_spec (capacity h * 2) 0); [lia|]. cbn.
  set (h0 := {| table := replicate (Z.to_nat (capacity h * 2)) None;
                size := 0; capacity := capacity h * 2 |}).
  destruct (rehash_loop_spec fuel (table h) h0) with (i := length (table h))
    as (h1 & Hfold & HI1 & HF1 & Hcap1 & Hsz1 & Hst1).
  - apply Inv_make; done.
  - intros idx p Hp. by apply slot_fresh in Hp.
  - done.
  - intros k v (idx & Hp). by apply slot_fresh in Hp.
  - destruct HI as (k & _ & _ & _ & Hocc & _). cbn. lia.
  - intros i j p q. apply findable_unique. done.
  - done.
  - rewrite firstn_all in Hfold, Hsz1.
    exists h1. split_and!; try done.
    + destruct HI as (k & _ & _ & _ & Hocc & _). lia.
    + intros k v. rewrite Hst1. unfold stored. split.
      * intros (j & _ & Hj). exists (Z.of_nat j). now rewrite slot_of_nat.
      * intros (idx & Hidx). apply slot_to_nat in Hidx as [Hidx ?].
        exists (Z.to_nat idx). split; [|done].
        apply lookup_lt_Some in Hidx. done.
Qed.

(** [Set], with the fuel for one [rehash]. *)
Lemma Set_spec fuel h key value :
  Inv h → findable CaseFoldingHash h → capacity h < 2 ^ 62 →
  ∃ h', Set_ CaseFoldingHash (S (S fuel)) h key value = Some h' ∧
        Inv h' ∧ findable CaseFoldingHash h' ∧
        capacity h' = (if (size h + 1) * 2 >=? capacity h
                       then capacity h * 2 else capacity h) ∧
        size h' = size h + (if Contains CaseFoldingHash h key is Some true
                            then 0 else 1) ∧
        ∀ k v, stored h' k v ↔
               (k = key ∧ v = value) ∨ (k ≠ key ∧ stored h k v).
Proof.
  intros HI HF Hlt. pose proof (Inv_bounds h HI) as (Hc & Hlen & Hsz & Hload).
  destruct (Z.geb_spec ((size h + 1) * 2) (capacity h)) as [Hge|Hno].
  - destruct (rehash_spec fuel h HI HF Hlt)
      as (h1 & Hr & HI1 & HF1 & Hcap1 & Hsz1 & Hst1).
    destruct (assign_spec CaseFoldingHash h1 key value HI1 HF1)
      as (h2 & Ha & HI2 & HF2 & Hcap2 & Hsz2 & Hst2); [lia|].
    exists h2. split_and!; try done; try congruence.
    + rewrite Set_rehash by (done || lia). rewrite Hr. done.
    + rewrite Hsz2, Hsz1. f_equal.
      destruct (Get_cases CaseFoldingHash h key HI HF)
        as [(v0 & Hs0 & _ & ->)|(Hs0 & _ & ->)];
      destruct (Get_cases CaseFoldingHash h1 key HI1 HF1)
        as [(v1 & Hs1 & _ & ->)|(Hs1 & _ & ->)]; try done.
      * apply Hst1 in Hs0. by apply Hs1 in Hs0.
      * apply Hst1 in Hs1. by apply Hs0 in Hs1.
    + intros k v. rewrite Hst2, Hst1. done.
  - rewrite Set_no_rehash by done.
    destruct (assign_spec CaseFoldingHash h key value HI HF Hno)
      as (h2 & Ha & HI2 & HF2 & Hcap2 & Hsz2 & Hst2).
    exists h2. done.
Qed.

(** What [Get] returns after [Set]. *)
Lemma Get_Set h key value h' :
  Inv h → findable CaseFoldingHash h → Inv h' → findable CaseFoldingHash h' →
  (∀ k v, stored h' k v ↔ (k = key ∧ v = value) ∨ (k ≠ key ∧ stored h k v)) →
  ∀ k, Get CaseFoldingHash h' k =
       if decide (k = key) then Some (value, true) else Get CaseFoldingHash h k.
Proof.
  intros HI HF HI' HF' Hst k. destruct (decide (k = key)) as [->|Hne].
  - apply Get_stored; [done..|]. apply Hst. by left.
  - destruct (Get_cases CaseFoldingHash h k HI HF)
      as [(v0 & Hs0 & -> & _)|(Hs0 & -> & _)].
    + apply Get_stored; [done..|]. apply Hst. by right.
    + apply (Get_not_stored CaseFoldingHash); [done|].
      intros v [[-> _]|[_ Hs]]%Hst; [done|].
      by apply Hs0 in Hs.
Qed.

(** [Set] keeps every stored key found, also at the largest capacity. *)
Lemma Set_findable h key value h' :
  Inv h → findable CaseFoldingHash h →
  Set_ CaseFoldingHash 2 h key value = Some h' →
  Inv h' ∧ findable CaseFoldingHash h' ∧
  ∀ k, Get CaseFoldingHash h' k =
       if decide (k = key) then Some (value, true) else Get CaseFoldingHash h k.
Proof.
  intros HI HF HS. pose proof (Inv_bounds h HI) as (Hc & Hlen & Hsz & Hload).
  assert (∃ h'', Set_ CaseFoldingHash 2 h key value = Some h'' ∧
                 Inv h'' ∧ findable CaseFoldingHash h'' ∧
                 ∀ k v, stored h'' k v ↔
                        (k = key ∧ v = value) ∨ (k ≠ key ∧ stored h k v))
    as (h'' & HS' & HI' & HF' & Hst).
  { destruct (Z.lt_ge_cases (capacity h) (2 ^ 62)) as [Hlt|Hge].
    - destruct (Set_spec 0 h key value HI HF Hlt) as (h'' & ? & ? & ? & _ & _ & ?).
      eauto.
    - destruct (Z.lt_ge_cases ((size h + 1) * 2) (capacity h)) as [Hno|Hre].
      + rewrite Set_no_rehash in HS |- * by done.
        destruct (assign_spec CaseFoldingHash h key value HI HF Hno)
          as (h'' & ? & ? & ? & _ & _ & ?).
        eauto.
      + exfalso. rewrite Set_rehash in HS by done.
        unfold rehash, rehash_with in HS.
        replace (capacity h) with (2 ^ 62) in HS by lia. done. }
  assert (h'' = h') as -> by congruence.
  split; [done|]. split; [done|]. by apply Get_Set.
Qed.

Lemma insert_only_findable h :
  insert_only CaseFoldingHash h → Inv h ∧ findable CaseFoldingHash h.
Proof.
  induction 1 as [|h key value h' _ [HI HF] HS|h _ _].
  - split; [apply Inv_New|]. intros idx p Hp. by apply slot_fresh in Hp.
  - destruct (Set_findable h key value h' HI HF HS) as (? & ? & _). done.
  - split; [apply Inv_Clear|]. intros idx p Hp. by apply slot_fresh in Hp.
Qed.

(** The round trip in a table that has seen no [Delete]: after
    [Set(key, value)], [Get(key)] returns the value, and [Get] of every
    other key returns what it returned before. *)
Lemma round_trip_insert_only h key value h' :
  insert_only CaseFoldingHash h →
  Set_ CaseFoldingHash 2 h key value = Some h' →
  Get CaseFoldingHash h' key = Some (value, true) ∧
  ∀ k, k ≠ key → Get CaseFoldingHash h' k = Get CaseFoldingHash h k.
Proof.
  intros [HI HF]%insert_only_findable HS.
  destruct (Set_findable h key value h' HI HF HS) as (_ & _ & HG).
  split.
  - rewrite HG. now rewrite decide_True.
  - intros k Hk. rewrite HG. now rewrite decide_False.
Qed.

End Rehash.

(** ** Scenario A: four string keys *)

Section ScenarioA.

Context (CaseFoldingHash : string → Z).

Local Abbreviation Table := (HashMap string Z).

(** Evaluate the right-hand side of an equation. *)
Ltac eval_rhs H :=
  match type of H with
  | ?l = ?r => let r' := eval vm_compute in r in change (l = r') in H
  end.

Lemma findable_New : findable CaseFoldingHash (New : Table).
Proof. intros idx p Hp. by apply slot_fresh in Hp. Qed.

Lemma stored_New k v : ¬ stored (New : Table) k v.
Proof. intros (idx & Hp). by apply slot_fresh in Hp. Qed.

(** [Set] of a key that is not stored adds one pair. *)
Lemma Set_fresh (h : Table) key value :
  Inv h → findable CaseFoldingHash h → capacity h < 2 ^ 62 →
  (∀ v, ¬ stored h key v) →
  ∃ h', Set_ CaseFoldingHash 2 h key value = Some h' ∧
        Inv h' ∧ findable CaseFoldingHash h' ∧
        capacity h' = (if (size h + 1) * 2 >=? capacity h
                       then capacity h * 2 else capacity h) ∧
        size h' = size h + 1 ∧
        ∀ k v, stored h' k v ↔
               (k = key ∧ v = value) ∨ (k ≠ key ∧ stored h k v).
Proof.
  intros HI HF Hlt Hno.
  destruct (Set_spec CaseFoldingHash 0 h key value HI HF Hlt)
    as (h' & HS & HI' & HF' & Hcap & Hsz & Hst).
  exists h'. split_and!; try done.
  rewrite Hsz. f_equal.
  destruct (Get_cases CaseFoldingHash h key HI HF)
    as [(v0 & Hs0 & _)|(_ & _ & ->)]; [|done].
  by apply Hno in Hs0.
Qed.

(** C4: [Set("a", 1)], [Set("b", 2)], [Set("c", 3)], [Set("d", 4)] on a
    fresh table, whatever the hash of the strings: the load check fails
    for the first three calls and holds for the fourth, with
    [(3 + 1) * 2 >= 8]; that call first rehashes to a table of capacity 16
    with the three pairs and then stores the fourth; in the end the
    capacity is 16, the size 4, and [Get] finds the four values. *)
Theorem scenario_A :
  ∃ h1 h2 h3 h3' h4 : Table,
    Set_ CaseFoldingHash 2 New "a" 1 = Some h1 ∧
    Set_ CaseFoldingHash 2 h1 "b" 2 = Some h2 ∧
    Set_ CaseFoldingHash 2 h2 "c" 3 = Some h3 ∧
    Set_ CaseFoldingHash 2 h3 "d" 4 = Some h4 ∧
    (wrap_int ((size (New : Table) + 1) * maximumLoad)
       >=? capacity (New : Table)) = false ∧
    (wrap_int ((size h1 + 1) * maximumLoad) >=? capacity h1) = false ∧
    (wrap_int ((size h2 + 1) * maximumLoad) >=? capacity h2) = false ∧
    (wrap_int ((size h3 + 1) * maximumLoad) >=? capacity h3) = true ∧
    (size h3 + 1) * 2 = 8 ∧
    Capacity h1 = 8 ∧ Capacity h2 = 8 ∧ Capacity h3 = 8 ∧ Size h3 = 3 ∧
    rehash CaseFoldingHash 1 h3 = Some h3' ∧
    Capacity h3' = 16 ∧ Size h3' = 3 ∧
    assign CaseFoldingHash h3' "d" 4 = Some h4 ∧
    Capacity h4 = 16 ∧ Size h4 = 4 ∧
    Get CaseFoldingHash h4 "a" = Some (1, true) ∧
    Get CaseFoldingHash h4 "b" = Some (2, true) ∧
    Get CaseFoldingHash h4 "c" = Some (3, true) ∧
    Get CaseFoldingHash h4 "d" = Some (4, true).
Proof.
  destruct (Set_fresh New "a" 1 Inv_New findable_New)
    as (h1 & HS1 & HI1 & HF1 & Hc1 & Hz1 & Hst1);
    [unfold New, initialCapacity; cbn; lia|apply stored_New|].
  eval_rhs Hc1. eval_rhs Hz1.
  destruct (Set_fresh h1 "b" 2 HI1 HF1) as (h2 & HS2 & HI2 & HF2 & Hc2 & Hz2 & Hst2);
    [lia| |].
  { intros v [[? _]|[_ Hs]]%Hst1; [done|]. by apply stored_New in Hs. }
  rewrite Hz1 in Hc2, Hz2. rewrite Hc1 in Hc2. eval_rhs Hc2. eval_rhs Hz2.
  destruct (Set_fresh h2 "c" 3 HI2 HF2) as (h3 & HS3 & HI3 & HF3 & Hc3 & Hz3 & Hst3);
    [lia| |].
  { intros v [[? _]|[_ [[? _]|[_ Hs]]%Hst1]]%Hst2; [done..|].
    by apply stored_New in Hs. }
  rewrite Hz2 in Hc3, Hz3. rewrite Hc2 in Hc3. eval_rhs Hc3. eval_rhs Hz3.
  destruct (Set_fresh h3 "d" 4 HI3 HF3) as (h4 & HS4 & HI4 & HF4 & Hc4 & Hz4 & Hst4);
    [lia| |].
  { intros v [[? _]|[_ [[? _]|[_ [[? _]|[_ Hs]]%Hst1]]%Hst2]]%Hst3; [done..|].
    by apply stored_New in Hs. }
  rewrite Hz3 in Hc4, Hz4. rewrite Hc3 in Hc4. eval_rhs Hc4. eval_rhs Hz4.
  destruct (rehash_spec CaseFoldingHash 0 h3 HI3 HF3)
    as (h3' & Hr & HI3' & HF3' & Hc3' & Hz3' & Hst3'); [lia|].
  assert (assign CaseFoldingHash h3' "d" 4 = Some h4) as Ha.
  { rewrite Set_rehash in HS4 by (done || lia). rewrite Hr in HS4. done. }
  exists h1, h2, h3, h3', h4. unfold Capacity, Size.
  rewrite Hz1, Hc1, Hz2, Hc2, Hz3, Hc3.
  split_and!; try done; try lia.
  - apply (Get_stored CaseFoldingHash); [done..|]. apply Hst4. right. split; [done|].
    apply Hst3. right. split; [done|]. apply Hst2. right. split; [done|].
    apply Hst1. by left.
  - apply (Get_stored CaseFoldingHash); [done..|]. apply Hst4. right. split; [done|].
    apply Hst3. right. split; [done|]. apply Hst2. by left.
  - apply (Get_stored CaseFoldingHash); [done..|]. apply Hst4. right. split; [done|].
    apply Hst3. by left.
  - apply (Get_stored CaseFoldingHash); [done..|]. apply Hst4. by left.
Qed.

End ScenarioA.

(** ** The long branch of [Hash] *)

Section RapidHash.

Import rapidhash rapidhash_spec.

Implicit Types (s p data : list byte).

Lemma le_word_take n m s : (n ≤ m)%nat → le_word n (take m s) = le_word n s.
Proof.
  revert m s. induction n as [|n IH]; intros m s Hnm.
  - by destruct (take m s), s.
  - destruct m as [|m]; [lia|]. destruct s as [|x s]; [done|].
    cbn. rewrite IH by lia. done.
Qed.

Lemma word_take s (a m : nat) : (a + 8 ≤ m)%nat → word (take m s) a = word s a.
Proof.
  intros Ham. unfold word.
  replace m with (a + (m - a))%nat by lia.
  rewrite <- take_drop_commute. apply le_word_take. lia.
Qed.

Lemma slice_Some s lo hi :
  0 ≤ lo → lo ≤ hi → hi ≤ Z.of_nat (length s) →
  slice s lo hi = Some (take (Z.to_nat (hi - lo)) (drop (Z.to_nat lo) s)).
Proof.
  intros H0 H1 H2. unfold slice.
  destruct (Z.leb_spec 0 lo); [|lia]. destruct (Z.leb_spec lo hi); [|lia].
  destruct (Z.leb_spec hi (Z.of_nat (length s))); [|lia]. done.
Qed.

Lemma slice_from_drop s lo :
  0 ≤ lo ≤ Z.of_nat (length s) →
  slice_from s lo = Some (drop (Z.to_nat lo) s).
Proof.
  intros Hlo. unfold slice_from. rewrite slice_Some by lia.
  rewrite take_ge; [done|]. rewrite length_drop. lia.
Qed.

(** The word read from an 8-byte slice. *)
Lemma Uint64_slice s lo hi :
  0 ≤ lo → hi = lo + 8 → hi ≤ Z.of_nat (length s) →
  slice s lo hi ≫= Uint64 = Some (word s (Z.to_nat lo)).
Proof.
  intros H0 -> H2. rewrite slice_Some by lia. cbn. unfold Uint64.
  replace (Z.to_nat (lo + 8 - lo)) with 8%nat by lia.
  rewrite length_take, length_drop.
  destruct (Z.ltb_spec (Z.of_nat (8 `min` (length s - Z.to_nat lo))) 4); [lia|].
  destruct (Z.ltb_spec (Z.of_nat (8 `min` (length s - Z.to_nat lo))) 8); [lia|].
  unfold word. now rewrite le_word_take.
Qed.

Lemma Uint64_slice_from s lo :
  0 ≤ lo → lo + 8 ≤ Z.of_nat (length s) →
  slice_from s lo ≫= Uint64 = Some (word s (Z.to_nat lo)).
Proof.
  intros H0 H2. rewrite slice_from_drop by lia. cbn. unfold Uint64.
  rewrite length_drop.
  destruct (Z.ltb_spec (Z.of_nat (length s - Z.to_nat lo)) 8); [lia|]. done.
Qed.

(** The body of the block loop reads the first 48 bytes of [p]. *)
Lemma block_body_spec p seed see1 see2 :
  48 ≤ Z.of_nat (length p) →
  block_body p seed see1 see2 = Some (mix_block (seed, see1, see2) (take 48 p)).
Proof.
  intros Hp. unfold block_body.
  do 6 (rewrite Uint64_slice by lia; cbn [mbind option_bind]).
  unfold mix_block. rewrite !word_take by (cbn; lia). done.
Qed.

(** The block loop entered with [i] bytes left runs [i / 48] times, which
    the fuel covers, and leaves [i mod 48] bytes. *)
Lemma block_loop_spec data n :
  Z.of_nat (length data) < 2 ^ 64 →
  ∀ fuel i seed see1 see2,
    0 ≤ i ≤ Z.of_nat (length data) → Z.to_nat (i / 48) = n → (n ≤ fuel)%nat →
    block_loop fuel data (Z.of_nat (length data)) seed see1 see2 i =
    Some (mix_blocks n (drop (Z.to_nat (Z.of_nat (length data) - i)) data)
                     (seed, see1, see2),
          i mod 48).
Proof.
  intros Hlen. induction n as [|n IH]; intros fuel i seed see1 see2 Hi Hn Hfuel.
  - assert (i < 48) as Hlt.
    { destruct (Z.lt_ge_cases i 48) as [|Hge]; [done|].
      pose proof (Z.div_le_mono 48 i 48 ltac:(lia) Hge) as Hd.
      rewrite Z.div_same in Hd by lia. lia. }
    rewrite Z.mod_small by lia.
    destruct fuel; cbn; destruct (Z.geb_spec i 48); (lia || done).
  - assert (48 ≤ i) as Hge.
    { destruct (Z.lt_ge_cases i 48) as [Hlt|]; [|done].
      rewrite Z.div_small in Hn by lia. done. }
    destruct fuel as [|fuel]; [lia|].
    cbn [block_loop]. destruct (Z.geb_spec i 48); [|lia].
    rewrite !wrap_uint64_small by lia.
    rewrite slice_from_drop by lia. cbn [mbind option_bind].
    rewrite block_body_spec by (rewrite length_drop; lia).
    cbn [mbind option_bind mix_blocks].
    destruct (mix_block _ _) as [[s0 s1] s2].
    assert ((i - 48) mod 48 = i mod 48 ∧ (i - 48) / 48 = i / 48 - 1) as [Hm Hd].
    { replace i with (i - 48 + 1 * 48) at 2 4 by lia.
      rewrite Z_mod_plus_full, Z.div_add by lia. lia. }
    rewrite (IH fuel (i - 48)); [|lia|lia|lia].
    rewrite drop_drop, Hm. do 3 f_equal. f_equal. lia.
Qed.

(** The passes over the [i] bytes that the block loop leaves. *)
Lemma tail_spec data seed i :
  Z.of_nat (length data) < 2 ^ 64 → 0 ≤ i ≤ Z.of_nat (length data) →
  tail data (Z.of_nat (length data)) seed i =
  Some (mix_tail (drop (Z.to_nat (Z.of_nat (length data) - i)) data) seed).
Proof.
  intros Hlen Hi. unfold tail, mix_tail.
  rewrite length_drop.
  replace (Z.of_nat (length data - Z.to_nat (Z.of_nat (length data) - i)))
    with i by lia.
  destruct (Z.gtb_spec i 16) as [H16|H16]; [|done].
  rewrite wrap_uint64_small by lia.
  rewrite slice_from_drop by lia. cbn [mbind option_bind].
  rewrite (Uint64_slice _ 0 8) by (rewrite ?length_drop; lia).
  cbn [mbind option_bind].
  rewrite (Uint64_slice _ 8 16) by (rewrite ?length_drop; lia).
  cbn [mbind option_bind].
  destruct (Z.gtb_spec i 32) as [H32|H32]; [|done].
  do 2 (rewrite Uint64_slice by (rewrite ?length_drop; lia);
        cbn [mbind option_bind]).
  done.
Qed.

(** C7, as the code has it: a long input runs the block loop only when it
    has more than 48 bytes, then [length / 48] times from the front; the
    three seeds are folded together; the tail passes run over what is
    left, which for inputs of up to 48 bytes is the whole input. *)
Theorem Hash_long_blocks data seed :
  16 < Z.of_nat (length data) < 2 ^ 64 →
  Hash data seed = Some (Hash_long count_guarded data seed).
Proof.
  intros Hlen. unfold Hash, Hash_long.
  rewrite wrap_uint64_small by lia.
  set (len := Z.of_nat (length data)) in *.
  set (seed0 := Z.lxor seed (Z.lxor (Mix (Z.lxor seed (secret 0)) (secret 1)) len)).
  destruct (Z.leb_spec len 16) as [|_]; [lia|].
  assert (blocks data len seed0 =
          let '(s, s1, s2) :=
            mix_blocks (Z.to_nat (count_guarded len)) data (seed0, seed0, seed0) in
          Some (Z.lxor s (Z.lxor s1 s2), len - 48 * count_guarded len))
    as Hblocks.
  { unfold blocks, count_guarded. destruct (Z.gtb_spec len 48) as [H48|H48].
    - unfold len. rewrite (block_loop_spec data (Z.to_nat (len / 48))); try done.
      + fold len. rewrite Z.sub_diag. change (Z.to_nat 0) with 0%nat.
        cbn [drop mbind option_bind].
        destruct (mix_blocks _ _ _) as [[s s1] s2].
        do 2 f_equal. pose proof (Z.div_mod len 48). lia.
      + lia.
      + fold len. lia.
      + fold len.
        assert (len / 48 ≤ len) by (apply Z.div_le_upper_bound; lia). lia.
    - change (Z.to_nat 0) with 0%nat. cbn [mix_blocks].
      rewrite Z.lxor_nilpotent, Z.lxor_0_r, Z.mul_0_r, Z.sub_0_r. done. }
  rewrite Hblocks.
  assert (0 ≤ count_guarded len ∧ 48 * count_guarded len ≤ len) as [Hc0 Hc1].
  { unfold count_guarded. destruct (Z.gtb_spec len 48); [|lia].
    pose proof (Z.div_mod len 48). pose proof (Z.mod_pos_bound len 48).
    assert (0 ≤ len / 48) by (apply Z.div_pos; lia). lia. }
  destruct (mix_blocks _ _ _) as [[s s1] s2]. cbn [mbind option_bind].
  unfold len at 1. rewrite tail_spec by (fold len; lia).
  cbn [mbind option_bind]. fold len.
  rewrite wrap_uint64_small by lia. rewrite wrap_uint64_small by lia.
  rewrite Uint64_slice by lia. cbn [mbind option_bind].
  rewrite Uint64_slice_from by lia. cbn [mbind option_bind].
  do 2 f_equal.
  - f_equal. unfold len. lia.
  - f_equal. unfold len. lia.
  - do 2 f_equal. unfold len. lia.
Qed.

Lemma Hash_long_blocks_witness :
  16 < Z.of_nat (length (replicate 49 "000"%byte)) < 2 ^ 64 ∧
  Hash (replicate 49 "000"%byte) SEED =
  Some (Hash_long count_guarded (replicate 49 "000"%byte) SEED).
Proof.
  split; [cbn; lia|].
  apply (Hash_long_blocks (replicate 49 "000"%byte) SEED). cbn. lia.
Defined.

(** C7, as the claim states it, fails on 48 zero bytes: [Hash] runs no
    block pass on them, and its result is not the one of a block pass
    followed by no tail pass. *)
Lemma Hash_48_no_block :
  blocks (replicate 48 "000"%byte) 48 5 = Some (5, 48) ∧
  Hash (replicate 48 "000"%byte) SEED ≠
  Some (Hash_long count_claimed (replicate 48 "000"%byte) SEED).
Proof. split; [reflexivity|]. vm_compute. discriminate. Qed.

End RapidHash.

(** * More of the table, for the strict key types *)

(** ** Strict key types: the slot that [Set] and [Delete] write *)

Section StrictSteps.

Context (CaseFoldingHash : string → Z).
Context {K V : Type} `{!GoKey K} `{!StrictKey K} `{!GoZero V}.
Implicit Types (h : HashMap K V) (key : K) (value : V).



End StrictSteps.

(** ** Strict key types: [Set], [Get] and [Delete] on reachable tables *)

Section StrictReachable.

Context (CaseFoldingHash : string → Z).
Context {K V : Type} `{!GoKey K} `{!StrictKey K} `{!GoZero V}.
Implicit Types (h : HashMap K V) (key : K) (value : V).





End StrictReachable.

(** ** Strict key types: tables without [Delete], and what [rehash] restores *)

Section Contents.

Context (CaseFoldingHash : string → Z).
Context {K V : Type} `{!GoKey K} `{!StrictKey K} `{!GoZero V}.
Implicit Types (h : HashMap K V) (key : K) (value : V).

Lemma pairs_keys_NoDup (l : list (option (Pair K V))) :
  (∀ (i j : nat) p q, l !! i = Some (Some p) → l !! j = Some (Some q) →
                      Key p = Key q → i = j) →
  NoDup ((pairs l).*1).
Proof.
  induction l as [|[p|] l IH]; intros Huniq.
  - constructor.
  - change (pairs (Some p :: l)) with ((Key p, Value p) :: pairs l).
    rewrite fmap_cons. apply NoDup_cons. split.
    + intros ([k v] & Hk & Hin)%list_elem_of_fmap. cbn in Hk. subst k.
      apply elem_of_pairs in Hin as [i Hi].
      specialize (Huniq O (S i) p _ eq_refl Hi eq_refl). done.
    + apply IH. intros i j p' q Hi Hj Hk.
      specialize (Huniq (S i) (S j) p' q Hi Hj Hk). lia.
  - apply IH. intros i j p' q Hi Hj Hk.
    specialize (Huniq (S i) (S j) p' q Hi Hj Hk). lia.
Qed.

Lemma findable_keys_NoDup h :
  findable CaseFoldingHash h → NoDup ((Iter_all h).*1).
Proof.
  intros HF. rewrite Iter_all_pairs. apply pairs_keys_NoDup.
  intros i j p q Hi Hj Hk.
  by eapply (findable_unique CaseFoldingHash h).
Qed.

(** In a table where every stored key is found, the pairs of the
    iteration are what [Get] finds. *)
Lemma findable_Get_Iter h key value :
  Inv h → findable CaseFoldingHash h →
  Get CaseFoldingHash h key = Some (value, true) ↔ (key, value) ∈ Iter_all h.
Proof. intros HI HF. rewrite <- stored_Iter. by apply Get_stored. Qed.

(** X10: on a strict key type, in a table that has seen no [Delete],
    [Get(key)] finds a value exactly when the iteration yields the pair,
    it returns the zero value and [false] when the iteration yields no
    pair of the key, and no key is yielded twice. *)
Theorem insert_only_Get_Iter h key :
  insert_only CaseFoldingHash h →
  (∀ value, Get CaseFoldingHash h key = Some (value, true) ↔
            (key, value) ∈ Iter_all h) ∧
  (key ∉ (Iter_all h).*1 → Get CaseFoldingHash h key = Some (zero, false)) ∧
  NoDup ((Iter_all h).*1).
Proof.
  intros Hio.
  destruct (insert_only_findable CaseFoldingHash h Hio) as [HI HF]. split_and!.
  - intros value. by apply findable_Get_Iter.
  - intros Hno. apply (Get_not_stored CaseFoldingHash); [done|].
    intros v Hs%stored_Iter. apply Hno.
    apply list_elem_of_fmap. exists (key, v). done.
  - by apply findable_keys_NoDup.
Qed.

(** X11: on a strict key type, in a table that has seen no [Delete],
    [Set(key, value)] makes [Get(key)] return the value and leaves what
    [Get] returns for every other key. *)
Theorem insert_only_round_trip h key value h' :
  insert_only CaseFoldingHash h →
  Set_ CaseFoldingHash 2 h key value = Some h' →
  ∀ k, Get CaseFoldingHash h' k =
       if decide (k = key) then Some (value, true) else Get CaseFoldingHash h k.
Proof.
  intros Hio HS.
  destruct (insert_only_findable CaseFoldingHash h Hio) as [HI HF].
  by destruct (Set_findable CaseFoldingHash h key value h' HI HF HS) as (_ & _ & HG).
Qed.

(** The loop of [rehash] from a table where every stored key is found:
    every stored key is found in the result, every key of the old slots
    is stored, and every pair stored comes from the table or from an old
    slot. *)
Lemma rehash_loop_findable fuel (l : list (option (Pair K V))) :
  ∀ h0, Inv h0 → findable CaseFoldingHash h0 →
        (size h0 + Z.of_nat (occupied l)) * 2 < capacity h0 →
        ∃ h1, foldl (reinsert (Set_ CaseFoldingHash (S fuel))) (Some h0) l
                = Some h1 ∧
              Inv h1 ∧ findable CaseFoldingHash h1 ∧
              capacity h1 = capacity h0 ∧
              (∀ k v, stored h1 k v →
                      stored h0 k v ∨
                      ∃ i : nat, l !! i = Some (Some {| Key := k; Value := v |})) ∧
              (∀ k, ((∃ v, stored h0 k v) ∨
                     ∃ (i : nat) p, l !! i = Some (Some p) ∧ Key p = k) →
                    ∃ v, stored h1 k v).
Proof.
  induction l as [|[p|] l IH]; intros h0 HI HF Hload; simpl in Hload.
  - exists h0. split_and!; try done.
    + intros k v Hs. by left.
    + intros k [Hs|(i & p & Hi & _)]; done.
  - cbn [foldl reinsert mbind option_bind].
    rewrite Set_no_rehash by (done || lia).
    destruct (assign_spec CaseFoldingHash h0 (Key p) (Value p) HI HF)
      as (h' & Ha & HI' & HF' & Hcap & Hsz & Hst); [lia|].
    rewrite Ha.
    destruct (IH h' HI' HF') as (h1 & H1 & HI1 & HF1 & Hc1 & Hfrom & Hkeys).
    { rewrite Hcap, Hsz. destruct (Contains _ _ _) as [[|]|]; lia. }
    exists h1. split_and!; try done; try congruence.
    + intros k v [[[-> ->]|[_ Hs]]%Hst|(i & Hi)]%Hfrom.
      * right. exists O. destruct p. done.
      * by left.
      * right. exists (S i). done.
    + intros k Hk. apply Hkeys.
      destruct (decide (k = Key p)) as [->|Hne].
      { left. exists (Value p). apply Hst. by left. }
      destruct Hk as [[v Hs]|(i & q & Hi & Hq)].
      * left. exists v. apply Hst. by right.
      * destruct i as [|i]; [cbn in Hi; congruence|].
        right. exists i, q. done.
  - cbn [foldl reinsert mbind option_bind].
    destruct (IH h0 HI HF Hload) as (h1 & H1 & HI1 & HF1 & Hc1 & Hfrom & Hkeys).
    exists h1. split_and!; try done.
    + intros k v [Hs|(i & Hi)]%Hfrom; [by left|]. right. exists (S i). done.
    + intros k Hk. apply Hkeys. destruct Hk as [Hs|(i & q & Hi & Hq)]; [by left|].
      destruct i as [|i]; [done|]. right. exists i, q. done.
Qed.

(** A [Set] that rehashes returns a table where every stored key is
    found and which stores every key that was stored before. *)
Lemma Set_rehash_findable fuel h key value h' :
  Inv h →
  capacity h ≤ (size h + 1) * 2 →
  Set_ CaseFoldingHash fuel h key value = Some h' →
  capacity h' = capacity h * 2 ∧ Inv h' ∧ findable CaseFoldingHash h' ∧
  ∀ k, k ∈ (Iter_all h).*1 → ∃ v, stored h' k v.
Proof.
  intros HI Hre HS.
  pose proof (Inv_bounds h HI) as (Hc & Hlen & Hsz & Hload).
  destruct (Set_cases CaseFoldingHash fuel h key value h' HI HS)
    as (h1 & HI1 & Hload1 & Ha & _ & [[? _]|(_ & Hr & Hc1)]); [lia|].
  assert (capacity h < 2 ^ 62) as Hlt.
  { destruct (decide (capacity h = 2 ^ 62)) as [Heq|]; [|lia].
    unfold rehash, rehash_with in Hr. rewrite Heq in Hr. done. }
  unfold rehash, rehash_with in Hr. rewrite wrap_int_small in Hr by lia.
  unfold make in Hr. destruct (Z.ltb_spec (capacity h * 2) 0); [lia|].
  cbn [mbind option_bind] in Hr.
  destruct (rehash_loop_findable 0 (table h) _ (Inv_make h HI Hlt))
    as (h1' & H1 & _ & HF1 & _ & _ & Hkeys).
  { intros idx p Hp. by apply slot_fresh in Hp. }
  { destruct HI as (k & _ & _ & _ & Ho & _). cbn. lia. }
  assert (h1' = h1) as -> by congruence.
  destruct (assign_spec CaseFoldingHash h1 key value HI1 HF1 Hload1)
    as (h2 & Ha' & HI2 & HF2 & Hc2 & _ & Hst).
  assert (h2 = h') as -> by congruence.
  split_and!; try done; try congruence.
  intros k ([k' v] & -> & Hin)%list_elem_of_fmap. cbn.
  apply stored_Iter in Hin as (idx & [Hidx _]%slot_to_nat).
  destruct (decide (k' = key)) as [->|Hne].
  - exists value. apply Hst. by left.
  - destruct (Hkeys k') as [v1 Hs1].
    { right. exists (Z.to_nat idx), {| Key := k'; Value := v |}. done. }
    exists v1. apply Hst. by right.
Qed.

(** X12: on a strict key type a [Set] that rehashes repairs the table:
    afterwards every pair that the iteration yields is found by [Get], no
    key is yielded twice, and every key that the iteration yielded before
    the call is found, also a key that an earlier [Delete] of another key
    had made unreachable. *)
Theorem Set_rehash_restores fuel h key value h' :
  reachable CaseFoldingHash h →
  Capacity h ≤ (Size h + 1) * 2 →
  Set_ CaseFoldingHash fuel h key value = Some h' →
  Capacity h' = Capacity h * 2 ∧
  (∀ k v, (k, v) ∈ Iter_all h' → Get CaseFoldingHash h' k = Some (v, true)) ∧
  NoDup ((Iter_all h').*1) ∧
  (∀ k, k ∈ (Iter_all h).*1 → Contains CaseFoldingHash h' k = Some true).
Proof.
  intros HI%Inv_reachable Hre HS. unfold Capacity, Size in *.
  destruct (Set_rehash_findable fuel h key value h' HI Hre HS)
    as (Hcap & HI' & HF' & Hkeys).
  split_and!; try done.
  - intros k v Hin. by apply findable_Get_Iter.
  - by apply findable_keys_NoDup.
  - intros k [v Hs]%Hkeys.
    destruct (Get_cases CaseFoldingHash h' k HI' HF')
      as [(_ & _ & _ & HC)|(Hno & _)]; [done|].
    by apply Hno in Hs.
Qed.


End Contents.

(** ** The slots that a search visits *)

Section Probes.

Context {K V : Type}.
Implicit Types (h : HashMap K V).

(** X17: on a reachable table, whatever the initial index, the update
    [idx = (idx + count) & (capacity - 1)] of [find] takes the search
    through every slot of the bucket array exactly once in its [capacity]
    probes. *)
Theorem probes_visit_every_slot (CaseFoldingHash : string → Z)
    `{!GoKey K} `{!GoZero V} h init e :
  reachable CaseFoldingHash h →
  0 ≤ e < Capacity h →
  (∀ n, Z.land (triangular (Capacity h) init n + (n + 1)) (Capacity h - 1) =
        triangular (Capacity h) init (n + 1)) ∧
  ∃ n, 0 ≤ n < Capacity h ∧ triangular (Capacity h) init n = e ∧
       ∀ m, 0 ≤ m < Capacity h → triangular (Capacity h) init m = e → m = n.
Proof.
  intros HI%Inv_reachable He. unfold Capacity in *. split.
  - intros n. by apply triangular_step.
  - destruct (triangular_surj h init e HI He) as (n & Hn & Htri).
    exists n. split; [done|]. split; [done|].
    intros m Hm Heq. rewrite <- Htri in Heq.
    unfold triangular in Heq. rewrite !mask_mod in Heq by done.
    destruct HI as (k & Hk & Hcap & _). rewrite Hcap in *.
    destruct (Z.lt_trichotomy m n) as [Hlt|[->|Hlt]]; [|done|].
    + exfalso. apply (triangular_inj k init m n); [lia..|done].
    + exfalso. apply (triangular_inj k init n m); [lia..|done].
Qed.

(** X18: on a reachable table the index of a 32-bit hash is the hash
    modulo the capacity, a slot of the bucket array. *)
Theorem index_mod (CaseFoldingHash : string → Z)
    `{!GoKey K} `{!GoZero V} h x :
  reachable CaseFoldingHash h →
  0 ≤ x < 2 ^ 32 →
  index h x = x mod Capacity h ∧ 0 ≤ index h x < Capacity h.
Proof.
  intros HI%Inv_reachable Hx. unfold Capacity.
  rewrite index_mask, mask_mod by done.
  split; [done|]. apply Z.mod_pos_bound.
  pose proof (Inv_bounds h HI). lia.
Qed.

End Probes.

(** * More of the hash *)

Section HashBounds.

Import rapidhash rapidhash_spec.

Implicit Types (data : list byte).

Lemma land_lxor_distr a b c :
  Z.land (Z.lxor a b) c = Z.lxor (Z.land a c) (Z.land b c).
Proof.
  apply Z.bits_inj'. intros n Hn.
  rewrite !Z.land_spec, !Z.lxor_spec, !Z.land_spec.
  by destruct (Z.testbit a n), (Z.testbit b n), (Z.testbit c n).
Qed.

Lemma land_lor_distr a b c :
  Z.land (Z.lor a b) c = Z.lor (Z.land a c) (Z.land b c).
Proof.
  apply Z.bits_inj'. intros n Hn.
  rewrite !Z.land_spec, !Z.lor_spec, !Z.land_spec.
  by destruct (Z.testbit a n), (Z.testbit b n), (Z.testbit c n).
Qed.

Lemma lxor_range n a b :
  0 ≤ n → 0 ≤ a < 2 ^ n → 0 ≤ b < 2 ^ n → 0 ≤ Z.lxor a b < 2 ^ n.
Proof.
  intros Hn Ha Hb.
  assert (Z.lxor a b = Z.lxor a b mod 2 ^ n) as ->.
  { rewrite <- !land_mask by done. rewrite land_lxor_distr.
    rewrite !land_mask by done. now rewrite !Z.mod_small. }
  apply Z.mod_pos_bound. lia.
Qed.

Lemma lor_range n a b :
  0 ≤ n → 0 ≤ a < 2 ^ n → 0 ≤ b < 2 ^ n → 0 ≤ Z.lor a b < 2 ^ n.
Proof.
  intros Hn Ha Hb.
  assert (Z.lor a b = Z.lor a b mod 2 ^ n) as ->.
  { rewrite <- !land_mask by done. rewrite land_lor_distr.
    rewrite !land_mask by done. now rewrite !Z.mod_small. }
  apply Z.mod_pos_bound. lia.
Qed.

Lemma byte_to_Z_range (b : byte) : 0 ≤ byte_to_Z b < 2 ^ 8.
Proof.
  unfold byte_to_Z. pose proof (Byte.to_N_bounded b). lia.
Qed.

Lemma le_word_range n (s : list byte) : 0 ≤ le_word n s < 2 ^ (8 * Z.of_nat n).
Proof.
  revert s. induction n as [|n IH]; intros s.
  - destruct s; cbn; lia.
  - destruct s as [|x s]; [cbn [le_word]; lia|].
    cbn [le_word]. specialize (IH s). pose proof (byte_to_Z_range x).
    replace (8 * Z.of_nat (S n)) with (8 * Z.of_nat n + 8) by lia.
    assert (2 ^ 8 ≤ 2 ^ (8 * Z.of_nat n + 8)) by (apply Z.pow_le_mono_r; lia).
    apply lor_range; [lia|lia|].
    rewrite Z.shiftl_mul_pow2 by lia. rewrite Z.pow_add_r by lia. nia.
Qed.

Lemma word_range (s : list byte) off : 0 ≤ word s off < 2 ^ 64.
Proof. apply (le_word_range 8). Qed.

Lemma secret_range i : 0 ≤ secret i < 2 ^ 64.
Proof. unfold secret. destruct i as [|[| |]|]; lia. Qed.

Lemma Mix_range a b :
  0 ≤ a < 2 ^ 64 → 0 ≤ b < 2 ^ 64 → 0 ≤ Mix a b < 2 ^ 64.
Proof.
  intros Ha Hb. unfold Mix, Mul128, Mul64.
  apply lxor_range; [lia| |].
  - apply Z.mod_pos_bound. lia.
  - split; [apply Z.div_pos; nia|].
    apply Z.div_lt_upper_bound; [lia|]. nia.
Qed.

Lemma finish_range a b seed length :
  0 ≤ a < 2 ^ 64 → 0 ≤ b < 2 ^ 64 → 0 ≤ seed < 2 ^ 64 → 0 ≤ length < 2 ^ 64 →
  0 ≤ finish a b seed length < 2 ^ 64.
Proof.
  intros Ha Hb Hs Hl. unfold finish, Mul128, Mul64.
  pose proof (secret_range 0). pose proof (secret_range 1).
  pose proof (lxor_range 64 a (secret 1) ltac:(lia) Ha ltac:(done)) as Hx.
  pose proof (lxor_range 64 b seed ltac:(lia) Hb Hs) as Hy.
  apply Mix_range.
  - apply lxor_range; [lia| |done]. apply lxor_range; [lia| |done].
    apply Z.mod_pos_bound. lia.
  - apply lxor_range; [lia| |done].
    split; [apply Z.div_pos; nia|].
    apply Z.div_lt_upper_bound; [lia|]. nia.
Qed.

Lemma mix_block_range s0 s1 s2 blk :
  0 ≤ s0 < 2 ^ 64 → 0 ≤ s1 < 2 ^ 64 → 0 ≤ s2 < 2 ^ 64 →
  let '(t0, t1, t2) := mix_block (s0, s1, s2) blk in
  0 ≤ t0 < 2 ^ 64 ∧ 0 ≤ t1 < 2 ^ 64 ∧ 0 ≤ t2 < 2 ^ 64.
Proof.
  intros H0 H1 H2. cbn [mix_block].
  split_and!; apply Mix_range; apply lxor_range;
    auto using word_range, secret_range; lia.
Qed.

Lemma mix_blocks_range n :
  ∀ data s0 s1 s2,
    0 ≤ s0 < 2 ^ 64 → 0 ≤ s1 < 2 ^ 64 → 0 ≤ s2 < 2 ^ 64 →
    let '(t0, t1, t2) := mix_blocks n data (s0, s1, s2) in
    0 ≤ t0 < 2 ^ 64 ∧ 0 ≤ t1 < 2 ^ 64 ∧ 0 ≤ t2 < 2 ^ 64.
Proof.
  induction n as [|n IH]; intros data s0 s1 s2 H0 H1 H2; [done|].
  cbn [mix_blocks].
  pose proof (mix_block_range s0 s1 s2 (take 48 data) H0 H1 H2) as Hb.
  destruct (mix_block _ _) as [[t0 t1] t2]. destruct Hb as (? & ? & ?).
  by apply IH.
Qed.

Lemma mix_tail_range (rest : list byte) seed :
  0 ≤ seed < 2 ^ 64 → 0 ≤ mix_tail rest seed < 2 ^ 64.
Proof.
  intros Hs. unfold mix_tail.
  assert (0 ≤ Mix (Z.lxor (word rest 0) (secret 2))
                  (Z.lxor (Z.lxor (word rest 8) seed) (secret 1)) < 2 ^ 64) as Hm.
  { apply Mix_range; repeat apply lxor_range;
      auto using word_range, secret_range; lia. }
  destruct (_ >? 16); [|done]. destruct (_ >? 32); [|done].
  apply Mix_range; apply lxor_range; auto using word_range, secret_range; lia.
Qed.

(** The block phase of a long input returns, with [i] bytes left. *)
Lemma blocks_Some data seed :
  Z.of_nat (length data) < 2 ^ 64 →
  ∃ s i, blocks data (Z.of_nat (length data)) seed = Some (s, i) ∧
         0 ≤ i ≤ Z.of_nat (length data) ∧
         (0 ≤ seed < 2 ^ 64 → 0 ≤ s < 2 ^ 64).
Proof.
  intros Hlen. unfold blocks.
  set (len := Z.of_nat (length data)) in *.
  destruct (Z.gtb_spec len 48) as [H48|H48].
  - unfold len. rewrite (block_loop_spec data (Z.to_nat (len / 48))); try done.
    + fold len. rewrite Z.sub_diag. change (Z.to_nat 0) with 0%nat.
      cbn [drop mbind option_bind].
      pose proof (mix_blocks_range (Z.to_nat (len / 48)) data seed seed seed) as Hr.
      destruct (mix_blocks _ _ _) as [[s0 s1] s2].
      eexists _, _. split; [done|]. split.
      * pose proof (Z.mod_pos_bound len 48). pose proof (Z.div_mod len 48).
        assert (0 ≤ len / 48) by (apply Z.div_pos; lia). lia.
      * intros Hs. destruct Hr as (? & ? & ?); [done..|].
        repeat apply lxor_range; (done || lia).
    + lia.
    + fold len.
      assert (0 ≤ len / 48) by (apply Z.div_pos; lia).
      assert (len / 48 ≤ len) by (apply Z.div_le_upper_bound; lia). lia.
  - eexists _, _. split; [done|]. split; [lia|done].
Qed.

Lemma Uint32_slice (s : list byte) lo hi :
  0 ≤ lo → hi = lo + 4 → hi ≤ Z.of_nat (length s) →
  slice s lo hi ≫= Uint32 = Some (le_word 4 (drop (Z.to_nat lo) s)).
Proof.
  intros H0 -> H2. rewrite slice_Some by lia. cbn. unfold Uint32.
  replace (Z.to_nat (lo + 4 - lo)) with 4%nat by lia.
  rewrite length_take, length_drop.
  destruct (Z.ltb_spec (Z.of_nat (4 `min` (length s - Z.to_nat lo))) 4); [lia|].
  now rewrite le_word_take.
Qed.

Lemma Uint32_slice_from (s : list byte) lo :
  0 ≤ lo → lo + 4 ≤ Z.of_nat (length s) →
  slice_from s lo ≫= Uint32 = Some (le_word 4 (drop (Z.to_nat lo) s)).
Proof.
  intros H0 H2. rewrite slice_from_drop by lia. cbn. unfold Uint32.
  rewrite length_drop.
  destruct (Z.ltb_spec (Z.of_nat (length s - Z.to_nat lo)) 4); [lia|]. done.
Qed.

Lemma byte_at_Some (s : list byte) i :
  0 ≤ i < Z.of_nat (length s) →
  ∃ b, byte_at s i = Some b ∧ 0 ≤ b < 2 ^ 8.
Proof.
  intros Hi. unfold byte_at. destruct (Z.ltb_spec i 0); [lia|].
  destruct (lookup_lt_is_Some_2 s (Z.to_nat i)) as [x Hx]; [lia|].
  rewrite Hx. cbn. eauto using byte_to_Z_range.
Qed.

(** The offset of the second window of a short input. *)
Lemma delta_bounds n :
  4 ≤ n ≤ 16 →
  0 ≤ Z.shiftr (Z.land n 24) (Z.shiftr n 3) ∧
  Z.shiftr (Z.land n 24) (Z.shiftr n 3) + 4 ≤ n.
Proof.
  intros Hn.
  assert (n = 4 ∨ n = 5 ∨ n = 6 ∨ n = 7 ∨ n = 8 ∨ n = 9 ∨ n = 10 ∨ n = 11 ∨
          n = 12 ∨ n = 13 ∨ n = 14 ∨ n = 15 ∨ n = 16) as Hcases by lia.
  repeat (destruct Hcases as [->|Hcases]; [vm_compute; split; discriminate|]).
  subst n. vm_compute. split; discriminate.
Qed.

Lemma shl64_range x n : 0 ≤ shl64 x n < 2 ^ 64.
Proof. unfold shl64, wrap_uint64. apply Z.mod_pos_bound. lia. Qed.

(** [Hash] returns on every input: it ends in [finish], applied to two
    64-bit words and to a seed that is 64-bit when the seed given is. *)
Lemma Hash_shape data seed :
  Z.of_nat (length data) < 2 ^ 64 →
  ∃ a b s,
    Hash data seed = Some (finish a b s (Z.of_nat (length data))) ∧
    0 ≤ a < 2 ^ 64 ∧ 0 ≤ b < 2 ^ 64 ∧
    (0 ≤ seed < 2 ^ 64 → 0 ≤ s < 2 ^ 64).
Proof.
  intros Hlen. unfold Hash. rewrite wrap_uint64_small by lia.
  set (len := Z.of_nat (length data)) in *.
  set (seed0 := Z.lxor seed (Z.lxor (Mix (Z.lxor seed (secret 0)) (secret 1)) len)).
  assert (0 ≤ seed < 2 ^ 64 → 0 ≤ seed0 < 2 ^ 64) as Hseed0.
  { intros Hs. unfold seed0. pose proof (secret_range 0). pose proof (secret_range 1).
    apply lxor_range; [lia|done|]. apply lxor_range; [lia| |lia].
    apply Mix_range; [|done]. apply lxor_range; (done || lia). }
  destruct (Z.leb_spec len 16) as [H16|H16].
  - destruct (Z.geb_spec len 4) as [H4|H4].
    + pose proof (delta_bounds len ltac:(lia)) as [Hd0 Hd1].
      set (delta := Z.shiftr (Z.land len 24) (Z.shiftr len 3)) in *.
      rewrite (Uint32_slice data 0 4) by lia. cbn [mbind option_bind].
      rewrite (wrap_uint64_small (len - 4)) by lia.
      rewrite Uint32_slice_from by lia. cbn [mbind option_bind].
      rewrite (wrap_uint64_small (delta + 4)) by lia.
      rewrite (Uint32_slice data delta) by lia. cbn [mbind option_bind].
      rewrite (wrap_uint64_small (len - 4 - delta)) by lia.
      rewrite (wrap_uint64_small (len - delta)) by lia.
      rewrite (Uint32_slice data (len - 4 - delta)) by lia.
      cbn [mbind option_bind].
      eexists _, _, _. split; [done|]. split; [|split; [|done]].
      * apply lor_range; [lia|apply shl64_range|].
        pose proof (le_word_range 4 (drop (Z.to_nat (len - 4)) data)). lia.
      * apply lor_range; [lia|apply shl64_range|].
        pose proof (le_word_range 4 (drop (Z.to_nat (len - 4 - delta)) data)). lia.
    + destruct (Z.gtb_spec len 0) as [H0|H0].
      * destruct (byte_at_Some data 0) as (d0 & -> & Hb0); [lia|].
        cbn [mbind option_bind].
        destruct (byte_at_Some data (Z.shiftr len 1)) as (d1 & -> & Hb1).
        { rewrite Z.shiftr_div_pow2 by lia. change (2 ^ 1) with 2.
          split; [apply Z.div_pos; lia|]. apply Z.div_lt_upper_bound; lia. }
        cbn [mbind option_bind].
        rewrite wrap_uint64_small by lia.
        destruct (byte_at_Some data (len - 1)) as (d2 & -> & Hb2); [lia|].
        cbn [mbind option_bind].
        eexists _, _, _. split; [done|]. split; [|split; [lia|done]].
        apply lor_range; [lia| |lia].
        apply lor_range; [lia|apply shl64_range..].
      * cbn [mbind option_bind]. eexists _, _, _. split; [done|].
        split; [lia|]. split; [lia|done].
  - destruct (blocks_Some data seed0 Hlen) as (s1 & i & Hb & Hi & Hs1).
    fold len in Hb, Hi. rewrite Hb. cbn [mbind option_bind].
    unfold len at 1. rewrite tail_spec by (fold len; lia).
    cbn [mbind option_bind]. fold len.
    rewrite (wrap_uint64_small (len - 16)), (wrap_uint64_small (len - 8)) by lia.
    rewrite Uint64_slice by lia. cbn [mbind option_bind].
    rewrite Uint64_slice_from by lia. cbn [mbind option_bind].
    eexists _, _, _. split; [done|].
    split; [apply word_range|]. split; [apply word_range|].
    intros Hs. apply mix_tail_range. auto.
Qed.

(** X19: [Hash] panics on no input: every slice and every byte it reads
    lies within the data, whatever the length. *)
Theorem Hash_no_panic data seed :
  Z.of_nat (length data) < 2 ^ 64 →
  is_Some (Hash data seed).
Proof.
  intros Hlen. destruct (Hash_shape data seed Hlen) as (a & b & s & -> & _).
  eauto.
Qed.

(** X20: for a 64-bit seed the value of [Hash] is a 64-bit value: no
    intermediate result of the mixing leaves the range of [uint64]. *)
Theorem Hash_range data seed r :
  Z.of_nat (length data) < 2 ^ 64 → 0 ≤ seed < 2 ^ 64 →
  Hash data seed = Some r →
  0 ≤ r < 2 ^ 64.
Proof.
  intros Hlen Hseed Hr.
  destruct (Hash_shape data seed Hlen) as (a & b & s & Hh & Ha & Hb & Hs).
  rewrite Hh in Hr. injection Hr as <-.
  apply finish_range; auto. lia.
Qed.

(** X21: [ComputeHashAndMaskTop8Bits] returns on every input a code that
    is not zero and has its top 8 bits clear. *)
Theorem ComputeHashAndMaskTop8Bits_code data seed :
  Z.of_nat (length data) < 2 ^ 64 →
  ∃ code, stringhasher.ComputeHashAndMaskTop8Bits data seed = Some code ∧
          0 < code < 2 ^ 24.
Proof.
  intros Hlen. unfold stringhasher.ComputeHashAndMaskTop8Bits.
  destruct (Hash_shape data seed Hlen) as (a & b & s & -> & _).
  generalize (finish a b s (Z.of_nat (length data))). intros r.
  exists (stringhasher.MaskTop8Bits r). split; [done|].
  rewrite MaskTop8Bits_unfold.
  pose proof (Z.mod_pos_bound r (2 ^ 24) ltac:(lia)) as Hm.
  rewrite (land_mask _ 24) by lia.
  destruct (Z.eqb_spec (r mod 2 ^ 24) 0); lia.
Qed.

(** X22: the 24-bit code depends only on the low 24 bits of the hash,
    masking a code again changes nothing, and two hashes get the same
    code exactly when their low 24 bits agree or are both one of 0 and
    [2^23], the value that stands in for 0. *)
Theorem MaskTop8Bits_collisions (h1 h2 : Z) :
  stringhasher.MaskTop8Bits (stringhasher.MaskTop8Bits h1) =
    stringhasher.MaskTop8Bits h1 ∧
  stringhasher.MaskTop8Bits (h1 mod 2 ^ 24) = stringhasher.MaskTop8Bits h1 ∧
  (stringhasher.MaskTop8Bits h1 = stringhasher.MaskTop8Bits h2 ↔
   h1 mod 2 ^ 24 = h2 mod 2 ^ 24 ∨
   (h1 mod 2 ^ 24 = 0 ∨ h1 mod 2 ^ 24 = 2 ^ 23) ∧
   (h2 mod 2 ^ 24 = 0 ∨ h2 mod 2 ^ 24 = 2 ^ 23)).
Proof.
  rewrite !MaskTop8Bits_unfold, !(land_mask _ 24) by lia.
  pose proof (Z.mod_pos_bound h1 (2 ^ 24) ltac:(lia)) as H1.
  pose proof (Z.mod_pos_bound h2 (2 ^ 24) ltac:(lia)) as H2.
  rewrite (Z.mod_mod h1) by lia.
  split_and!; [|done|].
  - destruct (Z.eqb_spec (h1 mod 2 ^ 24) 0) as [Hz|Hz].
    + change (2 ^ 23 mod 2 ^ 24) with (2 ^ 23). done.
    + rewrite (Z.mod_mod h1) by lia.
      destruct (Z.eqb_spec (h1 mod 2 ^ 24) 0); done.
  - destruct (Z.eqb_spec (h1 mod 2 ^ 24) 0), (Z.eqb_spec (h2 mod 2 ^ 24) 0);
      lia.
Qed.

End HashBounds.

(** * Instances

    The theorems above at concrete tables with [int], [string],
    [float64] and [any] keys and at concrete byte strings. *)

Section Instances.

Import Examples.

(** [New(); Set(1, 10); Set(2, 20)] *)
Ltac reach_12 :=
  apply (reachable_Set _ table_1 2 2 20); [|reflexivity];
  apply (reachable_Set _ New 2 1 10); [|reflexivity];
  apply reachable_New.

(** [New(); Set(1, 10); Set(2, 20); Set(3, 30)] *)
Ltac reach_123 :=
  apply (reachable_Set _ table_12 2 3 30); [|reflexivity]; reach_12.

(** [New(); Set(1, 10); Set(2, 20); Delete(1)] *)
Ltac reach_2 :=
  apply (reachable_Delete _ table_12 1 table_2 true); [|reflexivity]; reach_12.

(** The same calls as a table that never saw a [Delete]. *)
Ltac only_12 :=
  apply (insert_only_Set _ table_1 2 20); [|reflexivity];
  apply (insert_only_Set _ New 1 10); [|reflexivity];
  apply insert_only_New.

Ltac only_123 :=
  apply (insert_only_Set _ table_12 3 30); [|reflexivity]; only_12.

(** [New(); Set(NaN, 1)] on a table with [float64] keys. *)
Ltac reach_nan :=
  apply (reachable_Set _ New 2 NaN 1); [|reflexivity]; apply reachable_New.

Lemma Set_then_Get_witness :
  reachable no_strings table_12 ∧
  key_eq (3 : Z) 3 = Some true ∧
  Set_ no_strings 2 table_12 3 30 = Some table_123 ∧
  Get no_strings table_123 3 = Some (30, true) ∧
  Contains no_strings table_123 3 = Some true.
Proof.
  split; [reach_12|]. split; [reflexivity|]. split; [reflexivity|].
  apply (Set_then_Get no_strings 2 table_12 3 30 table_123);
    [reach_12|reflexivity..].
Defined.

Lemma never_equal_key_witness :
  reachable no_strings table_nan ∧
  (∀ k, key_eq k NaN = Some false) ∧
  Get no_strings table_nan NaN = Some (0, false) ∧
  Contains no_strings table_nan NaN = Some false ∧
  Delete no_strings table_nan NaN = Some (table_nan, false) ∧
  Set_ no_strings 2 table_nan NaN 2 = Some table_nan_nan ∧
  (NaN, 2) ∈ Iter_all table_nan_nan ∧
  Get no_strings table_nan_nan NaN = Some (0, false) ∧
  Size table_nan_nan = Size table_nan + 1.
Proof.
  assert (reachable no_strings table_nan) as Hreach by reach_nan.
  assert (∀ k, key_eq k NaN = Some false) as Hnever by (by intros [|x]).
  destruct (never_equal_key no_strings table_nan NaN Hreach Hnever)
    as (HG & HC & HD & HSet).
  destruct (HSet 2%nat 2 table_nan_nan eq_refl) as (Hin & HG' & Hsz).
  split_and!; [done|done|done|done|done|reflexivity|done|done|].
  apply Hsz. reflexivity.
Defined.

Lemma uncomparable_key_panics_witness :
  key_eq (Slice [1]) (Slice [1]) = None ∧
  ∃ h1 : HashMap any_key Z,
    Set_ no_strings 2 New (Slice [1]) 1 = Some h1 ∧
    Size h1 = 1 ∧ stored h1 (Slice [1]) 1 ∧
    Get no_strings h1 (Slice [1]) = None ∧
    Contains no_strings h1 (Slice [1]) = None ∧
    Delete no_strings h1 (Slice [1]) = None ∧
    ∀ fuel value', Set_ no_strings fuel h1 (Slice [1]) value' = None.
Proof.
  split; [reflexivity|].
  apply (uncomparable_key_panics no_strings (Slice [1]) 1). reflexivity.
Defined.

Lemma Set_capacity_rule_witness :
  reachable no_strings table_123 ∧
  Set_ no_strings 2 table_123 4 40 = Some table_1234 ∧
  Capacity table_1234 =
    (if (Size table_123 + 1) * maximumLoad >=? Capacity table_123
     then Capacity table_123 * 2 else Capacity table_123) ∧
  Size table_1234 ≤ Size table_123 + 1.
Proof.
  split; [reach_123|]. split; [reflexivity|].
  apply (Set_capacity_rule no_strings 2 table_123 4 40 table_1234);
    [reach_123|reflexivity].
Defined.


Lemma Set_insert_new_witness :
  reachable no_strings table_12 ∧
  Contains no_strings table_12 3 = Some false ∧
  (Size table_12 + 1) * 2 < Capacity table_12 ∧
  Set_ no_strings 2 table_12 3 30 = Some table_123 ∧
  Size table_123 = Size table_12 + 1 ∧
  Capacity table_123 = Capacity table_12 ∧
  ∃ l1 l2,
    Iter_all table_12 = l1 ++ l2 ∧
    Iter_all table_123 = l1 ++ (3, 30) :: l2.
Proof.
  split; [reach_12|]. split; [reflexivity|]. split; [reflexivity|].
  split; [reflexivity|].
  apply (Set_insert_new no_strings 2 table_12 3 30 table_123);
    [reach_12|reflexivity..].
Defined.


Lemma Delete_twice_witness :
  reachable no_strings table_12 ∧
  Delete no_strings table_12 1 = Some (table_2, true) ∧
  Get no_strings table_2 1 = Some (zero, false) ∧
  Contains no_strings table_2 1 = Some false ∧
  Delete no_strings table_2 1 = Some (table_2, false).
Proof.
  split; [reach_12|]. split; [reflexivity|].
  apply (Delete_twice no_strings table_12 1 table_2 true);
    [reach_12|reflexivity].
Defined.



Lemma reachable_no_panic_witness :
  reachable no_strings table_nan ∧
  is_Some (Get no_strings table_nan NaN) ∧
  is_Some (Contains no_strings table_nan NaN) ∧
  is_Some (Delete no_strings table_nan NaN) ∧
  (Capacity table_nan < 2 ^ 62 →
   ∀ fuel, is_Some (Set_ no_strings (S (S fuel)) table_nan NaN 2)).
Proof.
  split; [reach_nan|].
  apply (reachable_no_panic no_strings table_nan NaN 2). reach_nan.
Defined.

Lemma insert_only_Get_Iter_witness :
  insert_only no_strings table_123 ∧
  (∀ value, Get no_strings table_123 3 = Some (value, true) ↔
            (3, value) ∈ Iter_all table_123) ∧
  (3 ∉ (Iter_all table_123).*1 →
   Get no_strings table_123 3 = Some (zero, false)) ∧
  NoDup ((Iter_all table_123).*1).
Proof.
  split; [only_123|].
  apply (insert_only_Get_Iter no_strings table_123 3). only_123.
Defined.

Lemma insert_only_round_trip_witness :
  insert_only no_strings table_12 ∧
  Set_ no_strings 2 table_12 3 30 = Some table_123 ∧
  ∀ k, Get no_strings table_123 k =
       if decide (k = 3) then Some (30, true) else Get no_strings table_12 k.
Proof.
  split; [only_12|]. split; [reflexivity|].
  apply (@insert_only_round_trip no_strings Z Z int_GoKey int_StrictKey
           int_GoZero table_12 3 30 table_123);
    [only_12|reflexivity].
Defined.

Lemma Set_rehash_restores_witness :
  reachable no_strings table_123 ∧
  Capacity table_123 ≤ (Size table_123 + 1) * 2 ∧
  Set_ no_strings 2 table_123 4 40 = Some table_1234 ∧
  Capacity table_1234 = Capacity table_123 * 2 ∧
  (∀ k v, (k, v) ∈ Iter_all table_1234 →
          Get no_strings table_1234 k = Some (v, true)) ∧
  NoDup ((Iter_all table_1234).*1) ∧
  (∀ k, k ∈ (Iter_all table_123).*1 →
        Contains no_strings table_1234 k = Some true).
Proof.
  split; [reach_123|]. split; [by vm_compute|]. split; [reflexivity|].
  apply (Set_rehash_restores no_strings 2 table_123 4 40 table_1234);
    [reach_123|by vm_compute|reflexivity].
Defined.


Lemma distinct_keys_stored_apart_witness :
  key_eq "Key" "Key" = Some true ∧ key_eq "key" "key" = Some true ∧
  key_eq "Key" "key" = Some false ∧
  ∃ h1 h2 : HashMap string Z,
    Set_ no_strings 2 New "Key" 1 = Some h1 ∧
    Get no_strings h1 "key" = Some (zero, false) ∧
    Set_ no_strings 2 h1 "key" 2 = Some h2 ∧
    Size h2 = 2 ∧
    Get no_strings h2 "Key" = Some (1, true) ∧
    Get no_strings h2 "key" = Some (2, true).
Proof.
  split; [reflexivity|]. split; [reflexivity|]. split; [reflexivity|].
  apply (distinct_keys_stored_apart no_strings "Key" "key" 1 2); reflexivity.
Defined.

Lemma Set_duplicates_lost_key_witness :
  reachable no_strings table_2 ∧
  2 ∈ (Iter_all table_2).*1 ∧
  Contains no_strings table_2 2 = Some false ∧
  (Size table_2 + 1) * 2 < Capacity table_2 ∧
  Set_ no_strings 2 table_2 2 21 = Some table_22 ∧
  Size table_22 = Size table_2 + 1 ∧
  (∃ l1 l2, Iter_all table_2 = l1 ++ l2 ∧
            Iter_all table_22 = l1 ++ (2, 21) :: l2) ∧
  ¬ NoDup ((Iter_all table_22).*1).
Proof.
  assert (2 ∈ (Iter_all table_2).*1) as Hin.
  { vm_compute. apply list_elem_of_here. }
  split; [reach_2|]. split; [exact Hin|]. split; [reflexivity|].
  split; [reflexivity|]. split; [reflexivity|].
  apply (Set_duplicates_lost_key no_strings 2 table_2 2 21 table_22);
    [reach_2|exact Hin|reflexivity..].
Defined.

Lemma probes_visit_every_slot_witness :
  reachable no_strings table_123 ∧
  0 ≤ 5 < Capacity table_123 ∧
  (∀ n, Z.land (triangular (Capacity table_123) 6 n + (n + 1))
          (Capacity table_123 - 1) =
        triangular (Capacity table_123) 6 (n + 1)) ∧
  ∃ n, 0 ≤ n < Capacity table_123 ∧
       triangular (Capacity table_123) 6 n = 5 ∧
       ∀ m, 0 ≤ m < Capacity table_123 →
            triangular (Capacity table_123) 6 m = 5 → m = n.
Proof.
  split; [reach_123|]. split; [by vm_compute|].
  apply (probes_visit_every_slot no_strings table_123 6 5);
    [reach_123|by vm_compute].
Defined.

Lemma index_mod_witness :
  reachable no_strings table_123 ∧
  0 ≤ 4242 < 2 ^ 32 ∧
  index table_123 4242 = 4242 mod Capacity table_123 ∧
  0 ≤ index table_123 4242 < Capacity table_123.
Proof.
  split; [reach_123|]. split; [lia|].
  apply (index_mod no_strings table_123 4242); [reach_123|lia].
Defined.

Lemma collision_through_deletion_witness :
  key_eq (1 : Z) 1 = Some true ∧ key_eq (2 : Z) 2 = Some true ∧
  key_eq (1 : Z) 2 = Some false ∧
  index (@New Z Z) (hash no_strings 1) = index (@New Z Z) (hash no_strings 2) ∧
  ∃ h1 h2 h3 : HashMap Z Z,
    Set_ no_strings 2 New 1 10 = Some h1 ∧
    Set_ no_strings 2 h1 2 20 = Some h2 ∧
    Get no_strings h2 2 = Some (20, true) ∧
    Delete no_strings h2 1 = Some (h3, true) ∧
    Get no_strings h3 2 = Some (zero, false) ∧
    stored h3 2 20 ∧ Size h3 = 1.
Proof.
  split; [reflexivity|]. split; [reflexivity|]. split; [reflexivity|].
  split; [reflexivity|].
  apply (collision_through_deletion no_strings 1 2 10 20); reflexivity.
Defined.

Lemma Hash_no_panic_witness :
  Z.of_nat (length (replicate 100 "a"%byte)) < 2 ^ 64 ∧
  is_Some (rapidhash.Hash (replicate 100 "a"%byte) rapidhash.SEED).
Proof.
  split; [by vm_compute|].
  apply (Hash_no_panic (replicate 100 "a"%byte) rapidhash.SEED).
  by vm_compute.
Defined.

Lemma Hash_range_witness :
  Z.of_nat (length (replicate 100 "a"%byte)) < 2 ^ 64 ∧
  0 ≤ rapidhash.SEED < 2 ^ 64 ∧
  rapidhash.Hash (replicate 100 "a"%byte) rapidhash.SEED =
    Some 12545708467499602944 ∧
  0 ≤ 12545708467499602944 < 2 ^ 64.
Proof.
  split; [by vm_compute|]. split; [by vm_compute|].
  split; [by vm_compute|].
  apply (Hash_range (replicate 100 "a"%byte) rapidhash.SEED);
    by vm_compute.
Defined.

Lemma ComputeHashAndMaskTop8Bits_code_witness :
  Z.of_nat (length (replicate 100 "a"%byte)) < 2 ^ 64 ∧
  ∃ code,
    stringhasher.ComputeHashAndMaskTop8Bits
      (replicate 100 "a"%byte) rapidhash.SEED = Some code ∧
    0 < code < 2 ^ 24.
Proof.
  split; [by vm_compute|].
  apply (ComputeHashAndMaskTop8Bits_code (replicate 100 "a"%byte)
           rapidhash.SEED).
  by vm_compute.
Defined.

End Instances.
